(** * BoxQ: circuit breaker, retry manager, deduplication, processing engine
      and message consumer, embedded from the JavaScript sources.

    Conventions of the embedding.
    - [Date.now()] is an explicit argument or the [clock] field of the world:
      integer milliseconds, [Z].
    - Counters, thresholds and timeouts are JavaScript numbers holding
      integers: [Z].  The retry configuration also allows fractional values
      (a multiplier of 1.5), so its delays are computed over [Q] and
      [Math.floor] is [Qfloor].
    - An [async] function is a function from the world to a completion
      ([Return] or [Throw]) and the next world; every observable call
      (send, sleep, callback, console output) is appended to the world's log. *)

From stdpp Require Import gmap strings list.
From Stdlib Require Import ZArith QArith Qpower Qround Qminmax Lia Ascii DecimalZ DecimalString.

(** ** JavaScript values shared by the components *)

Module JS.

(** A thrown value: [undefined] or an [Error] with its [name] and [message]. *)
Inductive thrown : Type :=
| Undefined
| Err (name message : string).

(** Outcome of awaiting a call. *)
Inductive completion (V : Type) : Type :=
| Return (v : V)
| Throw (e : thrown).
Arguments Return {V} v.
Arguments Throw {V} e.

Definition error_name (e : thrown) : string :=
  match e with Undefined => EmptyString | Err n _ => n end.

Definition error_message (e : thrown) : string :=
  match e with Undefined => EmptyString | Err _ m => m end.

(** What reading [error.message] throws when [error] is [undefined]. *)
Definition messageOfUndefined : thrown :=
  Err "TypeError" "Cannot read properties of undefined (reading 'message')".

(** [x || d] for an optional number: [undefined] and [0] are falsy. *)
Definition or_default (x : option Z) (d : Z) : Z :=
  match x with
  | Some v => if (v =? 0)%Z then d else v
  | None => d
  end.

End JS.

(** ** src/core/CircuitBreaker.js *)

Module CircuitBreaker.
Local Open Scope Z_scope.

Inductive CircuitBreakerState : Type := CLOSED | OPEN | HALF_OPEN.

Record config : Type := Config {
  cfg_failureThreshold : option Z;
  cfg_timeout : option Z;
  cfg_monitoringPeriod : option Z
}.

Record t : Type := Breaker {
  failureThreshold : Z;
  timeout : Z;
  monitoringPeriod : Z;
  state : CircuitBreakerState;
  failureCount : Z;
  lastFailureTime : option Z;   (* [None] is [null] *)
  successCount : Z;
  monitoringStartTime : Z
}.

(** [constructor(config = {})], called at time [now]. *)
Definition new (c : config) (now : Z) : t :=
  {| failureThreshold := JS.or_default (cfg_failureThreshold c) 5;
     timeout := JS.or_default (cfg_timeout c) 60000;
     monitoringPeriod := JS.or_default (cfg_monitoringPeriod c) 10000;
     state := CLOSED;
     failureCount := 0;
     lastFailureTime := None;
     successCount := 0;
     monitoringStartTime := now |}.

(** [now - this.lastFailureTime]: [null] converts to 0. *)
Definition sinceLastFailure (now : Z) (b : t) : Z :=
  now - match lastFailureTime b with Some tf => tf | None => 0 end.

(** [canExecute()]: the answer and the breaker after the call. *)
Definition canExecute (now : Z) (b : t) : bool * t :=
  match state b with
  | CLOSED => (true, b)
  | OPEN =>
      if timeout b <? sinceLastFailure now b
      then (true,
            {| failureThreshold := failureThreshold b; timeout := timeout b;
               monitoringPeriod := monitoringPeriod b;
               state := HALF_OPEN;
               failureCount := failureCount b;
               lastFailureTime := lastFailureTime b;
               successCount := 0;
               monitoringStartTime := monitoringStartTime b |})
      else (false, b)
  | HALF_OPEN => (true, b)
  end.

Definition recordSuccess (b : t) : t :=
  let sc := successCount b + 1 in
  let closes :=
    match state b with
    | HALF_OPEN => failureThreshold b <=? sc
    | _ => false
    end in
  {| failureThreshold := failureThreshold b; timeout := timeout b;
     monitoringPeriod := monitoringPeriod b;
     state := if closes then CLOSED else state b;
     failureCount := if closes then 0 else failureCount b;
     lastFailureTime := lastFailureTime b;
     successCount := if closes then 0 else sc;
     monitoringStartTime := monitoringStartTime b |}.

Definition recordFailure (now : Z) (b : t) : t :=
  let fc := failureCount b + 1 in
  let opens :=
    match state b with
    | CLOSED | HALF_OPEN => failureThreshold b <=? fc
    | OPEN => false
    end in
  {| failureThreshold := failureThreshold b; timeout := timeout b;
     monitoringPeriod := monitoringPeriod b;
     state := if opens then OPEN else state b;
     failureCount := fc;
     lastFailureTime := Some now;
     successCount := successCount b;
     monitoringStartTime := monitoringStartTime b |}.

Definition reset (now : Z) (b : t) : t :=
  {| failureThreshold := failureThreshold b; timeout := timeout b;
     monitoringPeriod := monitoringPeriod b;
     state := CLOSED;
     failureCount := 0;
     lastFailureTime := None;
     successCount := 0;
     monitoringStartTime := now |}.

Definition getState (b : t) : CircuitBreakerState := state b.
Definition getFailureCount (b : t) : Z := failureCount b.
Definition getSuccessCount (b : t) : Z := successCount b.

(** A history of outcome reports: each [recordFailure()] with the time at
    which it ran, and [recordSuccess()]. *)
Inductive report : Type :=
| Failure (now : Z)
| Success.

Definition apply_report (b : t) (r : report) : t :=
  match r with
  | Failure now => recordFailure now b
  | Success => recordSuccess b
  end.

Definition run (rs : list report) (b : t) : t := fold_left apply_report rs b.

(** Number of [recordFailure()] calls of a history. *)
Fixpoint failures (rs : list report) : Z :=
  match rs with
  | [] => 0
  | Failure _ :: rs' => 1 + failures rs'
  | Success :: rs' => failures rs'
  end.

(** Time of the last [recordFailure()] of a history, [dflt] when none. *)
Fixpoint lastFailure (dflt : option Z) (rs : list report) : option Z :=
  match rs with
  | [] => dflt
  | Failure now :: rs' => lastFailure (Some now) rs'
  | Success :: rs' => lastFailure dflt rs'
  end.

(** [n] consecutive [recordSuccess()] calls. *)
Fixpoint successes (n : nat) (b : t) : t :=
  match n with
  | O => b
  | S k => successes k (recordSuccess b)
  end.

(** [getTimeSinceLastFailure()]: [null] while [lastFailureTime] is falsy,
    which a time stamp of 0 is too. *)
Definition getTimeSinceLastFailure (now : Z) (b : t) : option Z :=
  match lastFailureTime b with
  | Some tf => if tf =? 0 then None else Some (now - tf)
  | None => None
  end.

Record status : Type := {
  status_state : CircuitBreakerState;
  status_failureCount : Z;
  status_successCount : Z;
  status_lastFailureTime : option Z;
  status_timeSinceLastFailure : option Z;
  status_canExecute : bool
}.

(** [getStatus()]: the properties of the object literal are evaluated in
    order, so the fields are read before [canExecute()] runs; [now1] and
    [now2] are the readings of [Date.now()] in [getTimeSinceLastFailure] and
    in [canExecute]. The breaker after the call is the one [canExecute]
    leaves. *)
Definition getStatus (now1 now2 : Z) (b : t) : status * t :=
  let '(allowed, b') := canExecute now2 b in
  ({| status_state := state b;
      status_failureCount := failureCount b;
      status_successCount := successCount b;
      status_lastFailureTime := lastFailureTime b;
      status_timeSinceLastFailure := getTimeSinceLastFailure now1 b;
      status_canExecute := allowed |}, b').

(** Any call on the breaker, with the clock readings it makes. *)
Inductive call : Type :=
| DoCanExecute (now : Z)
| DoRecordSuccess
| DoRecordFailure (now : Z)
| DoReset (now : Z)
| DoGetStatus (now1 now2 : Z).

Definition perform (b : t) (c : call) : t :=
  match c with
  | DoCanExecute now => (canExecute now b).2
  | DoRecordSuccess => recordSuccess b
  | DoRecordFailure now => recordFailure now b
  | DoReset now => reset now b
  | DoGetStatus now1 now2 => (getStatus now1 now2 b).2
  end.

Definition history (cs : list call) (b : t) : t := fold_left perform cs b.

Definition isFailure (c : call) : bool :=
  match c with
  | DoRecordFailure _ => true
  | _ => false
  end.

(** The state agrees with the failure count: CLOSED below the threshold,
    OPEN or HALF_OPEN at or above it. *)
Definition consistent (b : t) : Prop :=
  match state b with
  | CLOSED => failureCount b < failureThreshold b
  | OPEN | HALF_OPEN => failureThreshold b <= failureCount b
  end.

(** The breaker of the examples: threshold 3, timeout 1000 ms. *)
Definition example : t :=
  new {| cfg_failureThreshold := Some 3; cfg_timeout := Some 1000;
         cfg_monitoringPeriod := Some 500 |} 0.

End CircuitBreaker.

(** ** src/core/RetryManager.js *)

Module RetryManager.
Import JS.
Local Open Scope Z_scope.

Record config : Type := Config {
  cfg_maxRetries : option Z;
  cfg_backoffMultiplier : option Q;
  cfg_maxBackoffMs : option Q;
  cfg_initialDelayMs : option Q
}.

Record t : Type := Manager {
  maxRetries : Z;
  backoffMultiplier : Q;
  maxBackoffMs : Q;
  initialDelayMs : Q
}.

Definition or_defaultQ (x : option Q) (d : Q) : Q :=
  match x with
  | Some v => if Qeq_bool v 0 then d else v
  | None => d
  end.

Definition new (c : config) : t :=
  {| maxRetries := or_default (cfg_maxRetries c) 3;
     backoffMultiplier := or_defaultQ (cfg_backoffMultiplier c) (2 # 1);
     maxBackoffMs := or_defaultQ (cfg_maxBackoffMs c) (30000 # 1);
     initialDelayMs := or_defaultQ (cfg_initialDelayMs c) (1000 # 1) |}.

(** The value under [Math.floor] in [calculateDelay], over exact rationals.
    The code computes it in doubles. The two agree where the settings are
    integers from 1 up and every value met below the cap is an integer below
    [2 ^ 53]: such products and powers are exact in doubles, and a product
    that is not below [2 ^ 53] is cut to the cap by [Math.min] either way.
    The values of the delays are stated below in that range only. *)
Definition rawDelay (rm : t) (attempt : Z) : Q :=
  Qmin (initialDelayMs rm * Qpower (backoffMultiplier rm) attempt)
       (maxBackoffMs rm).

Definition calculateDelay (rm : t) (attempt : Z) : Z :=
  Qfloor (rawDelay rm attempt).

Section ExecuteWithRetry.
(** [W]: the world the awaited calls act on; [V]: what [fn] resolves to. *)
Context {W V : Type}.
(** [this.sleep(ms)] *)
Variable sleep : Z -> W -> W.

Record options : Type := Options {
  shouldRetry : option (thrown -> bool);
  onRetry : option (thrown -> Z -> Z -> W -> W);
  onFailure : option (thrown -> Z -> W -> W)
}.

(** [!shouldRetry || shouldRetry(error)] *)
Definition retryable (o : options) (e : thrown) : bool :=
  match shouldRetry o with
  | None => true
  | Some f => f e
  end.

(** How the [for] loop is left: by [return result], or by [break] or a
    false loop condition with [lastError] as it then stands. *)
Inductive loop_exit : Type :=
| Returned (v : V)
| Failed (lastError : thrown).

(** The loop [for (attempt = 0; attempt <= maxRetries; attempt++)], by
    recursion on the number [remaining] of iterations the loop condition
    still admits. *)
Fixpoint attempts (rm : t) (fn : W -> completion V * W) (o : options)
    (remaining : nat) (attempt : Z) (lastError : thrown) (w : W)
    : loop_exit * W :=
  match remaining with
  | O => (Failed lastError, w)
  | S k =>
      match fn w with
      | (Return v, w1) => (Returned v, w1)
      | (Throw e, w1) =>
          if (attempt <? maxRetries rm) && retryable o e then
            let delay := calculateDelay rm attempt in
            let w2 := match onRetry o with
                      | Some cb => cb e (attempt + 1) delay w1
                      | None => w1
                      end in
            attempts rm fn o k (attempt + 1) e (sleep delay w2)
          else (Failed e, w1)
      end
  end.

Definition executeWithRetry (rm : t) (fn : W -> completion V * W)
    (o : options) (w : W) : completion V * W :=
  match attempts rm fn o (Z.to_nat (maxRetries rm + 1)) 0 Undefined w with
  | (Returned v, w1) => (Return v, w1)
  | (Failed lastError, w1) =>
      let w2 := match onFailure o with
                | Some cb => cb lastError (maxRetries rm + 1) w1
                | None => w1
                end in
      (Throw lastError, w2)
  end.
End ExecuteWithRetry.

Arguments options : clear implicits.

(** *** An observed run: the operation acts on a state of its own, and every
    invocation, sleep and callback is recorded in order. *)

Inductive event : Type :=
| Invoked
| Slept (ms : Z)
| OnRetry (e : thrown) (attempt delay : Z)
| OnFailure (e : thrown) (totalAttempts : Z).

Section Observed.
Context {U V : Type}.

Definition record (ev : event) (w : U * list event) : U * list event :=
  (fst w, snd w ++ [ev]).

Definition observed (op : U -> completion V * U)
    (w : U * list event) : completion V * (U * list event) :=
  let '(r, u) := op (fst w) in (r, (u, snd w ++ [Invoked])).

Definition observing (sr : option (thrown -> bool))
    : options (U * list event) :=
  {| shouldRetry := sr;
     onRetry := Some (fun e attempt delay => record (OnRetry e attempt delay));
     onFailure := Some (fun e total => record (OnFailure e total)) |}.

Definition run (rm : t) (op : U -> completion V * U)
    (sr : option (thrown -> bool)) (u : U)
    : completion V * (U * list event) :=
  executeWithRetry (fun ms => record (Slept ms)) rm (observed op)
    (observing sr) (u, []).
End Observed.

(** The operation's state after [n] invocations, and what a completion
    throws. *)
Fixpoint after {U V : Type} (op : U -> completion V * U) (n : nat) (u : U) : U :=
  match n with
  | O => u
  | S k => after op k (op u).2
  end.




Definition invocations (l : list event) : nat :=
  length (List.filter (fun ev => match ev with Invoked => true | _ => false end) l).

Fixpoint delays (l : list event) : list Z :=
  match l with
  | [] => []
  | Slept ms :: l' => ms :: delays l'
  | _ :: l' => delays l'
  end.



(** *** [executeWithRetryDetailed] *)

Section Detailed.
Context {W V : Type}.
(** [this.sleep(ms)] and [Date.now()] *)
Variable sleep : Z -> W -> W.
Variable now : W -> Z.

(** An entry of [attempts]. *)
Record attemptRecord : Type := {
  attempt_number : Z;
  attempt_success : bool;
  attempt_duration : Z;
  attempt_error : option string      (* [null] on success *)
}.

(** The object returned; [detailed_error] is [None] where the object has no
    [error] property. *)
Record detailed : Type := {
  detailed_success : bool;
  detailed_result : option V;        (* [null] on failure *)
  detailed_attempts : list attemptRecord;
  detailed_totalDuration : Z;
  detailed_retryCount : Z;
  detailed_error : option thrown
}.

(** The loop of [executeWithRetryDetailed] and the [return] after it, by
    recursion on the iterations the loop condition still admits. The
    [options] argument of the source is never read. The [catch] block reads
    [error.message] for the attempt record: when [undefined] was thrown this
    read throws in turn, out of the function. *)
Fixpoint detailedAttempts (rm : t) (fn : W -> completion V * W)
    (remaining : nat) (attempt : Z) (lastError : thrown)
    (attempts : list attemptRecord) (startTime : Z) (w : W)
    : completion detailed * W :=
  match remaining with
  | O =>
      (Return {| detailed_success := false;
                 detailed_result := None;
                 detailed_attempts := attempts;
                 detailed_totalDuration := now w - startTime;
                 detailed_retryCount := maxRetries rm + 1;
                 detailed_error := Some lastError |}, w)
  | S k =>
      let attemptStartTime := now w in
      match fn w with
      | (Return result, w1) =>
          let attemptTime := now w1 - attemptStartTime in
          (Return {| detailed_success := true;
                     detailed_result := Some result;
                     detailed_attempts :=
                       attempts ++ [{| attempt_number := attempt + 1;
                                       attempt_success := true;
                                       attempt_duration := attemptTime;
                                       attempt_error := None |}];
                     detailed_totalDuration := now w1 - startTime;
                     detailed_retryCount := attempt;
                     detailed_error := None |}, w1)
      | (Throw Undefined, w1) => (Throw messageOfUndefined, w1)
      | (Throw (Err name message), w1) =>
          let attemptTime := now w1 - attemptStartTime in
          let attempts' :=
            attempts ++ [{| attempt_number := attempt + 1;
                            attempt_success := false;
                            attempt_duration := attemptTime;
                            attempt_error := Some message |}] in
          let w2 := if attempt <? maxRetries rm
                    then sleep (calculateDelay rm attempt) w1
                    else w1 in
          detailedAttempts rm fn k (attempt + 1) (Err name message) attempts'
            startTime w2
      end
  end.

Definition executeWithRetryDetailed (rm : t) (fn : W -> completion V * W)
    (w : W) : completion detailed * W :=
  detailedAttempts rm fn (Z.to_nat (maxRetries rm + 1)) 0 Undefined [] (now w) w.
End Detailed.

(** The observed run of [executeWithRetryDetailed]: the clock of the record
    is the time slept so far. *)
Definition elapsed {U : Type} (w : U * list event) : Z :=
  fold_right Z.add 0 (delays w.2).

Definition runDetailed {U V : Type} (rm : t) (op : U -> completion V * U) (u : U)
    : completion (detailed (V := V)) * (U * list event) :=
  executeWithRetryDetailed (fun ms => record (Slept ms)) elapsed rm (observed op)
    (u, []).

(** The record of [remaining] invocations of [executeWithRetryDetailed]
    that are each followed by a sleep but the last. *)
Fixpoint sleepTrace (rm : t) (remaining : nat) (attempt : Z) : list event :=
  match remaining with
  | O => []
  | S k =>
      match k with
      | O => [Invoked]
      | S _ =>
          Invoked :: Slept (calculateDelay rm attempt) ::
            sleepTrace rm k (attempt + 1)
      end
  end.

(** An operation that throws a validation error twice and then returns. *)
Definition failsTwice (n : nat) : completion string * nat :=
  if (n <? 2)%nat
  then (Throw (Err "ValidationError" "bad input"), S n)
  else (Return "done", S n).

(** The operation of the examples: it always throws, and its state counts
    the invocations. *)
Definition alwaysFails (n : nat) : completion unit * nat :=
  (Throw (Err "Error" "persistent failure"), S n).

Definition example : t :=
  {| maxRetries := 3; backoffMultiplier := 2 # 1;
     maxBackoffMs := 1000 # 1; initialDelayMs := 100 # 1 |}.


End RetryManager.

(** ** The fragment of JSON the deduplication manager serialises *)

Module JSON.
Local Open Scope string_scope.

(** Numbers are integers (timestamps, identifiers); an object is its list of
    own enumerable properties in creation order. *)
#[local] Unset Elimination Schemes.
Inductive value : Type :=
| JUndefined
| JNull
| JBool (b : bool)
| JNumber (n : Z)
| JString (s : string)
| JArray (xs : list value)
| JObject (props : list (string * value)).
#[local] Set Elimination Schemes.

Definition quote : ascii := ascii_of_nat 34.
Definition backslash : ascii := ascii_of_nat 92.

(** [String(n)] for an integer [n] of fewer than 22 digits; from [1e21] up
    JavaScript prints an exponent. *)
Definition Number_toString (n : Z) : string :=
  NilEmpty.string_of_int (Z.to_int n).

Definition hexDigit (n : nat) : ascii :=
  if (n <? 10)%nat then ascii_of_nat (48 + n) else ascii_of_nat (87 + n).

(** One code unit of [QuoteJSONString]. *)
Definition escape (c : ascii) : string :=
  let n := nat_of_ascii c in
  if (n =? 34)%nat then String backslash (String quote EmptyString)
  else if (n =? 92)%nat then String backslash (String backslash EmptyString)
  else if (n =? 8)%nat then String backslash "b"
  else if (n =? 9)%nat then String backslash "t"
  else if (n =? 10)%nat then String backslash "n"
  else if (n =? 12)%nat then String backslash "f"
  else if (n =? 13)%nat then String backslash "r"
  else if (n <? 32)%nat then
    String backslash
      (String "u" (String "0" (String "0"
         (String (hexDigit (n / 16)) (String (hexDigit (n mod 16)) EmptyString)))))
  else String c EmptyString.

Fixpoint escapeAll (s : string) : string :=
  match s with
  | EmptyString => EmptyString
  | String c s' => escape c +:+ escapeAll s'
  end.

Definition QuoteJSONString (s : string) : string :=
  String quote (escapeAll s +:+ String quote EmptyString).

Fixpoint join (sep : string) (l : list string) : string :=
  match l with
  | [] => EmptyString
  | [x] => x
  | x :: l' => x +:+ sep +:+ join sep l'
  end.

(** [Get(holder, P)] on a list of serialised properties. *)
Fixpoint get {A : Type} (P : string) (props : list (string * A)) : option A :=
  match props with
  | [] => None
  | (k, x) :: props' => if String.eqb k P then Some x else get P props'
  end.

(** [SerializeJSONProperty] with the property list [K] of an array replacer
    ([None]: no replacer).  The one list [K] selects the members of every
    object met, at every depth; array elements are never filtered. *)
Fixpoint SerializeJSONProperty (K : option (list string)) (v : value)
    : option string :=
  match v with
  | JUndefined => None
  | JNull => Some "null"
  | JBool b => Some (if b then "true" else "false")
  | JNumber n => Some (Number_toString n)
  | JString s => Some (QuoteJSONString s)
  | JArray xs =>
      let parts :=
        List.map (fun x => match SerializeJSONProperty K x with
                           | Some s => s
                           | None => "null"
                           end) xs in
      Some ("[" +:+ join "," parts +:+ "]")
  | JObject props =>
      let serialised :=
        List.map (fun p => (fst p, SerializeJSONProperty K (snd p))) props in
      let keys := match K with
                  | Some ks => ks
                  | None => List.map fst props
                  end in
      let members :=
        List.flat_map
          (fun P => match get P serialised with
                    | Some (Some s) => [QuoteJSONString P +:+ ":" +:+ s]
                    | _ => []
                    end) keys in
      Some ("{" +:+ join "," members +:+ "}")
  end.

(** The property list of an array replacer keeps the first occurrence of
    each name. *)
Fixpoint PropertyList (replacer : list string) : list string :=
  match replacer with
  | [] => []
  | k :: ks =>
      k :: List.filter (fun k' => negb (String.eqb k k')) (PropertyList ks)
  end.

(** [JSON.stringify(value, replacer)] with an array replacer or none;
    [None] is the result [undefined]. *)
Definition stringify (v : value) (replacer : option (list string))
    : option string :=
  SerializeJSONProperty (option_map PropertyList replacer) v.

Fixpoint indices (from count : nat) : list string :=
  match count with
  | O => []
  | S k => Number_toString (Z.of_nat from) :: indices (S from) k
  end.

(** [Object.keys(v)]; [None] is the [TypeError] on [null] and [undefined]. *)
Definition Object_keys (v : value) : option (list string) :=
  match v with
  | JUndefined | JNull => None
  | JBool _ | JNumber _ => Some []
  | JString s => Some (indices 0 (String.length s))
  | JArray xs => Some (indices 0 (List.length xs))
  | JObject props => Some (List.map fst props)
  end.

Definition string_le (a b : string) : bool :=
  match String.compare a b with
  | Gt => false
  | _ => true
  end.

Fixpoint insert_sorted (k : string) (l : list string) : list string :=
  match l with
  | [] => [k]
  | x :: l' => if string_le k x then k :: l else x :: insert_sorted k l'
  end.

(** [Array.prototype.sort()] on strings: ascending by code unit. *)
Definition sort (l : list string) : list string :=
  fold_right insert_sorted [] l.

End JSON.

(** ** The queue service as the client sees it (@aws-sdk/client-sqs) *)

Module SQS.
Import JS.

Record Message : Type := {
  MessageId : string;
  ReceiptHandle : string;
  Body : string;
  MessageAttributes : list (string * string);
  MessageGroupId : option string;          (* [Attributes?.MessageGroupId] *)
  MessageDeduplicationId : option string   (* [Attributes?.MessageDeduplicationId] *)
}.

Inductive command : Type :=
| ReceiveMessageCommand (QueueUrl : string)
    (MaxNumberOfMessages WaitTimeSeconds VisibilityTimeoutSeconds : Z)
| DeleteMessageCommand (QueueUrl ReceiptHandle : string).

(** [result.Messages] may be [undefined]. *)
Record response : Type := { Messages : option (list Message) }.

(** What one [awsClient.send] does: how long it takes and how it settles. *)
Record reply : Type := {
  latency : Z;
  outcome : completion response
}.

End SQS.

(** ** The health monitor *)

Module HealthMonitor.
Local Open Scope Z_scope.

Record alert : Type := {
  alert_type : string;
  alert_message : string;
  alert_timestamp : Z
}.

Record t : Type := {
  messagesProcessed : Z;
  messagesFailed : Z;
  totalProcessingTime : Z;
  circuitBreakerState : string;
  lastHealthCheck : option Z;
  startTime : Z;
  alerts : list alert
}.

Definition new (now : Z) : t :=
  {| messagesProcessed := 0; messagesFailed := 0; totalProcessingTime := 0;
     circuitBreakerState := "CLOSED"; lastHealthCheck := None;
     startTime := now; alerts := [] |}.

Definition recordSuccess (processingTime : Z) (now : Z) (h : t) : t :=
  {| messagesProcessed := messagesProcessed h + 1;
     messagesFailed := messagesFailed h;
     totalProcessingTime := totalProcessingTime h + processingTime;
     circuitBreakerState := circuitBreakerState h;
     lastHealthCheck := Some now;
     startTime := startTime h;
     alerts := alerts h |}.

(** [error.includes('Circuit breaker')] *)
Definition includes (needle hay : string) : bool :=
  match String.index 0 needle hay with
  | Some _ => true
  | None => false
  end.

(** [recordFailure(error)]; [None] is an [undefined] argument. *)
Definition recordFailure (error : option string) (now : Z) (h : t) : t :=
  let significant :=
    match error with
    | Some e => negb (String.eqb e EmptyString) && includes "Circuit breaker" e
    | None => false
    end in
  {| messagesProcessed := messagesProcessed h;
     messagesFailed := messagesFailed h + 1;
     totalProcessingTime := totalProcessingTime h;
     circuitBreakerState := circuitBreakerState h;
     lastHealthCheck := Some now;
     startTime := startTime h;
     alerts :=
       if significant
       then alerts h ++
            [{| alert_type := "circuit_breaker";
                alert_message := match error with Some e => e | None => EmptyString end;
                alert_timestamp := now |}]
       else alerts h |}.

Definition updateCircuitBreakerState (state : string) (h : t) : t :=
  {| messagesProcessed := messagesProcessed h;
     messagesFailed := messagesFailed h;
     totalProcessingTime := totalProcessingTime h;
     circuitBreakerState := state;
     lastHealthCheck := lastHealthCheck h;
     startTime := startTime h;
     alerts := alerts h |}.

(** The values of [HealthStatus] in src/types/index.js. *)
Inductive HealthStatus : Type := HEALTHY | UNHEALTHY | DEGRADED.

(** [failureRate > 0.1], the rate being the exact quotient. The code divides
    and compares in doubles; for counters below [2 ^ 52] the rounded quotient
    exceeds the double nearest to 0.1 exactly when the exact quotient exceeds
    one tenth, and the properties below are stated in that range. *)
Definition highFailureRate (h : t) : bool :=
  negb (Qle_bool
          (inject_Z (messagesFailed h)
           / inject_Z (messagesProcessed h + messagesFailed h))
          (1 # 10)).

(** The [status] that [getHealthStatus()] reports. *)
Definition healthStatus (h : t) : HealthStatus :=
  if String.eqb (circuitBreakerState h) "OPEN" then UNHEALTHY
  else if (0 <? messagesFailed h) && (0 <? messagesProcessed h)
  then (if highFailureRate h then DEGRADED else HEALTHY)
  else HEALTHY.

(** What a registered check function does when called and awaited: it
    resolves to an object whose [status] may be missing, or it throws. A check
    that resolves to [null] or [undefined] makes [result.status] throw inside
    the [try], and is a [Throw] here. The clock is read as each entry is
    written; one reading stands for all of them here. *)
Record checkResult : Type := {
  check_status : option string;
  check_details : option string
}.

Record checkEntry : Type := {
  entry_status : string;
  entry_error : option string;
  entry_timestamp : Z
}.

(** [this.healthChecks]: a [Map] from names to checks, in insertion order. *)
Definition checks : Type := list (string * JS.completion checkResult).

(** [Map.prototype.set]: an existing name keeps its place. *)
Fixpoint registerHealthCheck (name : string) (check : JS.completion checkResult)
    (m : checks) : checks :=
  match m with
  | [] => [(name, check)]
  | (n, c) :: m' =>
      if String.eqb n name then (n, check) :: m'
      else (n, c) :: registerHealthCheck name check m'
  end.

Definition unregisterHealthCheck (name : string) (m : checks) : checks :=
  List.filter (fun nc => negb (String.eqb nc.1 name)) m.

(** The body of the loop of [performHealthChecks] for one check: its entry
    in [results] and whether it leaves [allHealthy] alone. The [catch] block
    reads [error.message]: when the check rejected with [undefined] this
    read throws in turn, out of [performHealthChecks]. *)
Definition runCheck (check : JS.completion checkResult) (now : Z)
    : JS.completion (checkEntry * bool) :=
  match check with
  | JS.Return result =>
      JS.Return
        ({| entry_status :=
              match check_status result with
              | Some st => if String.eqb st EmptyString then "healthy" else st
              | None => "healthy"
              end;
            entry_error := None;
            entry_timestamp := now |},
         match check_status result with
         | Some st => String.eqb st "healthy"
         | None => false
         end)
  | JS.Throw JS.Undefined => JS.Throw JS.messageOfUndefined
  | JS.Throw (JS.Err name message) =>
      JS.Return
        ({| entry_status := "unhealthy";
            entry_error := Some message;
            entry_timestamp := now |}, false)
  end.

(** The [for ... of] of [performHealthChecks], with [results] and
    [allHealthy] as they stand. *)
Fixpoint checkAll (m : checks) (now : Z) (results : list (string * checkEntry))
    (allHealthy : bool) : JS.completion (list (string * checkEntry) * bool) :=
  match m with
  | [] => JS.Return (results, allHealthy)
  | (name, check) :: rest =>
      match runCheck check now with
      | JS.Return (entry, healthy) =>
          checkAll rest now (results ++ [(name, entry)]) (allHealthy && healthy)
      | JS.Throw error => JS.Throw error
      end
  end.

(** [performHealthChecks()]: [overall] and the entries of [checks], in the
    order of the map. *)
Definition performHealthChecks (m : checks) (now : Z)
    : JS.completion (string * list (string * checkEntry)) :=
  match checkAll m now [] true with
  | JS.Return (results, allHealthy) =>
      JS.Return (if allHealthy then "healthy" else "unhealthy", results)
  | JS.Throw error => JS.Throw error
  end.

End HealthMonitor.

(** ** The world the asynchronous code runs in *)

Module Runtime.
Import JS.
Local Open Scope Z_scope.

(** [processingStats] of the processing engine. *)
Record stats : Type := {
  totalProcessed : Z;
  totalFailed : Z;
  averageProcessingTime : Q;
  lastProcessingTime : option Z
}.

(** The fields of a [ProcessingEngine].  Batch size and concurrency are
    counts of messages: positive integers. *)
Record engine : Type := {
  mode : string;
  batchSize : positive;
  throttleDelayMs : Z;
  maxConcurrency : positive;
  processingStats : stats
}.

(** Everything observable, in order of occurrence. *)
Inductive event : Type :=
| Sent (c : SQS.command)                       (* [awsClient.send(command)] *)
| RecordedSuccess                              (* [circuitBreaker.recordSuccess()] *)
| RecordedFailure                              (* [circuitBreaker.recordFailure()] *)
| Slept (ms : Z)                               (* a timer of [ms] milliseconds *)
| Handled (messageId : string)                 (* [messageHandler(body, context)] *)
| ConsoleWarn (attempt : Z) (message : string) (delay : Z)
| ConsoleError (text message : string)
| ConsoleLog (text : string).

Record World : Type := {
  circuitBreaker : CircuitBreaker.t;
  retryManager : RetryManager.t;
  processingEngine : engine;
  healthMonitor : option HealthMonitor.t;
  queueUrl : string;
  isRunning : bool;
  clock : Z;            (* [Date.now()] *)
  sends : nat;          (* number of [awsClient.send] calls so far *)
  log : list event
}.

Definition with_circuitBreaker (b : CircuitBreaker.t) (w : World) : World :=
  {| circuitBreaker := b; retryManager := retryManager w;
     processingEngine := processingEngine w; healthMonitor := healthMonitor w;
     queueUrl := queueUrl w; isRunning := isRunning w; clock := clock w;
     sends := sends w; log := log w |}.

Definition with_processingEngine (e : engine) (w : World) : World :=
  {| circuitBreaker := circuitBreaker w; retryManager := retryManager w;
     processingEngine := e; healthMonitor := healthMonitor w;
     queueUrl := queueUrl w; isRunning := isRunning w; clock := clock w;
     sends := sends w; log := log w |}.

Definition with_healthMonitor (h : option HealthMonitor.t) (w : World) : World :=
  {| circuitBreaker := circuitBreaker w; retryManager := retryManager w;
     processingEngine := processingEngine w; healthMonitor := h;
     queueUrl := queueUrl w; isRunning := isRunning w; clock := clock w;
     sends := sends w; log := log w |}.

Definition with_isRunning (r : bool) (w : World) : World :=
  {| circuitBreaker := circuitBreaker w; retryManager := retryManager w;
     processingEngine := processingEngine w; healthMonitor := healthMonitor w;
     queueUrl := queueUrl w; isRunning := r; clock := clock w;
     sends := sends w; log := log w |}.

(** [ms] milliseconds pass. *)
Definition elapse (ms : Z) (w : World) : World :=
  {| circuitBreaker := circuitBreaker w; retryManager := retryManager w;
     processingEngine := processingEngine w; healthMonitor := healthMonitor w;
     queueUrl := queueUrl w; isRunning := isRunning w;
     clock := clock w + Z.max 0 ms;
     sends := sends w; log := log w |}.

Definition count_send (w : World) : World :=
  {| circuitBreaker := circuitBreaker w; retryManager := retryManager w;
     processingEngine := processingEngine w; healthMonitor := healthMonitor w;
     queueUrl := queueUrl w; isRunning := isRunning w; clock := clock w;
     sends := S (sends w); log := log w |}.

Definition emit (ev : event) (w : World) : World :=
  {| circuitBreaker := circuitBreaker w; retryManager := retryManager w;
     processingEngine := processingEngine w; healthMonitor := healthMonitor w;
     queueUrl := queueUrl w; isRunning := isRunning w; clock := clock w;
     sends := sends w; log := log w ++ [ev] |}.

(** [new Promise(resolve => setTimeout(resolve, ms))], awaited. *)
Definition sleep (ms : Z) (w : World) : World := elapse ms (emit (Slept ms) w).

(** The receipt handles of the delete commands sent, in order. *)
Fixpoint deleted (l : list event) : list string :=
  match l with
  | [] => []
  | Sent (SQS.DeleteMessageCommand _ rh) :: l' => rh :: deleted l'
  | _ :: l' => deleted l'
  end.

(** The timers set, in order. *)
Fixpoint slept (l : list event) : list Z :=
  match l with
  | [] => []
  | Slept ms :: l' => ms :: slept l'
  | _ :: l' => slept l'
  end.

End Runtime.

(** ** src/core/SQSClient.js *)

Module SQSClient.
Import JS SQS Runtime.
Local Open Scope Z_scope.

Section Client.
(** The service: the reply to the [n]-th send (counted from 0). *)
Variable aws : nat -> command -> reply.

(** [await this.awsClient.send(command)] *)
Definition send (c : command) (w : World) : completion response * World :=
  let r := aws (sends w) c in
  (outcome r, elapse (latency r) (count_send (emit (Sent c) w))).

Definition recordSuccess (w : World) : World :=
  emit RecordedSuccess
    (with_circuitBreaker (CircuitBreaker.recordSuccess (circuitBreaker w)) w).

Definition recordFailure (w : World) : World :=
  emit RecordedFailure
    (with_circuitBreaker
       (CircuitBreaker.recordFailure (clock w) (circuitBreaker w)) w).

Definition executeFn (c : command) (w : World) : completion response * World :=
  match send c w with
  | (Return result, w1) => (Return result, recordSuccess w1)
  | (Throw error, w1) => (Throw error, recordFailure w1)
  end.

(** The [shouldRetry] of [executeCommand], on the [name] of an error. On a
    thrown [undefined] the code throws a [TypeError] reading [error.name],
    where this definition answers [false]. *)
Definition shouldRetry (error : thrown) : bool :=
  let name := error_name error in
  String.eqb name "ThrottlingException" ||
  String.eqb name "ServiceUnavailableException" ||
  String.eqb name "InternalServerError" ||
  String.eqb name "NetworkingError" ||
  String.eqb name "TimeoutError".

Definition retryOptions : RetryManager.options World :=
  {| RetryManager.shouldRetry := Some shouldRetry;
     RetryManager.onRetry :=
       Some (fun error attempt delay =>
               emit (ConsoleWarn attempt (error_message error) delay));
     RetryManager.onFailure :=
       Some (fun error totalAttempts =>
               emit (ConsoleError
                       ("SQS command failed after " +:+
                        JSON.Number_toString totalAttempts +:+ " attempts:")
                       (error_message error))) |}.

Definition circuitOpen : thrown :=
  Err "Error" "Circuit breaker is open - operation not allowed".

Definition executeCommand (c : command) (w : World)
    : completion response * World :=
  let '(allowed, b) := CircuitBreaker.canExecute (clock w) (circuitBreaker w) in
  let w0 := with_circuitBreaker b w in
  if allowed
  then RetryManager.executeWithRetry sleep (retryManager w0) (executeFn c)
         retryOptions w0
  else (Throw circuitOpen, w0).
End Client.

End SQSClient.

(** ** src/consumers/ProcessingEngine.js *)

Module ProcessingEngine.
Import JS SQS Runtime.
Local Open Scope Z_scope.

Definition SEQUENTIAL : string := "sequential".
Definition PARALLEL : string := "parallel".

Record config : Type := {
  cfg_mode : option string;
  cfg_batchSize : option positive;
  cfg_throttleDelayMs : option Z;
  cfg_maxConcurrency : option positive
}.

Definition new (c : config) : engine :=
  {| mode := match cfg_mode c with
             | Some m => if String.eqb m EmptyString then SEQUENTIAL else m
             | None => SEQUENTIAL
             end;
     batchSize := default 5%positive (cfg_batchSize c);
     throttleDelayMs := or_default (cfg_throttleDelayMs c) 0;
     maxConcurrency := default 10%positive (cfg_maxConcurrency c);
     processingStats :=
       {| totalProcessed := 0; totalFailed := 0;
          averageProcessingTime := 0; lastProcessingTime := None |} |}.

(** The message context handed to the handler. *)
Record context : Type := {
  messageId : string;
  receiptHandle : string;
  messageAttributes : list (string * string);
  messageGroupId : option string;
  messageDeduplicationId : option string
}.

(** A message handler: called with the parsed body and the context, it acts
    on the world and returns or throws. *)
Definition handler : Type :=
  JSON.value -> context -> World -> completion unit * World.

(** What [_processSingleMessage] resolves to. *)
Record outcome : Type := {
  success : bool;
  outcome_messageId : string;
  outcome_error : option string;
  outcome_processingTime : Z
}.

(** An entry of [results.errors]. *)
Record failure : Type := {
  failure_messageId : string;
  failure_error : option string;
  failure_timestamp : Z
}.

Record BatchResult : Type := {
  total : Z;
  successful : Z;
  failed : Z;
  errors : list failure;
  processingTime : Z
}.

(** [results.successful++] *)
Definition succeed (r : BatchResult) : BatchResult :=
  {| total := total r; successful := successful r + 1; failed := failed r;
     errors := errors r; processingTime := processingTime r |}.

(** [results.failed++; results.errors.push({messageId, error, timestamp})] *)
Definition fail (id : string) (error : option string) (now : Z)
    (r : BatchResult) : BatchResult :=
  {| total := total r; successful := successful r; failed := failed r + 1;
     errors := errors r ++
               [{| failure_messageId := id; failure_error := error;
                   failure_timestamp := now |}];
     processingTime := processingTime r |}.

(** The messages a result accounts for. *)
Definition handled (r : BatchResult) : Z := successful r + failed r.

(** The options [processMessages] reads. *)
Record options : Type := {
  opt_batchSize : option positive;
  opt_maxConcurrency : option positive
}.

(** One settled promise of [Promise.allSettled]. *)
Inductive settled : Type :=
| Fulfilled (value : outcome)
| Rejected (reason : thrown).

Section Engine.
(** [JSON.parse]: the parsed body, or the [SyntaxError] it throws. *)
Variable JSON_parse : string -> completion JSON.value.

(** The [try] of [_processSingleMessage] and its [catch], which turns
    every thrown error into a result with [success: false]: the promise then
    fulfils. On a thrown [undefined] the [catch] of the code throws in turn,
    reading [error.message], where this definition gives a result with an
    empty message. *)
Definition _processSingleMessage (message : Message) (messageHandler : handler)
    (w : World) : completion outcome * World :=
  let startTime := clock w in
  let attempt : completion unit * World :=
    match JSON_parse (Body message) with
    | Throw error => (Throw error, w)
    | Return messageBody =>
        let context :=
          {| messageId := MessageId message;
             receiptHandle := ReceiptHandle message;
             messageAttributes := MessageAttributes message;
             messageGroupId := MessageGroupId message;
             messageDeduplicationId := MessageDeduplicationId message |} in
        messageHandler messageBody context (emit (Handled (MessageId message)) w)
    end in
  match attempt with
  | (Return _, w1) =>
      (Return {| success := true;
                 outcome_messageId := MessageId message;
                 outcome_error := None;
                 outcome_processingTime := clock w1 - startTime |}, w1)
  | (Throw error, w1) =>
      (Return {| success := false;
                 outcome_messageId := MessageId message;
                 outcome_error := Some (error_message error);
                 outcome_processingTime := clock w1 - startTime |}, w1)
  end.

(** The [for ... of] of [_processSequential]; its [try] takes the branch
    [Return] when the awaited promise fulfils and [Throw] when it rejects. *)
Fixpoint _processSequential (messages : list Message) (messageHandler : handler)
    (results : BatchResult) (w : World) : BatchResult * World :=
  match messages with
  | [] => (results, w)
  | message :: rest =>
      match _processSingleMessage message messageHandler w with
      | (Return _, w1) =>
          let w2 := if 0 <? throttleDelayMs (processingEngine w1)
                    then sleep (throttleDelayMs (processingEngine w1)) w1
                    else w1 in
          _processSequential rest messageHandler (succeed results) w2
      | (Throw error, w1) =>
          _processSequential rest messageHandler
            (fail (MessageId message) (Some (error_message error)) (clock w1)
                  results) w1
      end
  end.

(** [_chunkArray(array, size)]: the slices [array.slice(i, i + size)] for
    [i = 0, size, 2 size, ...]; each step removes [size >= 1] elements, so
    [length array] steps suffice. *)
Fixpoint chunks {A : Type} (steps : nat) (array : list A) (size : positive)
    : list (list A) :=
  match steps, array with
  | O, _ | _, [] => []
  | S k, _ =>
      take (Pos.to_nat size) array :: chunks k (drop (Pos.to_nat size) array) size
  end.

Definition _chunkArray {A : Type} (array : list A) (size : positive)
    : list (list A) :=
  chunks (List.length array) array size.

(** [batchChunk.map(message => this._processSingleMessage(...).catch(...))]
    awaited by [Promise.allSettled]: the calls are started in index order
    and each is run to its end before the next one. In the code the handlers
    of a chunk are in flight together, so the times recorded here are those
    of a run one after the other. *)
Fixpoint settleAll (batchChunk : list Message) (messageHandler : handler)
    (w : World) : list settled * World :=
  match batchChunk with
  | [] => ([], w)
  | message :: rest =>
      let '(r, w1) := _processSingleMessage message messageHandler w in
      let first :=
        match r with
        | Return value => Fulfilled value
        | Throw error =>                        (* the [.catch] handler *)
            Fulfilled {| success := false;
                         outcome_messageId := MessageId message;
                         outcome_error := Some (error_message error);
                         outcome_processingTime := 0 |}
        end in
      let '(others, w2) := settleAll rest messageHandler w1 in
      (first :: others, w2)
  end.

(** [batchResults.forEach((result, index) => ...)] *)
Fixpoint tally (batchChunk : list Message) (batchResults : list settled)
    (now : Z) (results : BatchResult) : BatchResult :=
  match batchChunk, batchResults with
  | message :: chunk', result :: results' =>
      tally chunk' results' now
        match result with
        | Fulfilled processedResult =>
            if success processedResult then succeed results
            else fail (outcome_messageId processedResult)
                      (outcome_error processedResult) now results
        | Rejected reason =>
            fail (MessageId message)
                 (Some (match reason with
                        | Err _ m =>
                            if String.eqb m EmptyString then "Unknown error" else m
                        | Undefined => "Unknown error"
                        end)) now results
        end
  | _, _ => results
  end.

(** The [for (const batchChunk of batches)] of [_processParallel]. *)
Fixpoint processChunks (batches : list (list Message)) (messageHandler : handler)
    (results : BatchResult) (w : World) : BatchResult * World :=
  match batches with
  | [] => (results, w)
  | batchChunk :: rest =>
      let '(batchResults, w1) := settleAll batchChunk messageHandler w in
      processChunks rest messageHandler
        (tally batchChunk batchResults (clock w1) results) w1
  end.

(** The [for (i = 0; i < messages.length; i += batchSize)] of
    [_processParallel], on the messages from index [i] on. *)
Fixpoint processBatches (steps : nat) (remaining : list Message)
    (batchSize maxConcurrency : positive) (messageHandler : handler)
    (results : BatchResult) (w : World) : BatchResult * World :=
  match steps, remaining with
  | O, _ | _, [] => (results, w)
  | S k, _ =>
      let batch := take (Pos.to_nat batchSize) remaining in
      let later := drop (Pos.to_nat batchSize) remaining in
      let concurrencyLimit :=
        Pos.min (Pos.of_nat (List.length batch)) maxConcurrency in
      let batches := _chunkArray batch concurrencyLimit in
      let '(results1, w1) := processChunks batches messageHandler results w in
      let w2 :=
        if (0 <? throttleDelayMs (processingEngine w1)) &&
           negb (Nat.eqb (List.length later) 0)
        then sleep (throttleDelayMs (processingEngine w1)) w1
        else w1 in
      processBatches k later batchSize maxConcurrency messageHandler results1 w2
  end.

Definition _processParallel (messages : list Message) (messageHandler : handler)
    (results : BatchResult) (o : options) (w : World) : BatchResult * World :=
  let batchSize := default (batchSize (processingEngine w)) (opt_batchSize o) in
  let maxConcurrency :=
    default (maxConcurrency (processingEngine w)) (opt_maxConcurrency o) in
  processBatches (List.length messages) messages batchSize maxConcurrency
    messageHandler results w.

Definition _updateStats (results : BatchResult) (e : engine) : engine :=
  let s := processingStats e in
  let processed := totalProcessed s + successful results in
  let failedTotal := totalFailed s + failed results in
  let totalMessages := processed + failedTotal in
  {| mode := mode e; batchSize := batchSize e;
     throttleDelayMs := throttleDelayMs e; maxConcurrency := maxConcurrency e;
     processingStats :=
       {| totalProcessed := processed;
          totalFailed := failedTotal;
          averageProcessingTime :=
            if 0 <? totalMessages
            then ((averageProcessingTime s * inject_Z (totalMessages - 1)
                   + inject_Z (processingTime results))
                  / inject_Z totalMessages)%Q
            else averageProcessingTime s;
          lastProcessingTime := Some (processingTime results) |} |}.

(** [processMessages]: neither helper can throw, so the outer [catch] is
    never entered and the results are always returned from the [try]. *)
Definition processMessages (messages : list Message) (messageHandler : handler)
    (o : options) (w : World) : BatchResult * World :=
  let startTime := clock w in
  let results :=
    {| total := Z.of_nat (List.length messages); successful := 0; failed := 0;
       errors := []; processingTime := 0 |} in
  let '(results1, w1) :=
    if String.eqb (mode (processingEngine w)) PARALLEL
    then _processParallel messages messageHandler results o w
    else _processSequential messages messageHandler results w in
  let results2 :=
    {| total := total results1; successful := successful results1;
       failed := failed results1; errors := errors results1;
       processingTime := clock w1 - startTime |} in
  (results2,
   with_processingEngine (_updateStats results2 (processingEngine w1)) w1).
End Engine.

(** Whether processing [message] in world [w] ends in success. *)
Definition succeeds (JSON_parse : string -> completion JSON.value)
    (message : Message) (messageHandler : handler) (w : World) : bool :=
  match (_processSingleMessage JSON_parse message messageHandler w).1 with
  | Return value => success value
  | Throw _ => false
  end.

(** The messages of a batch a verdict accepts, and those it rejects. *)
Definition accepted (verdict : Message -> bool) (l : list Message) : list Message :=
  List.filter verdict l.

Definition rejected (verdict : Message -> bool) (l : list Message) : list Message :=
  List.filter (fun m => negb (verdict m)) l.

(** Results [r] extend results [r0] by the messages [l], classified by
    [verdict]: one more success per accepted message, one more failure and
    one more error entry, in order, per rejected one. *)
Definition classified (verdict : Message -> bool) (r0 : BatchResult)
    (l : list Message) (r : BatchResult) : Prop :=
  successful r = successful r0 + Z.of_nat (List.length (accepted verdict l)) /\
  failed r = failed r0 + Z.of_nat (List.length (rejected verdict l)) /\
  List.map failure_messageId (errors r)
  = List.map failure_messageId (errors r0)
    ++ List.map MessageId (rejected verdict l).

End ProcessingEngine.

(** ** src/consumers/MessageConsumer.js *)

Module MessageConsumer.
Import JS SQS Runtime.
Local Open Scope Z_scope.

(** [this.options], after the defaults of the constructor. *)
Record options : Type := {
  processingMode : string;
  batchSize : positive;
  throttleDelayMs : Z;
  maxMessages : Z;
  waitTimeSeconds : Z;
  visibilityTimeoutSeconds : Z;
  autoStart : bool;
  pollingInterval : Z
}.

(** The part of the consumer options the processing engine reads: the
    consumer options have a [batchSize] and no [maxConcurrency]. *)
Definition engineOptions (o : options) : ProcessingEngine.options :=
  {| ProcessingEngine.opt_batchSize := Some (batchSize o);
     ProcessingEngine.opt_maxConcurrency := None |}.

Section Consumer.
Variable aws : nat -> command -> reply.
Variable JSON_parse : string -> completion JSON.value.

Definition _receiveMessages (o : options) (w : World)
    : completion (list Message) * World :=
  let command :=
    ReceiveMessageCommand (queueUrl w) (maxMessages o) (waitTimeSeconds o)
      (visibilityTimeoutSeconds o) in
  match SQSClient.executeCommand aws command w with
  | (Return result, w1) => (Return (default [] (Messages result)), w1)
  | (Throw error, w1) => (Throw error, w1)
  end.

(** Its [catch] logs the error: the promise always fulfils. *)
Definition _deleteMessage (receiptHandle : string) (w : World) : World :=
  let command := DeleteMessageCommand (queueUrl w) receiptHandle in
  match SQSClient.executeCommand aws command w with
  | (Return _, w1) => w1
  | (Throw error, w1) =>
      emit (ConsoleError "Failed to delete message:" (error_message error)) w1
  end.

(** The deletions started by [.map] and awaited by [Promise.allSettled],
    each run to its end in the order started. In the code they are in flight
    together: each passes the breaker before any of them has failed. *)
Fixpoint deleteAll (receiptHandles : list string) (w : World) : World :=
  match receiptHandles with
  | [] => w
  | receiptHandle :: rest => deleteAll rest (_deleteMessage receiptHandle w)
  end.

Definition _deleteProcessedMessages (messages : list Message)
    (results : ProcessingEngine.BatchResult) (w : World) : World :=
  let kept :=
    List.filter
      (fun message : Message =>
         let messageResult := 0 <? ProcessingEngine.successful results in
         messageResult)
      messages in
  deleteAll (List.map ReceiptHandle kept) w.

(** [results.errors.forEach(error => this.healthMonitor.recordFailure(error.error))] *)
Fixpoint recordFailures (errors : list ProcessingEngine.failure) (now : Z)
    (h : HealthMonitor.t) : HealthMonitor.t :=
  match errors with
  | [] => h
  | error :: rest =>
      recordFailures rest now
        (HealthMonitor.recordFailure (ProcessingEngine.failure_error error) now h)
  end.

Definition _updateHealthMonitor (results : ProcessingEngine.BatchResult)
    (now : Z) (h : HealthMonitor.t) : HealthMonitor.t :=
  let h1 := if 0 <? ProcessingEngine.successful results
            then HealthMonitor.recordSuccess
                   (ProcessingEngine.processingTime results) now h
            else h in
  if 0 <? ProcessingEngine.failed results
  then recordFailures (ProcessingEngine.errors results) now h1
  else h1.

(** The [try] block of one iteration of [_consumeLoop]. *)
Definition tryBlock (o : options) (messageHandler : ProcessingEngine.handler)
    (w : World) : completion unit * World :=
  match _receiveMessages o w with
  | (Throw error, w1) => (Throw error, w1)
  | (Return messages, w1) =>
      if Nat.eqb (List.length messages) 0
      then (Return tt, sleep (pollingInterval o) w1)      (* [continue] *)
      else
        let '(results, w2) :=
          ProcessingEngine.processMessages JSON_parse messages messageHandler
            (engineOptions o) w1 in
        let w3 := _deleteProcessedMessages messages results w2 in
        let w4 :=
          match healthMonitor w3 with
          | Some h =>
              with_healthMonitor
                (Some (_updateHealthMonitor results (clock w3) h)) w3
          | None => w3
          end in
        let w5 := if 0 <? throttleDelayMs o
                  then sleep (throttleDelayMs o) w4
                  else w4 in
        (Return tt, w5)
  end.

(** The [catch] block of one iteration, for a thrown error; it logs
    [error.message]. *)
Definition catchBlock (o : options) (error : thrown) (w : World) : World :=
  sleep (pollingInterval o * 2)
    (emit (ConsoleError "Error in consumption loop:" (error_message error)) w).

(** The body of the [while]. *)
Definition iteration (o : options) (messageHandler : ProcessingEngine.handler)
    (w : World) : World :=
  match tryBlock o messageHandler w with
  | (Return _, w1) => w1
  | (Throw error, w1) => catchBlock o error w1
  end.

(** [while (this.isRunning) { ... }], observed for at most [iterations]
    turns: the world when the loop is left, or after that many turns. *)
Fixpoint _consumeLoop (iterations : nat) (o : options)
    (messageHandler : ProcessingEngine.handler) (w : World) : World :=
  match iterations with
  | O => w
  | S k =>
      if isRunning w
      then _consumeLoop k o messageHandler (iteration o messageHandler w)
      else w
  end.

(** [true] when the loop of [_consumeLoop] is left within [iterations]
    turns. *)
Fixpoint exits (iterations : nat) (o : options)
    (messageHandler : ProcessingEngine.handler) (w : World) : bool :=
  if isRunning w then
    match iterations with
    | O => false
    | S k => exits k o messageHandler (iteration o messageHandler w)
    end
  else true.

(** [start(messageHandler, options)]; [None] is a handler that is missing
    or not a function. *)
Definition start (iterations : nat) (messageHandler : option ProcessingEngine.handler)
    (o : options) (w : World) : completion unit * World :=
  match messageHandler with
  | None =>
      (Throw (Err "Error" "Message handler is required and must be a function"), w)
  | Some h =>
      let w1 := emit (ConsoleLog "Starting message consumer")
                  (with_isRunning true w) in
      (Return tt, _consumeLoop iterations o h w1)
  end.

Definition stop (w : World) : World :=
  emit (ConsoleLog "Message consumer stopped") (with_isRunning false w).
End Consumer.

End MessageConsumer.

(** ** src/utils/DeduplicationManager.js *)

Module DeduplicationManager.
Import JS.
Local Open Scope Z_scope.

Record t : Type := Manager {
  strategy : string;
  hashAlgorithm : string;
  hashLength : nat;
  deduplicationCache : gmap string Z;   (* id ↦ time of insertion *)
  cacheExpiry : Z
}.

Record config : Type := {
  cfg_strategy : option string;
  cfg_hashAlgorithm : option string;
  cfg_hashLength : option nat
}.

(** [s || d] for an optional string: [undefined] and the empty string are
    falsy. *)
Definition or_string (s : option string) (d : string) : string :=
  match s with
  | Some v => if String.eqb v EmptyString then d else v
  | None => d
  end.

Definition new (c : config) : t :=
  {| strategy := or_string (cfg_strategy c) "content";
     hashAlgorithm := or_string (cfg_hashAlgorithm c) "sha256";
     hashLength := match cfg_hashLength c with
                   | Some (S n) => S n
                   | _ => 32%nat
                   end;
     deduplicationCache := ∅;
     cacheExpiry := 300000 |}.

(** The message options [generateDeduplicationId] reads. *)
Record options : Type := {
  messageGroupId : option string;
  customId : option string
}.

Section Hashing.
(** [crypto.createHash(algorithm).update(str).digest('hex')], for an
    algorithm that [crypto] supports; for any other name [createHash]
    throws. *)
Variable digest : string -> string -> string.

Definition _hashString (dm : t) (str : string) : string :=
  String.substring 0 (hashLength dm) (digest (hashAlgorithm dm) str).

(** The string [_hashObject] hands to [_hashString]; [Object.keys] throws
    on [null] and [undefined]. *)
Definition hashInput (obj : JSON.value) : completion string :=
  match JSON.Object_keys obj with
  | None => Throw (Err "TypeError" "Cannot convert undefined or null to object")
  | Some keys =>
      match JSON.stringify obj (Some (JSON.sort keys)) with
      | Some str => Return str
      | None => Throw (Err "TypeError" "The data argument must be of type string")
      end
  end.

Definition _hashObject (dm : t) (obj : JSON.value) : completion string :=
  match hashInput obj with
  | Return str => Return (_hashString dm str)
  | Throw e => Throw e
  end.

(** [contentForHash] of [_generateContentBasedId] at time [now]. *)
Definition contentForHash (messageBody : JSON.value) (o : options) (now : Z)
    : JSON.value :=
  JSON.JObject
    [("body", messageBody);
     ("groupId", match messageGroupId o with
                 | Some g => JSON.JString g
                 | None => JSON.JUndefined
                 end);
     ("timestamp", JSON.JNumber now)].

Definition _generateContentBasedId (dm : t) (messageBody : JSON.value)
    (o : options) (now : Z) : completion string :=
  _hashObject dm (contentForHash messageBody o now).

Definition _generateTimestampBasedId (dm : t) (now : Z) : string :=
  _hashString dm (JSON.Number_toString now).

Definition _generateHybridId (dm : t) (messageBody : JSON.value)
    (o : options) (now : Z) : completion string :=
  match _hashObject dm messageBody with
  | Throw e => Throw e
  | Return contentHash =>
      let groupId := or_string (messageGroupId o) "default" in
      Return (_hashString dm
                (contentHash +:+ "-" +:+ JSON.Number_toString now +:+ "-"
                 +:+ groupId))
  end.

Definition generateDeduplicationId (dm : t) (messageBody : JSON.value)
    (o : options) (now : Z) : completion string :=
  match customId o with
  | Some (String c s) => Return (_hashString dm (String c s))
  | _ =>
      if String.eqb (strategy dm) "content"
      then _generateContentBasedId dm messageBody o now
      else if String.eqb (strategy dm) "timestamp"
      then Return (_generateTimestampBasedId dm now)
      else if String.eqb (strategy dm) "hybrid"
      then _generateHybridId dm messageBody o now
      else _generateContentBasedId dm messageBody o now
  end.
End Hashing.

(** [now - timestamp > this.cacheExpiry] *)
Definition expired (dm : t) (now : Z) (entry : string * Z) : Prop :=
  cacheExpiry dm < now - entry.2.

#[local] Instance expired_dec dm now entry : Decision (expired dm now entry).
Proof. unfold expired. apply _. Defined.

Definition with_cache (c : gmap string Z) (dm : t) : t :=
  {| strategy := strategy dm; hashAlgorithm := hashAlgorithm dm;
     hashLength := hashLength dm; deduplicationCache := c;
     cacheExpiry := cacheExpiry dm |}.

(** The sweep at the head of [isDuplicate]: every expired entry is deleted. *)
Definition sweep (dm : t) (now : Z) : gmap string Z :=
  filter (fun entry => ¬ expired dm now entry) (deduplicationCache dm).

(** [isDuplicate(deduplicationId)] at time [now]. *)
Definition isDuplicate (deduplicationId : string) (now : Z) (dm : t) : bool * t :=
  let cache := sweep dm now in
  match cache !! deduplicationId with
  | Some _ => (true, with_cache cache dm)
  | None => (false, with_cache (<[deduplicationId := now]> cache) dm)
  end.

Definition clearCache (dm : t) : t := with_cache ∅ dm.

(** Later calls [isDuplicate(id)] at time [now], results dropped. *)
Fixpoint calls (cs : list (string * Z)) (dm : t) : t :=
  match cs with
  | [] => dm
  | (id, now) :: cs' => calls cs' (isDuplicate id now dm).2
  end.

Record cacheStats : Type := {
  totalEntries : nat;
  validEntries : nat;
  expiredEntries : nat;
  stats_cacheExpiry : Z
}.

(** [getCacheStats()] at time [now]: the loop counts the entries on either
    side of the expiry test. *)
Definition getCacheStats (now : Z) (dm : t) : cacheStats :=
  {| totalEntries := size (deduplicationCache dm);
     validEntries :=
       size (filter (fun entry => ¬ expired dm now entry) (deduplicationCache dm));
     expiredEntries :=
       size (filter (fun entry => expired dm now entry) (deduplicationCache dm));
     stats_cacheExpiry := cacheExpiry dm |}.

(** [options.customId] is falsy: missing or the empty string. *)
Definition noCustomId (o : options) : Prop :=
  customId o = None \/ customId o = Some EmptyString.

(** A stand-in for the digest in the examples: the hex digest of a string
    is taken to be the string itself. *)
Definition plainDigest (algorithm str : string) : string := str.

(** The manager and the messages of the examples. *)
Definition fresh : t :=
  new {| cfg_strategy := None; cfg_hashAlgorithm := None; cfg_hashLength := None |}.

Definition orderOne : JSON.value := JSON.JObject [("orderId", JSON.JNumber 1)].
Definition orderTwo : JSON.value := JSON.JObject [("orderId", JSON.JNumber 2)].
Definition inGroup : options := {| messageGroupId := Some "g"; customId := None |}.

(** The names that survive the replacer of [_hashObject] in
    [_generateContentBasedId]. *)
Definition contentKeys : list string := ["body"; "groupId"; "timestamp"].

End DeduplicationManager.

(** ** The consumer of the examples *)

Module Scenario.
Import JS SQS Runtime.
Local Open Scope Z_scope.

Definition messageA : Message :=
  {| MessageId := "A"; ReceiptHandle := "rh-A"; Body := "1";
     MessageAttributes := []; MessageGroupId := None;
     MessageDeduplicationId := None |}.

Definition messageB : Message :=
  {| MessageId := "B"; ReceiptHandle := "rh-B"; Body := "2";
     MessageAttributes := []; MessageGroupId := None;
     MessageDeduplicationId := None |}.

(** [JSON.parse] on the bodies above. *)
Definition parse (body : string) : completion JSON.value :=
  if String.eqb body "1" then Return (JSON.JNumber 1)
  else if String.eqb body "2" then Return (JSON.JNumber 2)
  else Throw (Err "SyntaxError" "Unexpected token").

(** A handler that succeeds for message A and throws for message B. *)
Definition failsOnB : ProcessingEngine.handler :=
  fun _ context w =>
    if String.eqb (ProcessingEngine.messageId context) "B"
    then (Throw (Err "Error" "cannot process B"), w)
    else (Return tt, w).

(** A handler that throws for every message. *)
Definition alwaysThrows : ProcessingEngine.handler :=
  fun _ _ w => (Throw (Err "Error" "cannot process"), w).

(** A service that answers every receive with the batch [A, B] and accepts
    every delete. *)
Definition service (n : nat) (c : command) : reply :=
  match c with
  | ReceiveMessageCommand _ _ _ _ =>
      {| latency := 5; outcome := Return {| Messages := Some [messageA; messageB] |} |}
  | DeleteMessageCommand _ _ =>
      {| latency := 1; outcome := Return {| Messages := None |} |}
  end.

(** A service that cannot be reached. *)
Definition down (n : nat) (c : command) : reply :=
  {| latency := 1; outcome := Throw (Err "NetworkingError" "unreachable") |}.

Definition options (mode : string) : MessageConsumer.options :=
  {| MessageConsumer.processingMode := mode;
     MessageConsumer.batchSize := 5;
     MessageConsumer.throttleDelayMs := 0;
     MessageConsumer.maxMessages := 10;
     MessageConsumer.waitTimeSeconds := 20;
     MessageConsumer.visibilityTimeoutSeconds := 30;
     MessageConsumer.autoStart := true;
     MessageConsumer.pollingInterval := 1000 |}.

(** A running consumer with the options above, default circuit breaker and
    retry settings, and its processing engine in mode [mode]. *)
Definition world (mode : string) : World :=
  {| circuitBreaker :=
       CircuitBreaker.new
         {| CircuitBreaker.cfg_failureThreshold := None;
            CircuitBreaker.cfg_timeout := None;
            CircuitBreaker.cfg_monitoringPeriod := None |} 0;
     retryManager :=
       RetryManager.new
         {| RetryManager.cfg_maxRetries := None;
            RetryManager.cfg_backoffMultiplier := None;
            RetryManager.cfg_maxBackoffMs := None;
            RetryManager.cfg_initialDelayMs := None |};
     processingEngine :=
       ProcessingEngine.new
         {| ProcessingEngine.cfg_mode := Some mode;
            ProcessingEngine.cfg_batchSize := None;
            ProcessingEngine.cfg_throttleDelayMs := None;
            ProcessingEngine.cfg_maxConcurrency := None |};
     healthMonitor := None;
     queueUrl := "https://sqs.example/queue";
     isRunning := true;
     clock := 0;
     sends := 0;
     log := [] |}.

(** The same consumer after five failures reported at time 0: the breaker
    is open. *)
Definition tripped : World :=
  let w := world ProcessingEngine.SEQUENTIAL in
  with_circuitBreaker
    (CircuitBreaker.run
       (CircuitBreaker.Failure 0 :: CircuitBreaker.Failure 0 ::
        CircuitBreaker.Failure 0 :: CircuitBreaker.Failure 0 ::
        CircuitBreaker.Failure 0 :: nil)
       (circuitBreaker w)) w.

Definition receive : command :=
  ReceiveMessageCommand "https://sqs.example/queue" 10 20 30.

(** A service that rejects every command for good. *)
Definition rejecting (n : nat) (c : command) : reply :=
  {| latency := 1;
     outcome := Throw (Err "InvalidParameterException" "bad parameter") |}.

(** A service that answers every receive with no message. *)
Definition idle (n : nat) (c : command) : reply :=
  {| latency := 20000; outcome := Return {| Messages := None |} |}.

End Scenario.

(** ** src/publishers/MessagePublisher.js *)

Module MessagePublisher.
Import JS.
Local Open Scope Z_scope.

(** The options of one [publish] call. The group id is a string or missing,
    so the type test of [_validateOptions] on it cannot fail and is left
    out; [customId] is read by the deduplication manager. *)
Record options : Type := {
  messageGroupId : option string;
  messageDeduplicationId : option string;
  customId : option string;
  delaySeconds : option Z;
  messageAttributes : list (string * JSON.value)
}.

Record attribute : Type := {
  DataType : string;
  StringValue : string
}.

(** The parameters of a [SendMessageCommand]. *)
Record command : Type := {
  QueueUrl : string;
  MessageBody : option string;      (* [JSON.stringify(messageBody)] *)
  MessageAttributes : list (string * attribute);
  MessageGroupId : option string;
  MessageDeduplicationId : option string;
  DelaySeconds : option Z
}.

(** What the service answers to a send. *)
Record sendResult : Type := {
  MessageId : option string;
  MD5OfBody : option string
}.

(** What [publish] resolves to. *)
Inductive publishResult : Type :=
| Published (messageId md5OfBody : option string)
    (messageDeduplicationId : string) (messageGroupId : option string)
    (processingTime : Z)
| NotPublished (error : string) (processingTime : Z).

(** The fields of a publisher. *)
Record t : Type := {
  queueUrl : string;
  defaultGroupId : option string;          (* [this.messageGroupId] *)
  enableDeduplication : bool;
  deduplicationManager : DeduplicationManager.t
}.

Definition with_manager (dm : DeduplicationManager.t) (p : t) : t :=
  {| queueUrl := queueUrl p; defaultGroupId := defaultGroupId p;
     enableDeduplication := enableDeduplication p;
     deduplicationManager := dm |}.

(** [s.endsWith(suffix)] *)
Definition endsWith (suffix s : string) : bool :=
  (String.length suffix <=? String.length s)%nat &&
  String.eqb
    (String.substring (String.length s - String.length suffix)
       (String.length suffix) s)
    suffix.

Definition _isFIFOQueue (p : t) : bool := endsWith ".fifo" (queueUrl p).

(** A string option is truthy when present and not empty. *)
Definition truthy (s : option string) : option string :=
  match s with
  | Some (String c s') => Some (String c s')
  | _ => None
  end.

Definition bodyError : thrown :=
  Err "Error" "Message body is required and must be an object".
Definition delayError : thrown :=
  Err "Error" "Delay seconds must be a non-negative number".
Definition duplicateError : thrown := Err "Error" "Duplicate message detected".

(** [_validateMessageBody]: [None] when the body passes. *)
Definition _validateMessageBody (messageBody : JSON.value) : option thrown :=
  match messageBody with
  | JSON.JObject _ | JSON.JArray _ => None
  | _ => Some bodyError
  end.

(** [_validateOptions], for the delay. *)
Definition _validateOptions (o : options) : option thrown :=
  match delaySeconds o with
  | Some d => if negb (d =? 0) && (d <? 0) then Some delayError else None
  | None => None
  end.

(** [_buildMessageAttributes]: strings, numbers and booleans are kept. *)
Fixpoint _buildMessageAttributes (attributes : list (string * JSON.value))
    : list (string * attribute) :=
  match attributes with
  | [] => []
  | (key, value) :: rest =>
      match value with
      | JSON.JString str =>
          (key, {| DataType := "String"; StringValue := str |})
            :: _buildMessageAttributes rest
      | JSON.JNumber n =>
          (key, {| DataType := "Number"; StringValue := JSON.Number_toString n |})
            :: _buildMessageAttributes rest
      | JSON.JBool b =>
          (key, {| DataType := "String";
                   StringValue := if b then "true" else "false" |})
            :: _buildMessageAttributes rest
      | _ => _buildMessageAttributes rest
      end
  end.

(** The test of the [catch] block of [publish] for validation errors. *)
Definition isValidationError (error : thrown) : bool :=
  HealthMonitor.includes "Message body is required" (error_message error) ||
  HealthMonitor.includes "Message group ID must be" (error_message error) ||
  HealthMonitor.includes "Delay seconds must be" (error_message error).

Section Publisher.
(** [W]: the world of the injected client. *)
Context {W : Type}.
(** [Date.now()], [uuidv4()] and [this.sqsClient.executeCommand(command)]. *)
Variable now : W -> Z.
Variable uuidv4 : W -> string * W.
Variable executeCommand : command -> W -> completion sendResult * W.
(** The digest behind the deduplication manager. *)
Variable digest : string -> string -> string.

Definition managerOptions (o : options) : DeduplicationManager.options :=
  {| DeduplicationManager.messageGroupId := messageGroupId o;
     DeduplicationManager.customId := customId o |}.

Definition _generateDeduplicationId (p : t) (messageBody : JSON.value)
    (o : options) (w : W) : completion string * W :=
  match truthy (messageDeduplicationId o) with
  | Some id => (Return id, w)
  | None =>
      if _isFIFOQueue p
      then (DeduplicationManager.generateDeduplicationId digest
              (deduplicationManager p) messageBody (managerOptions o) (now w), w)
      else let '(id, w1) := uuidv4 w in (Return id, w1)
  end.

(** The command [publish] builds. *)
Definition buildCommand (p : t) (messageBody : JSON.value) (o : options)
    (messageDeduplicationId : string) : command :=
  let fifo := _isFIFOQueue p in
  {| QueueUrl := queueUrl p;
     MessageBody := JSON.stringify messageBody None;
     MessageAttributes := _buildMessageAttributes (messageAttributes o);
     MessageGroupId :=
       if fifo
       then match truthy (messageGroupId o) with
            | Some g => Some g
            | None => defaultGroupId p
            end
       else None;
     MessageDeduplicationId := if fifo then Some messageDeduplicationId else None;
     DelaySeconds :=
       match delaySeconds o with
       | Some d => if negb (d =? 0) && (0 <? d) then Some (Z.min d 900) else None
       | None => None
       end |}.

(** The [try] block of [publish]: its completion, the publisher and the
    world it leaves. *)
Definition tryPublish (p : t) (messageBody : JSON.value) (o : options)
    (startTime : Z) (w : W) : completion publishResult * (t * W) :=
  match _validateMessageBody messageBody with
  | Some error => (Throw error, (p, w))
  | None =>
  match _validateOptions o with
  | Some error => (Throw error, (p, w))
  | None =>
  match _generateDeduplicationId p messageBody o w with
  | (Throw error, w1) => (Throw error, (p, w1))
  | (Return messageDeduplicationId, w1) =>
      let '(duplicate, p1) :=
        if enableDeduplication p
        then let '(dup, dm) :=
               DeduplicationManager.isDuplicate messageDeduplicationId (now w1)
                 (deduplicationManager p) in
             (dup, with_manager dm p)
        else (false, p) in
      if duplicate then (Throw duplicateError, (p1, w1))
      else
        let command := buildCommand p messageBody o messageDeduplicationId in
        match executeCommand command w1 with
        | (Throw error, w2) => (Throw error, (p1, w2))
        | (Return result, w2) =>
            (Return (Published (MessageId result) (MD5OfBody result)
                       messageDeduplicationId (MessageGroupId command)
                       (now w2 - startTime)),
             (p1, w2))
        end
  end end end.

(** [publish(messageBody, options)]. The [catch] block reads
    [error.message] first, which throws in turn when [undefined] was thrown. *)
Definition publish (p : t) (messageBody : JSON.value) (o : options) (w : W)
    : completion publishResult * (t * W) :=
  let startTime := now w in
  match tryPublish p messageBody o startTime w with
  | (Return result, pw) => (Return result, pw)
  | (Throw Undefined, pw) => (Throw messageOfUndefined, pw)
  | (Throw (Err name message), pw) =>
      if isValidationError (Err name message) then (Throw (Err name message), pw)
      else (Return (NotPublished message (now pw.2 - startTime)), pw)
  end.

(** One batch of [publishBatch]: the publishes started by [.map] and the
    result pushed for each. The code starts every publish of the batch before
    it awaits any, so the sends of a batch are in flight together; here each
    publish runs to its end before the next starts, and the interleaving of
    the sends in flight is not modelled. The duplicate checks, which come
    before the first [await] of each publish, are made in this order in the
    code too. *)
Fixpoint publishAll (batch : list (JSON.value * options)) (p : t) (w : W)
    : list publishResult * (t * W) :=
  match batch with
  | [] => ([], (p, w))
  | (body, o) :: rest =>
      let '(r, (p1, w1)) := publish p body o w in
      let pushed :=
        match r with
        | Return value => value
        | Throw reason =>
            NotPublished
              (if String.eqb (error_message reason) EmptyString
               then "Unknown error" else error_message reason) 0
        end in
      let '(others, pw) := publishAll rest p1 w1 in
      (pushed :: others, pw)
  end.


End Publisher.

(** *** The publisher of the examples: a FIFO queue, and a client world that
    holds the clock and the commands sent. *)

Definition fifo : t :=
  {| queueUrl := "https://sqs.example/orders.fifo";
     defaultGroupId := Some "orders";
     enableDeduplication := true;
     deduplicationManager := DeduplicationManager.fresh |}.

Definition clientWorld : Type := Z * list command.

Definition clock (w : clientWorld) : Z := w.1.

Definition uuid (w : clientWorld) : string * clientWorld :=
  (JSON.Number_toString (Z.of_nat (List.length w.2)), w).

(** A client that accepts every command, and one whose every send fails. *)
Definition accepting (c : command) (w : clientWorld)
    : completion sendResult * clientWorld :=
  (Return {| MessageId := Some "m-1"; MD5OfBody := None |}, (w.1 + 10, w.2 ++ [c])).

Definition unreachable (c : command) (w : clientWorld)
    : completion sendResult * clientWorld :=
  (Throw (Err "NetworkingError" "unreachable"), (w.1 + 10, w.2)).

Definition withId (id : string) : options :=
  {| messageGroupId := None; messageDeduplicationId := Some id;
     customId := None; delaySeconds := None; messageAttributes := [] |}.

End MessagePublisher.

(** * Properties *)

(** ** Circuit breaker *)

Module CircuitBreakerFacts.
Import CircuitBreaker.
Local Open Scope Z_scope.

Lemma failures_nonneg (rs : list report) : 0 <= failures rs.
Proof. induction rs as [|[now|] rs IH]; simpl; lia. Qed.

Lemma lastFailure_some (rs : list report) :
  1 <= failures rs ->
  exists tf, forall dflt, lastFailure dflt rs = Some tf.
Proof.
  induction rs as [|[now|] rs IH]; simpl; intros Hf.
  - lia.
  - destruct (Z.eq_dec (failures rs) 0) as [H0|H0].
    + exists now. intros _. clear IH Hf.
      induction rs as [|[now'|] rs IH]; simpl in *; auto.
      pose proof (failures_nonneg rs). lia.
    + pose proof (failures_nonneg rs).
      destruct IH as [tf Htf]; [lia|]. exists tf. intros _. apply Htf.
  - destruct (IH Hf) as [tf Htf]. exists tf. intros d. apply Htf.
Qed.

(** What a history of reports does to a breaker that has never been asked
    [canExecute()] since it was last closed: the state is a function of the
    failure count. *)
Definition tracking (b : t) : Prop :=
  state b = if failureThreshold b <=? failureCount b then OPEN else CLOSED.

Lemma recordFailure_tracking (now : Z) (b : t) :
  tracking b -> tracking (recordFailure now b).
Proof.
  unfold tracking, recordFailure. simpl. intros ->.
  destruct (failureThreshold b <=? failureCount b) eqn:E1;
    destruct (failureThreshold b <=? failureCount b + 1) eqn:E2;
    try reflexivity; lia.
Qed.

Lemma recordSuccess_tracking (b : t) :
  tracking b -> tracking (recordSuccess b).
Proof.
  unfold tracking, recordSuccess. simpl. intros E.
  destruct (state b) eqn:Es; try exact E.
  destruct (failureThreshold b <=? failureCount b); discriminate.
Qed.

Lemma recordSuccess_keeps (b : t) :
  state b <> HALF_OPEN ->
  failureCount (recordSuccess b) = failureCount b /\
  lastFailureTime (recordSuccess b) = lastFailureTime b.
Proof. unfold recordSuccess. simpl. destruct (state b); intuition congruence. Qed.

Lemma run_tracking (rs : list report) (b : t) :
  tracking b ->
  let b' := run rs b in
  tracking b' /\
  failureThreshold b' = failureThreshold b /\
  timeout b' = timeout b /\
  failureCount b' = failureCount b + failures rs /\
  lastFailureTime b' = lastFailure (lastFailureTime b) rs.
Proof.
  revert b. induction rs as [|r rs IH]; intros b Hb; simpl.
  - repeat split; auto. lia.
  - destruct r as [now|]; simpl.
    + destruct (IH (recordFailure now b) (recordFailure_tracking now b Hb))
        as (H1 & H2 & H3 & H4 & H5).
      repeat split; auto. unfold run in *. rewrite H4. simpl. lia.
    + destruct (IH (recordSuccess b) (recordSuccess_tracking b Hb))
        as (H1 & H2 & H3 & H4 & H5).
      assert (Hs : state b <> HALF_OPEN).
      { unfold tracking in Hb. rewrite Hb.
        destruct (failureThreshold b <=? failureCount b); discriminate. }
      destruct (recordSuccess_keeps b Hs) as [K1 K2].
      repeat split; auto; unfold run in *; congruence.
Qed.

Lemma successes_half_open (k : nat) (b : t) :
  state b = HALF_OPEN ->
  successCount b + Z.of_nat k < failureThreshold b ->
  let b' := successes k b in
  state b' = HALF_OPEN /\
  successCount b' = successCount b + Z.of_nat k /\
  failureThreshold b' = failureThreshold b.
Proof.
  revert b. induction k as [|k IH]; intros b Hs Hlt; simpl.
  - repeat split; auto. lia.
  - assert (E : (failureThreshold b <=? successCount b + 1) = false) by lia.
    destruct (IH (recordSuccess b)) as (H1 & H2 & H3).
    + unfold recordSuccess. simpl. rewrite Hs, E. reflexivity.
    + unfold recordSuccess. simpl. rewrite Hs, E. lia.
    + repeat split; auto.
      * rewrite H2. unfold recordSuccess. simpl. rewrite Hs, E. lia.
Qed.

(** C3. From a closed breaker with no failure counted, after any history of
    [recordFailure()] and [recordSuccess()] calls the failure count is the
    number of failures reported (successes reset nothing) and the state is
    OPEN exactly when that number has reached [failureThreshold]; once it
    has, [canExecute()] answers whether more than [timeout] milliseconds
    have passed since the last failure, and a refusal changes nothing. *)
Theorem opens_exactly_at_threshold (b0 : t) (rs : list report) (now : Z) :
  state b0 = CLOSED -> failureCount b0 = 0 -> 1 <= failureThreshold b0 ->
  let b := run rs b0 in
  failureCount b = failures rs /\
  state b = (if failureThreshold b0 <=? failures rs then OPEN else CLOSED) /\
  (failureThreshold b0 <= failures rs ->
   exists tf,
     lastFailure None rs = Some tf /\
     lastFailureTime b = Some tf /\
     (canExecute now b).1 = (timeout b0 <? now - tf) /\
     (now - tf <= timeout b0 -> canExecute now b = (false, b))).
Proof.
  intros Hc Hf Ht b.
  assert (Hb0 : tracking b0).
  { unfold tracking. rewrite Hc, Hf.
    destruct (failureThreshold b0 <=? 0) eqn:E; [lia | reflexivity]. }
  destruct (run_tracking rs b0 Hb0) as (H1 & H2 & H3 & H4 & H5).
  fold b in H1, H2, H3, H4, H5.
  assert (Hcount : failureCount b = failures rs) by lia.
  assert (Hstate : state b =
                   if failureThreshold b0 <=? failures rs then OPEN else CLOSED).
  { unfold tracking in H1. rewrite H1, H2, Hcount. reflexivity. }
  split; [exact Hcount|]. split; [exact Hstate|].
  intros Hge.
  destruct (lastFailure_some rs) as [tf Htf]; [lia|].
  exists tf. split; [apply Htf|].
  assert (Hl : lastFailureTime b = Some tf) by (rewrite H5; apply Htf).
  split; [exact Hl|].
  assert (Ho : state b = OPEN).
  { rewrite Hstate. destruct (failureThreshold b0 <=? failures rs) eqn:E;
      [reflexivity | lia]. }
  unfold canExecute, sinceLastFailure. rewrite Ho, Hl, H3. split.
  - destruct (timeout b0 <? now - tf); reflexivity.
  - intros Hle. destruct (timeout b0 <? now - tf) eqn:E; [lia | reflexivity].
Qed.

Lemma opens_exactly_at_threshold_witness :
  let early := run [Failure 10; Success; Failure 20] example in
  let b := run [Failure 10; Success; Failure 20; Success; Failure 30] example in
  state early = CLOSED /\
  failureCount b = 3 /\ state b = OPEN /\
  (exists tf, lastFailureTime b = Some tf /\ (canExecute 1030 b).1 = (1000 <? 1030 - tf)).
Proof.
  assert (Hc : state example = CLOSED) by reflexivity.
  assert (Hf : failureCount example = 0) by reflexivity.
  assert (Ht : 1 <= failureThreshold example) by (simpl; lia).
  destruct (opens_exactly_at_threshold example [Failure 10; Success; Failure 20]
              1030 Hc Hf Ht) as (_ & E2 & _).
  destruct (opens_exactly_at_threshold example
              [Failure 10; Success; Failure 20; Success; Failure 30]
              1030 Hc Hf Ht) as (R1 & R2 & R3).
  split; [exact E2|]. split; [exact R1|]. split; [exact R2|].
  destruct R3 as (tf & _ & L & C & _); [simpl; lia|].
  exists tf. split; [exact L | exact C].
Defined.

(** C4. An OPEN breaker whose last failure is more than [timeout]
    milliseconds old grants the next [canExecute()] and becomes HALF_OPEN;
    it stays HALF_OPEN through fewer than [failureThreshold] consecutive
    [recordSuccess()] calls, and the [failureThreshold]-th one closes it with
    both counters at zero. *)
Theorem recovers_after_timeout (b : t) (now : Z) :
  state b = OPEN ->
  timeout b < sinceLastFailure now b ->
  1 <= failureThreshold b ->
  let b1 := (canExecute now b).2 in
  (canExecute now b).1 = true /\
  state b1 = HALF_OPEN /\
  (forall k : nat, Z.of_nat k < failureThreshold b ->
     state (successes k b1) = HALF_OPEN) /\
  let b2 := successes (Z.to_nat (failureThreshold b)) b1 in
  state b2 = CLOSED /\ failureCount b2 = 0 /\ successCount b2 = 0.
Proof.
  intros Ho Hlate Ht.
  assert (E : (timeout b <? sinceLastFailure now b) = true) by lia.
  unfold canExecute. rewrite Ho, E. simpl.
  set (b1 := {| failureThreshold := failureThreshold b; timeout := timeout b;
                monitoringPeriod := monitoringPeriod b; state := HALF_OPEN;
                failureCount := failureCount b;
                lastFailureTime := lastFailureTime b; successCount := 0;
                monitoringStartTime := monitoringStartTime b |}).
  split; [reflexivity|]. split; [reflexivity|]. split.
  - intros k Hk. apply (successes_half_open k b1); simpl; [reflexivity | lia].
  - destruct (Z.to_nat (failureThreshold b)) as [|n] eqn:En; [lia|].
    assert (Hn : Z.of_nat n = failureThreshold b - 1) by lia.
    replace (S n) with (n + 1)%nat by lia.
    assert (Hsplit : forall m c, successes (m + 1) c = recordSuccess (successes m c)).
    { induction m as [|m IH]; intros c; simpl; [reflexivity | apply IH]. }
    rewrite Hsplit.
    destruct (successes_half_open n b1) as (H1 & H2 & H3); simpl; [reflexivity | lia |].
    simpl in H2, H3. unfold recordSuccess. simpl. rewrite H1, H2, H3.
    assert (E2 : (failureThreshold b <=? 0 + Z.of_nat n + 1) = true) by lia.
    rewrite E2. repeat split; reflexivity.
Qed.

Lemma recovers_after_timeout_witness :
  let b := run [Failure 0; Failure 0; Failure 0] example in
  let b1 := (canExecute 1001 b).2 in
  (canExecute 1001 b).1 = true /\
  state b1 = HALF_OPEN /\
  state (successes 2 b1) = HALF_OPEN /\
  state (successes 3 b1) = CLOSED /\
  failureCount (successes 3 b1) = 0 /\
  successCount (successes 3 b1) = 0.
Proof.
  intros b b1.
  assert (Ho : state b = OPEN) by reflexivity.
  assert (Hl : timeout b < sinceLastFailure 1001 b) by (vm_compute; reflexivity).
  assert (Ht : 1 <= failureThreshold b) by (simpl; lia).
  destruct (recovers_after_timeout b 1001 Ho Hl Ht) as (R1 & R2 & R3 & R4 & R5 & R6).
  split; [exact R1|]. split; [exact R2|].
  split; [apply (R3 2%nat); simpl; lia|].
  split; [exact R4|]. split; [exact R5 | exact R6].
Defined.

(** *** Further properties of the breaker *)

Lemma canExecute_keeps (now : Z) (b : t) :
  failureThreshold (canExecute now b).2 = failureThreshold b /\
  failureCount (canExecute now b).2 = failureCount b /\
  lastFailureTime (canExecute now b).2 = lastFailureTime b /\
  timeout (canExecute now b).2 = timeout b.
Proof.
  unfold canExecute. destruct (state b); simpl; auto.
  destruct (timeout b <? sinceLastFailure now b); simpl; auto.
Qed.

Lemma getStatus_breaker (now1 now2 : Z) (b : t) :
  (getStatus now1 now2 b).2 = (canExecute now2 b).2.
Proof. unfold getStatus. destruct (canExecute now2 b). reflexivity. Qed.

Lemma perform_consistent (b : t) (c : call) :
  1 <= failureThreshold b -> consistent b ->
  failureThreshold (perform b c) = failureThreshold b /\ consistent (perform b c).
Proof.
  intros Ht Hb.
  assert (Hcan : forall now,
             failureThreshold (canExecute now b).2 = failureThreshold b /\
             consistent (canExecute now b).2).
  { intros now. unfold consistent, canExecute in *.
    destruct (state b) eqn:Es; simpl; rewrite ?Es; auto.
    destruct (timeout b <? sinceLastFailure now b); simpl; rewrite ?Es; auto. }
  destruct c as [now| |now|now|now1 now2]; simpl.
  - apply Hcan.
  - unfold consistent, recordSuccess in *. simpl.
    destruct (state b) eqn:Es; simpl; rewrite ?Es; auto.
    destruct (failureThreshold b <=? successCount b + 1); simpl; split; auto; lia.
  - unfold consistent, recordFailure in *. simpl.
    destruct (state b) eqn:Es; simpl;
      try destruct (failureThreshold b <=? failureCount b + 1) eqn:E; simpl;
      rewrite ?Es; split; auto; lia.
  - unfold consistent, reset. simpl. split; [reflexivity | lia].
  - rewrite getStatus_breaker. apply Hcan.
Qed.

Lemma history_consistent (cs : list call) (b : t) :
  1 <= failureThreshold b -> consistent b ->
  failureThreshold (history cs b) = failureThreshold b /\ consistent (history cs b).
Proof.
  revert b. induction cs as [|c cs IH]; intros b Ht Hb; simpl; [auto|].
  destruct (perform_consistent b c Ht Hb) as [H1 H2].
  destruct (IH (perform b c)) as [I1 I2]; [lia | exact H2 |].
  unfold history in *. split; [congruence | exact I2].
Qed.

(** X1. Whatever calls a newly built breaker has served, it is CLOSED
    exactly while its failure count is below the threshold; the count is not
    cleared when the breaker half-opens, so a single failure reported while
    HALF_OPEN opens it again. *)
Theorem half_open_failure_reopens (c : config) (t0 : Z) (cs : list call) (now : Z) :
  1 <= failureThreshold (new c t0) ->
  let b := history cs (new c t0) in
  (state b = CLOSED <-> failureCount b < failureThreshold b) /\
  (state b = HALF_OPEN ->
   state (recordFailure now b) = OPEN /\
   lastFailureTime (recordFailure now b) = Some now).
Proof.
  intros Ht b.
  assert (H0 : consistent (new c t0)) by (unfold consistent; simpl in *; lia).
  destruct (history_consistent cs (new c t0) Ht H0) as [Hthr Hb]. fold b in Hthr, Hb.
  unfold consistent in Hb. split.
  - destruct (state b); split; intros H; try discriminate; try reflexivity; lia.
  - intros Hs. rewrite Hs in Hb. unfold recordFailure. simpl. rewrite Hs.
    assert (E : (failureThreshold b <=? failureCount b + 1) = true) by lia.
    rewrite E. split; reflexivity.
Qed.

Lemma half_open_failure_reopens_witness :
  let b := history [DoRecordFailure 1; DoRecordFailure 2; DoRecordFailure 3;
                    DoCanExecute 2000; DoRecordSuccess; DoRecordSuccess] example in
  state b = HALF_OPEN /\ state (recordFailure 2500 b) = OPEN.
Proof.
  intros b.
  assert (Ht : 1 <= failureThreshold example) by (simpl; lia).
  destruct (half_open_failure_reopens
              {| cfg_failureThreshold := Some 3; cfg_timeout := Some 1000;
                 cfg_monitoringPeriod := Some 500 |} 0
              [DoRecordFailure 1; DoRecordFailure 2; DoRecordFailure 3;
               DoCanExecute 2000; DoRecordSuccess; DoRecordSuccess] 2500 Ht)
    as [_ R].
  assert (Hs : state b = HALF_OPEN) by reflexivity.
  split; [exact Hs | exact (proj1 (R Hs))].
Defined.

Lemma perform_not_open (b : t) (c : call) :
  isFailure c = false -> state b <> OPEN -> state (perform b c) <> OPEN.
Proof.
  intros Hc Hs.
  assert (Hcan : forall now, state (canExecute now b).2 <> OPEN).
  { intros now. unfold canExecute. destruct (state b) eqn:Es; simpl;
      rewrite ?Es; try discriminate; congruence. }
  destruct c as [now| |now|now|now1 now2]; simpl; try discriminate.
  - apply Hcan.
  - unfold recordSuccess. simpl. destruct (state b) eqn:Es; simpl;
      try discriminate; try congruence.
    destruct (failureThreshold b <=? successCount b + 1); discriminate.
  - rewrite getStatus_breaker. apply Hcan.
Qed.

(** X2. Once [canExecute()] has granted a call, it keeps granting, at any
    later time and through any calls on the breaker, until a failure is
    reported. *)
Theorem grants_until_failure (b : t) (now now' : Z) (cs : list call) :
  (canExecute now b).1 = true ->
  forallb (fun c => negb (isFailure c)) cs = true ->
  (canExecute now' (history cs (canExecute now b).2)).1 = true.
Proof.
  intros Hg Hcs.
  assert (H1 : state (canExecute now b).2 <> OPEN).
  { revert Hg. unfold canExecute. destruct (state b) eqn:Es; simpl;
      rewrite ?Es; try discriminate.
    destruct (timeout b <? sinceLastFailure now b); simpl; discriminate. }
  assert (H2 : forall cs b1, forallb (fun c => negb (isFailure c)) cs = true ->
                             state b1 <> OPEN -> state (history cs b1) <> OPEN).
  { clear. induction cs as [|c cs IH]; intros b1 Hcs Hs; simpl; [exact Hs|].
    simpl in Hcs. apply andb_prop in Hcs as [Hc Hcs].
    apply IH; [exact Hcs|]. apply perform_not_open; [|exact Hs].
    destruct (isFailure c); [discriminate | reflexivity]. }
  specialize (H2 cs _ Hcs H1).
  unfold canExecute at 1. destruct (state (history cs (canExecute now b).2));
    simpl; congruence.
Qed.

Lemma grants_until_failure_witness :
  let b := run [Failure 0; Failure 0; Failure 0] example in
  (canExecute 5000
     (history [DoRecordSuccess; DoGetStatus 1500 1500; DoCanExecute 1600;
               DoRecordSuccess]
        (canExecute 1001 b).2)).1 = true.
Proof.
  intros b.
  apply (grants_until_failure b 1001 5000
           [DoRecordSuccess; DoGetStatus 1500 1500; DoCanExecute 1600;
            DoRecordSuccess]).
  - vm_compute. reflexivity.
  - vm_compute. reflexivity.
Defined.

(** X3. [getStatus()] is not a pure read. On an OPEN breaker whose timeout
    has passed it reports the state OPEN and the old success count together
    with [canExecute: true], and leaves the breaker HALF_OPEN with its
    success count cleared; in every other case the breaker is unchanged. *)
Theorem getStatus_half_opens (b : t) (now1 now2 : Z) :
  let s := (getStatus now1 now2 b).1 in
  let b' := (getStatus now1 now2 b).2 in
  status_state s = state b /\
  status_successCount s = successCount b /\
  (state b = OPEN /\ timeout b < sinceLastFailure now2 b ->
   status_canExecute s = true /\ state b' = HALF_OPEN /\ successCount b' = 0) /\
  (state b <> OPEN \/ sinceLastFailure now2 b <= timeout b -> b' = b).
Proof.
  unfold getStatus. destruct (canExecute now2 b) as [allowed b'] eqn:E. simpl.
  split; [reflexivity|]. split; [reflexivity|]. unfold canExecute in E. split.
  - intros [Ho Hl]. rewrite Ho in E.
    assert (El : (timeout b <? sinceLastFailure now2 b) = true) by lia.
    rewrite El in E. injection E as <- <-. simpl. auto.
  - intros H. destruct (state b) eqn:Es.
    + injection E as _ <-. reflexivity.
    + destruct H as [H|H]; [congruence|].
      assert (El : (timeout b <? sinceLastFailure now2 b) = false) by lia.
      rewrite El in E. injection E as _ <-. reflexivity.
    + injection E as _ <-. reflexivity.
Qed.

Lemma getStatus_half_opens_witness :
  let b := run [Failure 0; Failure 0; Failure 0] example in
  status_state (getStatus 1001 1001 b).1 = OPEN /\
  status_canExecute (getStatus 1001 1001 b).1 = true /\
  state (getStatus 1001 1001 b).2 = HALF_OPEN.
Proof.
  intros b.
  destruct (getStatus_half_opens b 1001 1001) as (R1 & _ & R3 & _).
  destruct R3 as (R3 & R4 & _).
  { split; [reflexivity | vm_compute; reflexivity]. }
  split; [exact R1|]. split; [exact R3 | exact R4].
Defined.

(** X4. After [reset()], whatever the breaker had gone through, failures
    are counted from zero again: it is OPEN exactly when the failures
    reported since the reset have reached the threshold. *)
Theorem reset_starts_over (b : t) (now : Z) (rs : list report) :
  1 <= failureThreshold b ->
  let b' := run rs (reset now b) in
  failureCount b' = failures rs /\
  state b' = (if failureThreshold b <=? failures rs then OPEN else CLOSED).
Proof.
  intros Ht b'.
  assert (H0 : tracking (reset now b)).
  { unfold tracking, reset. simpl.
    destruct (failureThreshold b <=? 0) eqn:E; [lia | reflexivity]. }
  destruct (run_tracking rs (reset now b) H0) as (H1 & H2 & _ & H4 & _).
  fold b' in H1, H2, H4. simpl in H2, H4.
  split; [lia|]. unfold tracking in H1. rewrite H1, H2.
  replace (failureCount b') with (failures rs) by lia. reflexivity.
Qed.

Lemma reset_starts_over_witness :
  let b := run [Failure 0; Failure 0; Failure 0; Failure 0] example in
  state b = OPEN /\
  state (run [Failure 10; Failure 20] (reset 5 b)) = CLOSED /\
  state (run [Failure 10; Failure 20; Failure 30] (reset 5 b)) = OPEN.
Proof.
  intros b.
  assert (Ht : 1 <= failureThreshold b) by (simpl; lia).
  destruct (reset_starts_over b 5 [Failure 10; Failure 20] Ht) as [_ R1].
  destruct (reset_starts_over b 5 [Failure 10; Failure 20; Failure 30] Ht) as [_ R2].
  split; [reflexivity|]. split; [exact R1 | exact R2].
Defined.

End CircuitBreakerFacts.

(** ** Retry manager *)

Module RetryManagerFacts.
Import JS RetryManager.
Local Open Scope Z_scope.

Lemma invocations_app (l1 l2 : list event) :
  invocations (l1 ++ l2) = (invocations l1 + invocations l2)%nat.
Proof. unfold invocations. rewrite List.filter_app, length_app. reflexivity. Qed.


Lemma attemptNumbers_shift (n : nat) (a : nat) :
  List.map Z.of_nat (seq (S a) n) = List.map (Z.add 1) (List.map Z.of_nat (seq a n)).
Proof.
  revert a. induction n as [|n IH]; intros a; simpl; [reflexivity|].
  rewrite IH. f_equal. lia.
Qed.



Lemma attempts_throw {W V : Type} (sleep : Z -> W -> W) (rm : t)
    (fn : W -> completion V * W) (o : options W) (k : nat) (attempt : Z)
    (e0 e : thrown) (w w1 : W) :
  fn w = (Throw e, w1) ->
  attempts sleep rm fn o (S k) attempt e0 w
  = if (attempt <? maxRetries rm) && retryable o e
    then attempts sleep rm fn o k (attempt + 1) e
           (sleep (calculateDelay rm attempt)
              match onRetry o with
              | Some cb => cb e (attempt + 1) (calculateDelay rm attempt) w1
              | None => w1
              end)
    else (Failed e, w1).
Proof. intros H. simpl. rewrite H. reflexivity. Qed.

Lemma attempts_return {W V : Type} (sleep : Z -> W -> W) (rm : t)
    (fn : W -> completion V * W) (o : options W) (k : nat) (attempt : Z)
    (e0 : thrown) (v : V) (w w1 : W) :
  fn w = (Return v, w1) ->
  attempts sleep rm fn o (S k) attempt e0 w = (Returned v, w1).
Proof. intros H. simpl. rewrite H. reflexivity. Qed.

Lemma observed_throw {U V : Type} (op : U -> completion V * U) (u u' : U)
    (l : list event) (e : thrown) :
  op u = (Throw e, u') ->
  observed op (u, l) = (Throw e, (u', l ++ [Invoked])).
Proof. intros H. unfold observed. simpl. rewrite H. reflexivity. Qed.



Lemma Qmin_inject_Z (x y : Z) : (Qmin (inject_Z x) (inject_Z y) == inject_Z (Z.min x y))%Q.
Proof.
  destruct (Z.le_ge_cases x y) as [H|H].
  - rewrite Z.min_l by exact H. apply Q.min_l. rewrite <- Zle_Qle. exact H.
  - rewrite Z.min_r by exact H. apply Q.min_r. rewrite <- Zle_Qle. exact H.
Qed.

(** With integer settings the floor changes nothing. *)
Lemma integer_delay (rm : t) (initial multiplier cap attempt : Z) :
  (initialDelayMs rm == inject_Z initial)%Q ->
  (backoffMultiplier rm == inject_Z multiplier)%Q ->
  (maxBackoffMs rm == inject_Z cap)%Q ->
  0 <= attempt ->
  calculateDelay rm attempt = Z.min (initial * multiplier ^ attempt) cap /\
  (inject_Z (calculateDelay rm attempt) == rawDelay rm attempt)%Q.
Proof.
  intros Hi Hm Hc Ha.
  assert (R : (rawDelay rm attempt
               == inject_Z (Z.min (initial * multiplier ^ attempt) cap))%Q).
  { unfold rawDelay. rewrite <- Qmin_inject_Z.
    apply Q.min_compat; [|exact Hc].
    rewrite inject_Z_mult, Zpower_Qpower by exact Ha.
    rewrite Hi, Hm. reflexivity. }
  unfold calculateDelay. rewrite (Qfloor_comp _ _ R), Qfloor_Z.
  split; [reflexivity | symmetry; exact R].
Qed.




(** C10. When the first invocation throws an error that [shouldRetry]
    rejects, the operation is invoked once, nothing sleeps, [onRetry] is not
    called, [onFailure] is called with that error and [maxRetries + 1], and
    the error is re-raised. *)
Theorem gives_up_without_retry {U V : Type} (rm : t)
    (op : U -> completion V * U) (shouldRetry : thrown -> bool)
    (u u1 : U) (e : thrown) :
  0 <= maxRetries rm ->
  op u = (Throw e, u1) ->
  shouldRetry e = false ->
  run rm op (Some shouldRetry) u
  = (Throw e, (u1, [Invoked; OnFailure e (maxRetries rm + 1)])).
Proof.
  intros Hmax Hop Hsr. unfold run, executeWithRetry.
  destruct (Z.to_nat (maxRetries rm + 1)) as [|k] eqn:Ek; [lia|].
  rewrite (attempts_throw _ rm _ _ k 0 Undefined e _ _ (observed_throw op u u1 [] e Hop)).
  unfold retryable. cbn [RetryManager.shouldRetry observing]. rewrite Hsr, andb_false_r.
  reflexivity.
Qed.

Lemma gives_up_without_retry_witness :
  run example alwaysFails (Some (fun _ => false)) 0%nat
  = (Throw (Err "Error" "persistent failure"),
     (1%nat, [Invoked; OnFailure (Err "Error" "persistent failure") 4])).
Proof.
  apply (gives_up_without_retry example alwaysFails (fun _ => false) 0%nat 1%nat
           (Err "Error" "persistent failure")).
  - simpl. lia.
  - reflexivity.
  - reflexivity.
Defined.

(** *** Further properties of the retry manager *)

(** X5. With integer settings, an initial delay and a multiplier of at
    least 1 and a cap below [2 ^ 53], where the doubles of the code agree
    with exact arithmetic at every attempt, no delay exceeds [maxBackoffMs]
    and the delay never shrinks from one attempt to the next. *)
Theorem delay_capped_and_nondecreasing (rm : t)
    (initial multiplier cap attempt : Z) :
  (initialDelayMs rm == inject_Z initial)%Q ->
  (backoffMultiplier rm == inject_Z multiplier)%Q ->
  (maxBackoffMs rm == inject_Z cap)%Q ->
  1 <= initial < 2 ^ 53 ->
  1 <= multiplier < 2 ^ 53 ->
  0 <= cap < 2 ^ 53 ->
  0 <= attempt < 2 ^ 53 ->
  calculateDelay rm attempt = Z.min (initial * multiplier ^ attempt) cap /\
  calculateDelay rm attempt <= cap /\
  calculateDelay rm attempt <= calculateDelay rm (attempt + 1).
Proof.
  intros Hi Hm Hc Hi1 Hm1 Hc1 Ha.
  destruct (integer_delay rm initial multiplier cap attempt Hi Hm Hc) as [E _];
    [lia|].
  destruct (integer_delay rm initial multiplier cap (attempt + 1) Hi Hm Hc) as [E1 _];
    [lia|].
  rewrite E1, E. split; [reflexivity|]. split; [apply Z.le_min_r|].
  apply Z.min_le_compat_r.
  replace (attempt + 1) with (Z.succ attempt) by lia.
  rewrite Z.pow_succ_r by lia.
  assert (Hp : 0 < multiplier ^ attempt) by (apply Z.pow_pos_nonneg; lia).
  nia.
Qed.

Lemma delay_capped_and_nondecreasing_witness :
  calculateDelay example 2 = 400 /\
  calculateDelay example 9 <= 1000 /\
  calculateDelay example 9 <= calculateDelay example 10.
Proof.
  split.
  - apply (proj1 (delay_capped_and_nondecreasing example 100 2 1000 2
                    ltac:(reflexivity) ltac:(reflexivity) ltac:(reflexivity)
                    ltac:(simpl; lia) ltac:(simpl; lia) ltac:(simpl; lia)
                    ltac:(simpl; lia))).
  - apply (proj2 (delay_capped_and_nondecreasing example 100 2 1000 9
                    ltac:(reflexivity) ltac:(reflexivity) ltac:(reflexivity)
                    ltac:(simpl; lia) ltac:(simpl; lia) ltac:(simpl; lia)
                    ltac:(simpl; lia))).
Defined.

Lemma observed_return {U V : Type} (op : U -> completion V * U) (u u' : U)
    (l : list event) (v : V) :
  op u = (Return v, u') ->
  observed op (u, l) = (Return v, (u', l ++ [Invoked])).
Proof. intros H. unfold observed. simpl. rewrite H. reflexivity. Qed.

Lemma outcome_split {U V : Type} (op : U -> completion V * U) (u : U) :
  op u = ((op u).1, (op u).2).
Proof. destruct (op u). reflexivity. Qed.





Lemma detailed_throw {W V : Type} (sleep : Z -> W -> W) (now : W -> Z) (rm : t)
    (fn : W -> completion V * W) (k : nat) (attempt : Z) (e0 : thrown)
    (name message : string) (acc : list attemptRecord) (start : Z) (w w1 : W) :
  fn w = (Throw (Err name message), w1) ->
  detailedAttempts sleep now rm fn (S k) attempt e0 acc start w
  = detailedAttempts sleep now rm fn k (attempt + 1) (Err name message)
      (acc ++ [{| attempt_number := attempt + 1; attempt_success := false;
                  attempt_duration := now w1 - now w;
                  attempt_error := Some message |}])
      start
      (if attempt <? maxRetries rm then sleep (calculateDelay rm attempt) w1 else w1).
Proof. intros H. simpl. rewrite H. reflexivity. Qed.

Lemma detailed_return {W V : Type} (sleep : Z -> W -> W) (now : W -> Z) (rm : t)
    (fn : W -> completion V * W) (k : nat) (attempt : Z) (e0 : thrown) (v : V)
    (acc : list attemptRecord) (start : Z) (w w1 : W) :
  fn w = (Return v, w1) ->
  detailedAttempts sleep now rm fn (S k) attempt e0 acc start w
  = (Return {| detailed_success := true; detailed_result := Some v;
               detailed_attempts :=
                 acc ++ [{| attempt_number := attempt + 1; attempt_success := true;
                            attempt_duration := now w1 - now w;
                            attempt_error := None |}];
               detailed_totalDuration := now w1 - start;
               detailed_retryCount := attempt;
               detailed_error := None |}, w1).
Proof. intros H. simpl. rewrite H. reflexivity. Qed.

Lemma sleepTrace_step (rm : t) (k : nat) (attempt : Z) :
  sleepTrace rm (S (S k)) attempt
  = Invoked :: Slept (calculateDelay rm attempt) :: sleepTrace rm (S k) (attempt + 1).
Proof. reflexivity. Qed.

Lemma sleepTrace_invocations (rm : t) (k : nat) (attempt : Z) :
  invocations (sleepTrace rm k attempt) = k.
Proof.
  revert attempt. induction k as [|k IH]; intros attempt; [reflexivity|].
  destruct k as [|k]; [reflexivity|].
  rewrite sleepTrace_step.
  change (Invoked :: Slept (calculateDelay rm attempt) :: sleepTrace rm (S k) (attempt + 1))
    with ([Invoked; Slept (calculateDelay rm attempt)] ++ sleepTrace rm (S k) (attempt + 1)).
  rewrite invocations_app, IH. reflexivity.
Qed.


Lemma record_pair {U : Type} (ev : event) (u : U) (l : list event) :
  record ev (u, l) = (u, l ++ [ev]).
Proof. reflexivity. Qed.




Lemma detailed_eventually {U V : Type} (rm : t) (op : U -> completion V * U) (v : V) :
  forall (j k : nat) (attempt : Z) (e0 : thrown) (acc : list attemptRecord)
         (start : Z) (u : U) (l : list event),
    (forall i, (i < j)%nat ->
       exists name message, (op (after op i u)).1 = Throw (Err name message)) ->
    (op (after op j u)).1 = Return v ->
    attempt + Z.of_nat j <= maxRetries rm ->
    (j < k)%nat ->
    exists d,
      detailedAttempts (fun ms => record (Slept ms)) elapsed rm (observed op)
        k attempt e0 acc start (u, l)
      = (Return d, (after op (S j) u, l ++ sleepTrace rm (S j) attempt)) /\
      detailed_success d = true /\
      detailed_result d = Some v /\
      detailed_retryCount d = attempt + Z.of_nat j /\
      detailed_error d = None /\
      List.length (detailed_attempts d) = (List.length acc + S j)%nat.
Proof.
  induction j as [|j IH]; intros k attempt e0 acc start u l Hfail Hok Hle Hk;
    destruct k as [|k]; try lia.
  - simpl in Hok. pose proof (outcome_split op u) as E. rewrite Hok in E.
    rewrite (detailed_return _ _ rm _ k attempt e0 v acc start _ _
               (observed_return op u _ l v E)).
    eexists. split; [reflexivity|].
    simpl. rewrite length_app. simpl. repeat split; try reflexivity; lia.
  - destruct (Hfail 0%nat) as (name & message & He); [lia|]. simpl in He.
    pose proof (outcome_split op u) as E. rewrite He in E.
    rewrite (detailed_throw _ _ rm _ k attempt e0 name message acc start _ _
               (observed_throw op u _ l _ E)).
    assert (E1 : (attempt <? maxRetries rm) = true) by lia.
    rewrite E1, record_pair.
    match goal with
    | |- context [detailedAttempts _ _ rm _ k (attempt + 1) ?e ?acc' start ?w'] =>
        destruct (IH k (attempt + 1) e acc' start (op u).2
                    ((l ++ [Invoked]) ++ [Slept (calculateDelay rm attempt)]))
          as (d & H0 & H1 & H2 & H3 & H4 & H5)
    end.
    + intros i Hi. apply (Hfail (S i)). lia.
    + exact Hok.
    + lia.
    + lia.
    + exists d. rewrite H0, H1, H2, H3, H4, H5.
      rewrite length_app, sleepTrace_step, <- !app_assoc. simpl.
      repeat split; try reflexivity; lia.
Qed.

(** X8. When the operation throws an error [j <= maxRetries] times, whatever
    the errors, and then returns [v], [executeWithRetryDetailed] reports
    success with the result [v], [j + 1] attempt records and
    [retryCount = j], the number of failed attempts; it has invoked the
    operation [j + 1] times. *)
Theorem detailed_counts_retries {U V : Type} (rm : t)
    (op : U -> completion V * U) (u : U) (j : nat) (v : V) :
  Z.of_nat j <= maxRetries rm ->
  (forall i, (i < j)%nat ->
     exists name message, (op (after op i u)).1 = Throw (Err name message)) ->
  (op (after op j u)).1 = Return v ->
  let r := runDetailed rm op u in
  (exists d,
     r.1 = Return d /\
     detailed_success d = true /\
     detailed_result d = Some v /\
     detailed_retryCount d = Z.of_nat j /\
     List.length (detailed_attempts d) = S j) /\
  invocations r.2.2 = S j.
Proof.
  intros Hj Hfail Hok r. unfold r, runDetailed, executeWithRetryDetailed.
  destruct (detailed_eventually rm op v j (Z.to_nat (maxRetries rm + 1)) 0 Undefined
              [] (elapsed (u, [])) u [] Hfail Hok)
    as (d & H0 & H1 & H2 & H3 & _ & H5); [lia | lia |].
  rewrite H0. cbn [fst snd app]. split.
  - exists d. rewrite H1, H2, H3, H5. cbn [List.length].
    repeat split; try reflexivity; lia.
  - apply sleepTrace_invocations.
Qed.

Lemma detailed_counts_retries_witness :
  let r := runDetailed example failsTwice 0%nat in
  (exists d, r.1 = Return d /\ detailed_success d = true /\
             detailed_result d = Some "done" /\ detailed_retryCount d = 2) /\
  invocations r.2.2 = 3%nat.
Proof.
  assert (Hj : Z.of_nat 2 <= maxRetries example) by (simpl; lia).
  assert (Hfail : forall i, (i < 2)%nat ->
            exists name message,
              (failsTwice (after failsTwice i 0%nat)).1 = Throw (Err name message)).
  { intros i Hi. destruct i as [|[|i]]; [| |lia]; eexists; eexists; reflexivity. }
  assert (Hok : (failsTwice (after failsTwice 2 0%nat)).1 = Return "done")
    by reflexivity.
  destruct (detailed_counts_retries example failsTwice 0%nat 2 "done" Hj Hfail Hok)
    as ((d & R0 & R1 & R2 & R3 & _) & R5).
  split; [|exact R5].
  exists d. split; [exact R0|]. split; [exact R1|]. split; [exact R2 | exact R3].
Defined.

End RetryManagerFacts.

(** ** Deduplication manager *)

Module DeduplicationManagerFacts.
Import JS DeduplicationManager.
Local Open Scope Z_scope.

Lemma sweep_lookup_Some (dm : t) (now : Z) (k : string) (ts : Z) :
  sweep dm now !! k = Some ts <->
  deduplicationCache dm !! k = Some ts /\ now - ts <= cacheExpiry dm.
Proof.
  unfold sweep. rewrite map_lookup_filter_Some. unfold expired. simpl.
  split; intros [H1 H2]; split; auto; lia.
Qed.

Lemma sweep_lookup_None (dm : t) (now : Z) (k : string) :
  sweep dm now !! k = None <->
  forall ts, deduplicationCache dm !! k = Some ts -> cacheExpiry dm < now - ts.
Proof.
  split.
  - intros Hn ts Hts. destruct (Z.lt_ge_cases (cacheExpiry dm) (now - ts)) as [H|H];
      [exact H|].
    assert (Hs : sweep dm now !! k = Some ts) by (apply sweep_lookup_Some; split; [auto|lia]).
    congruence.
  - intros H. destruct (sweep dm now !! k) as [ts|] eqn:E; [|reflexivity].
    apply sweep_lookup_Some in E as [E1 E2]. specialize (H ts E1). lia.
Qed.

(** A call inside the window of an entry leaves the entry as it is. *)
Lemma isDuplicate_keeps (dm : t) (k id : string) (t0 now : Z) :
  deduplicationCache dm !! k = Some t0 ->
  now - t0 <= cacheExpiry dm ->
  deduplicationCache (isDuplicate id now dm).2 !! k = Some t0 /\
  cacheExpiry (isDuplicate id now dm).2 = cacheExpiry dm.
Proof.
  intros Hk Hin.
  assert (Hs : sweep dm now !! k = Some t0) by (apply sweep_lookup_Some; auto).
  unfold isDuplicate. destruct (sweep dm now !! id) as [ts|] eqn:E; simpl.
  - split; [exact Hs | reflexivity].
  - split; [|reflexivity]. rewrite lookup_insert_ne; [exact Hs|].
    intros ->. congruence.
Qed.

Lemma calls_keep (cs : list (string * Z)) (dm : t) (k : string) (t0 : Z) :
  deduplicationCache dm !! k = Some t0 ->
  Forall (fun c => c.2 - t0 <= cacheExpiry dm) cs ->
  deduplicationCache (calls cs dm) !! k = Some t0 /\
  cacheExpiry (calls cs dm) = cacheExpiry dm.
Proof.
  revert dm. induction cs as [|[id now] cs IH]; intros dm Hk Hall; simpl.
  - split; [exact Hk | reflexivity].
  - inversion Hall as [|c cs' Hc Hcs]; subst. simpl in Hc.
    destruct (isDuplicate_keeps dm k id t0 now Hk Hc) as [K1 K2].
    destruct (IH (isDuplicate id now dm).2 K1) as [I1 I2].
    + rewrite K2. exact Hcs.
    + split; [exact I1 | congruence].
Qed.

(** After a call at time [now] no entry older than [cacheExpiry] is left. *)
Lemma isDuplicate_sweeps (dm : t) (k id : string) (now ts : Z) :
  0 <= cacheExpiry dm ->
  deduplicationCache (isDuplicate k now dm).2 !! id = Some ts ->
  now - ts <= cacheExpiry dm.
Proof.
  intros Hpos. unfold isDuplicate.
  destruct (sweep dm now !! k) as [tk|] eqn:E; simpl.
  - intros H. apply sweep_lookup_Some in H. tauto.
  - destruct (decide (k = id)) as [->|Hne].
    + rewrite lookup_insert_eq. intros [= <-]. lia.
    + rewrite lookup_insert_ne by exact Hne.
      intros H. apply sweep_lookup_Some in H. tauto.
Qed.

(** C6. The first call for a key that is not in the cache answers [false]
    and records the key at the time of the call; whatever calls follow
    inside the window, a repeat at most [cacheExpiry] later answers [true],
    and a repeat more than [cacheExpiry] later finds the entry swept,
    answers [false] and records the key again at the new time. *)
Theorem duplicate_within_window (dm : t) (k : string) (t0 t1 : Z)
    (cs : list (string * Z)) :
  deduplicationCache dm !! k = None ->
  Forall (fun c => c.2 - t0 <= cacheExpiry dm) cs ->
  let first := isDuplicate k t0 dm in
  let dm' := calls cs first.2 in
  first.1 = false /\
  deduplicationCache first.2 !! k = Some t0 /\
  (t1 - t0 <= cacheExpiry dm -> (isDuplicate k t1 dm').1 = true) /\
  (cacheExpiry dm < t1 - t0 ->
   (isDuplicate k t1 dm').1 = false /\
   deduplicationCache (isDuplicate k t1 dm').2 !! k = Some t1).
Proof.
  intros Hnew Hall first dm'.
  assert (Hs : sweep dm t0 !! k = None).
  { apply sweep_lookup_None. intros ts Hts. congruence. }
  assert (Hfirst : first = (false, with_cache (<[k := t0]> (sweep dm t0)) dm)).
  { unfold first, isDuplicate. rewrite Hs. reflexivity. }
  assert (H0 : deduplicationCache first.2 !! k = Some t0).
  { rewrite Hfirst. simpl. apply lookup_insert_eq. }
  assert (E0 : cacheExpiry first.2 = cacheExpiry dm) by (rewrite Hfirst; reflexivity).
  destruct (calls_keep cs first.2 k t0 H0) as [K1 K2].
  { rewrite E0. exact Hall. }
  fold dm' in K1, K2. rewrite E0 in K2.
  split; [rewrite Hfirst; reflexivity|]. split; [exact H0|]. split.
  - intros Hin.
    assert (S1 : sweep dm' t1 !! k = Some t0).
    { apply sweep_lookup_Some. split; [exact K1 | rewrite K2; exact Hin]. }
    unfold isDuplicate. rewrite S1. reflexivity.
  - intros Hout.
    assert (S1 : sweep dm' t1 !! k = None).
    { apply sweep_lookup_None. intros ts Hts. rewrite K2.
      assert (ts = t0) by congruence. subst ts. exact Hout. }
    unfold isDuplicate. rewrite S1. simpl. split; [reflexivity|].
    apply lookup_insert_eq.
Qed.

Lemma duplicate_within_window_witness :
  let first := isDuplicate "k" 1000 fresh in
  let dm' := calls [("j", 1500)] first.2 in
  first.1 = false /\
  (isDuplicate "k" 2000 dm').1 = true /\
  (isDuplicate "k" 400000 dm').1 = false.
Proof.
  assert (Hnew : deduplicationCache fresh !! "k" = None) by reflexivity.
  assert (Hall : Forall (fun c : string * Z => c.2 - 1000 <= cacheExpiry fresh)
                   [("j", 1500)]).
  { repeat constructor. simpl. lia. }
  destruct (duplicate_within_window fresh "k" 1000 2000 [("j", 1500)] Hnew Hall)
    as (R1 & _ & R2 & _).
  destruct (duplicate_within_window fresh "k" 1000 400000 [("j", 1500)] Hnew Hall)
    as (_ & _ & _ & R3).
  split; [exact R1|]. split.
  - apply R2. simpl. lia.
  - apply R3. simpl. lia.
Defined.

Lemma get_absent {A B : Type} (f : A -> B) (P : string) (props : list (string * A)) :
  P ∉ List.map fst props ->
  JSON.get P (List.map (fun p => (p.1, f p.2)) props) = None.
Proof.
  induction props as [|[k x] props IH]; simpl; intros Hn; [reflexivity|].
  destruct (String.eqb k P) eqn:E.
  - apply String.eqb_eq in E. subst. exfalso. apply Hn. left.
  - apply IH. intros Hin. apply Hn. right. exact Hin.
Qed.

(** Under the replacer of [_generateContentBasedId], a body object none of
    whose property names is [body], [groupId] or [timestamp] is serialised
    as the empty object, whatever its properties hold. *)
Lemma body_serialised_empty (props : list (string * JSON.value)) :
  Forall (fun k => k ∉ List.map fst props) contentKeys ->
  JSON.SerializeJSONProperty (Some contentKeys) (JSON.JObject props)
  = JSON.SerializeJSONProperty (Some contentKeys) (JSON.JObject []).
Proof.
  intros H. unfold contentKeys in *.
  inversion H as [|k1 l1 H1 H']; subst. inversion H' as [|k2 l2 H2 H'']; subst.
  inversion H'' as [|k3 l3 H3 _]; subst.
  cbn [JSON.SerializeJSONProperty List.flat_map].
  rewrite !get_absent by assumption. reflexivity.
Qed.

Lemma hashInput_ignores_body (props : list (string * JSON.value))
    (o : options) (now : Z) :
  Forall (fun k => k ∉ List.map fst props) contentKeys ->
  hashInput (contentForHash (JSON.JObject props) o now)
  = hashInput (contentForHash (JSON.JObject []) o now).
Proof.
  intros H. pose proof (body_serialised_empty props H) as E.
  unfold hashInput, contentForHash.
  set (b1 := JSON.JObject props) in *. set (b0 := JSON.JObject []) in *.
  clearbody b1 b0.
  cbn [JSON.Object_keys List.map fst].
  replace (JSON.sort ["body"; "groupId"; "timestamp"]) with contentKeys
    by (vm_compute; reflexivity).
  unfold JSON.stringify.
  replace (option_map JSON.PropertyList (Some contentKeys)) with (Some contentKeys)
    by (vm_compute; reflexivity).
  cbn [JSON.SerializeJSONProperty List.map fst snd].
  rewrite E. reflexivity.
Qed.

Lemma Number_toString_inj (a b : Z) :
  JSON.Number_toString a = JSON.Number_toString b -> a = b.
Proof.
  unfold JSON.Number_toString. intros H.
  apply (f_equal NilEmpty.int_of_string) in H. rewrite !NilEmpty.isi in H.
  injection H as H. apply DecimalZ.to_int_inj. exact H.
Qed.

Lemma append_char_inj (s1 s2 : string) (c : ascii) :
  s1 +:+ String c EmptyString = s2 +:+ String c EmptyString -> s1 = s2.
Proof.
  revert s2. induction s1 as [|a s1 IH]; intros [|b s2] H; simpl in H.
  - reflexivity.
  - injection H as _ H. destruct s2; discriminate H.
  - injection H as _ H. destruct s1; discriminate H.
  - injection H as -> H. f_equal. apply IH. exact H.
Qed.

Lemma append_assoc (a b c : string) : (a +:+ b) +:+ c = a +:+ b +:+ c.
Proof.
  induction a as [|x a IH]; [reflexivity|].
  change (String x ((a +:+ b) +:+ c) = String x (a +:+ b +:+ c)).
  f_equal. exact IH.
Qed.

Lemma join_snoc (sep : string) (l : list string) (x : string) :
  exists before, forall y, JSON.join sep (l ++ [y]) = before +:+ y.
Proof.
  induction l as [|a l [before IH]].
  - exists EmptyString. intros y. reflexivity.
  - exists (a +:+ sep +:+ before). intros y.
    change ((a :: l) ++ [y]) with (a :: (l ++ [y])).
    assert (E : JSON.join sep (a :: (l ++ [y])) = a +:+ sep +:+ JSON.join sep (l ++ [y])).
    { destruct l; reflexivity. }
    rewrite E, IH.
    rewrite !append_assoc. reflexivity.
Qed.

(** The part of C7 that holds: with the same body and group, calls at
    different times hash different strings. *)
Lemma hashInput_depends_on_timestamp (messageBody : JSON.value) (o : options)
    (t1 t2 : Z) :
  t1 <> t2 ->
  hashInput (contentForHash messageBody o t1)
  <> hashInput (contentForHash messageBody o t2).
Proof.
  intros Hne H. apply Hne. revert H.
  unfold hashInput, contentForHash. cbn [JSON.Object_keys List.map fst].
  replace (JSON.sort ["body"; "groupId"; "timestamp"]) with contentKeys
    by (vm_compute; reflexivity).
  unfold JSON.stringify.
  replace (option_map JSON.PropertyList (Some contentKeys)) with (Some contentKeys)
    by (vm_compute; reflexivity).
  set (b := messageBody). clearbody b.
  set (g := match messageGroupId o with
            | Some g => JSON.JString g
            | None => JSON.JUndefined
            end). clearbody g.
  cbn [JSON.SerializeJSONProperty List.map fst snd].
  unfold contentKeys. cbn [List.flat_map JSON.get].
  replace (String.eqb "body" "body") with true by reflexivity.
  replace (String.eqb "body" "groupId") with false by reflexivity.
  replace (String.eqb "groupId" "groupId") with true by reflexivity.
  replace (String.eqb "body" "timestamp") with false by reflexivity.
  replace (String.eqb "groupId" "timestamp") with false by reflexivity.
  replace (String.eqb "timestamp" "timestamp") with true by reflexivity.
  set (mb := match JSON.SerializeJSONProperty _ b with
             | Some s => [_]
             | None => []
             end).
  set (mg := match JSON.SerializeJSONProperty _ g with
             | Some s => [_]
             | None => []
             end).
  clearbody mb mg. rewrite !app_nil_r, !app_assoc.
  destruct (join_snoc "," (mb ++ mg) EmptyString) as [before Hb].
  rewrite !Hb. intros H. injection H as H.
  apply String.app_inj in H. apply append_char_inj in H.
  apply String.app_inj in H. apply String.app_inj in H. apply String.app_inj in H.
  apply Number_toString_inj. exact H.
Qed.

(** C7 at its failing input. Under the content strategy, the bodies
    [{orderId: 1}] and [{orderId: 2}], published to the same group at the
    same millisecond, are hashed from the same string, the one an empty body
    gives, and so receive the same deduplication id whatever the digest. *)
Theorem content_id_ignores_body_properties (digest : string -> string -> string) :
  orderOne <> orderTwo /\
  hashInput (contentForHash orderOne inGroup 1000)
  = hashInput (contentForHash orderTwo inGroup 1000) /\
  hashInput (contentForHash orderOne inGroup 1000)
  = hashInput (contentForHash (JSON.JObject []) inGroup 1000) /\
  generateDeduplicationId digest fresh orderOne inGroup 1000
  = generateDeduplicationId digest fresh orderTwo inGroup 1000.
Proof.
  split; [discriminate|]. split; [vm_compute; reflexivity|].
  split; [vm_compute; reflexivity|].
  unfold generateDeduplicationId, _generateContentBasedId, _hashObject.
  cbn [customId inGroup strategy fresh new or_string cfg_strategy].
  replace (hashInput (contentForHash orderOne inGroup 1000))
    with (hashInput (contentForHash orderTwo inGroup 1000))
    by (vm_compute; reflexivity).
  reflexivity.
Qed.

(** *** Further properties of the deduplication manager *)

#[local] Existing Instance expired_dec.

(** X23. [getCacheStats()] splits the cache in two: valid and expired
    entries add up to the total; and right after an [isDuplicate] call, at
    the same clock reading, no entry is expired. *)
Theorem cache_stats_add_up (dm : t) (now : Z) (k : string) :
  (validEntries (getCacheStats now dm) + expiredEntries (getCacheStats now dm)
   = totalEntries (getCacheStats now dm))%nat /\
  (0 <= cacheExpiry dm ->
   expiredEntries (getCacheStats now (isDuplicate k now dm).2) = 0%nat).
Proof.
  split.
  - unfold getCacheStats. simpl.
    rewrite <- (map_filter_union_complement (fun entry => expired dm now entry)
                  (deduplicationCache dm)) at 3.
    rewrite map_size_disj_union by apply map_disjoint_filter_complement. lia.
  - intros Hpos. unfold getCacheStats. cbn [expiredEntries].
    apply map_size_empty_iff. apply map_empty. intros id.
    apply map_lookup_filter_None. right. intros ts Hts.
    pose proof (isDuplicate_sweeps dm k id now ts Hpos Hts) as Hle.
    unfold expired. simpl.
    replace (cacheExpiry (isDuplicate k now dm).2) with (cacheExpiry dm).
    + lia.
    + unfold isDuplicate. destruct (sweep dm now !! k); reflexivity.
Qed.

Lemma cache_stats_add_up_witness :
  let dm := (isDuplicate "a" 0 fresh).2 in
  expiredEntries (getCacheStats 400000 dm) = 1%nat /\
  expiredEntries (getCacheStats 400000 (isDuplicate "b" 400000 dm).2) = 0%nat.
Proof.
  intros dm. split; [vm_compute; reflexivity|].
  apply (proj2 (cache_stats_add_up dm 400000 "b")).
  vm_compute. discriminate.
Defined.

Lemma generate_without_customId (digest : string -> string -> string) (dm : t)
    (messageBody : JSON.value) (o : options) (now : Z) :
  noCustomId o ->
  generateDeduplicationId digest dm messageBody o now
  = if String.eqb (strategy dm) "content"
    then _generateContentBasedId digest dm messageBody o now
    else if String.eqb (strategy dm) "timestamp"
    then Return (_generateTimestampBasedId digest dm now)
    else if String.eqb (strategy dm) "hybrid"
    then _generateHybridId digest dm messageBody o now
    else _generateContentBasedId digest dm messageBody o now.
Proof.
  intros [H|H]; unfold generateDeduplicationId; rewrite H; reflexivity.
Qed.



Lemma substring_length (n : nat) (s : string) :
  (String.length (String.substring 0 n s) <= n)%nat.
Proof.
  revert s. induction n as [|n IH]; intros s.
  - destruct s; simpl; lia.
  - destruct s as [|c s]; simpl; [lia|]. specialize (IH s). lia.
Qed.

Lemma hashInput_object (props : list (string * JSON.value)) :
  exists str, hashInput (JSON.JObject props) = Return str.
Proof. unfold hashInput. simpl. eexists. reflexivity. Qed.

(** X25. With the default hash algorithm, which [crypto] supports, and
    without a custom id, [generateDeduplicationId] returns an id for every
    message body under every strategy but one: the hybrid strategy throws a
    [TypeError] when the body is [null] or [undefined]. Every id returned has
    at most [hashLength] characters. *)
Theorem generate_fails_only_on_hybrid_null (digest : string -> string -> string)
    (dm : t) (messageBody : JSON.value) (o : options) (now : Z) :
  hashAlgorithm dm = "sha256" ->
  noCustomId o ->
  ((exists e, generateDeduplicationId digest dm messageBody o now = Throw e) <->
   strategy dm = "hybrid" /\
   (messageBody = JSON.JNull \/ messageBody = JSON.JUndefined)) /\
  (forall id, generateDeduplicationId digest dm messageBody o now = Return id ->
              (String.length id <= hashLength dm)%nat).
Proof.
  intros _ Hc. rewrite (generate_without_customId digest dm messageBody o now Hc).
  assert (Hcontent : exists str,
             _generateContentBasedId digest dm messageBody o now
             = Return (_hashString digest dm str)).
  { unfold _generateContentBasedId, _hashObject, contentForHash.
    destruct (hashInput_object
                [("body", messageBody);
                 ("groupId", match messageGroupId o with
                             | Some g => JSON.JString g
                             | None => JSON.JUndefined
                             end);
                 ("timestamp", JSON.JNumber now)]) as [str Hstr].
    rewrite Hstr. exists str. reflexivity. }
  destruct Hcontent as [cstr Hcontent].
  assert (Hhybrid :
            (messageBody = JSON.JNull \/ messageBody = JSON.JUndefined) /\
            (exists e, _generateHybridId digest dm messageBody o now = Throw e)
            \/
            ~ (messageBody = JSON.JNull \/ messageBody = JSON.JUndefined) /\
            (exists str, _generateHybridId digest dm messageBody o now
                         = Return (_hashString digest dm str))).
  { unfold _generateHybridId, _hashObject, hashInput.
    destruct messageBody; simpl;
      try (left; split; [auto | eexists; reflexivity]);
      right; (split; [intros [H|H]; discriminate H | eexists; reflexivity]). }
  destruct (String.eqb (strategy dm) "content") eqn:E1.
  { apply String.eqb_eq in E1. rewrite Hcontent. split.
    - split; [intros [e He]; discriminate He|].
      intros [Hs _]. rewrite E1 in Hs. discriminate Hs.
    - intros id [= <-]. apply substring_length. }
  destruct (String.eqb (strategy dm) "timestamp") eqn:E2.
  { apply String.eqb_eq in E2. split.
    - split; [intros [e He]; discriminate He|].
      intros [Hs _]. rewrite E2 in Hs. discriminate Hs.
    - intros id [= <-]. apply substring_length. }
  destruct (String.eqb (strategy dm) "hybrid") eqn:E3.
  { apply String.eqb_eq in E3.
    destruct Hhybrid as [[Hb [e He]]|[Hb [str Hstr]]].
    - rewrite He. split.
      + split; [intros _; split; assumption | intros _; exists e; reflexivity].
      + intros id Hid. discriminate Hid.
    - rewrite Hstr. split.
      + split; [intros [e He]; discriminate He | intros [_ H]; contradiction].
      + intros id [= <-]. apply substring_length. }
  apply String.eqb_neq in E3. rewrite Hcontent. split.
  - split; [intros [e He]; discriminate He | intros [Hs _]; contradiction].
  - intros id [= <-]. apply substring_length.
Qed.

Lemma generate_fails_only_on_hybrid_null_witness :
  let dm := {| strategy := "hybrid"; hashAlgorithm := "sha256"; hashLength := 32;
               deduplicationCache := ∅; cacheExpiry := 300000 |} in
  (exists e, generateDeduplicationId plainDigest dm JSON.JNull inGroup 1000 = Throw e) /\
  ~ (exists e, generateDeduplicationId plainDigest dm orderOne inGroup 1000 = Throw e).
Proof.
  intros dm.
  assert (Hc : noCustomId inGroup) by (left; reflexivity).
  split.
  - apply (proj1 (generate_fails_only_on_hybrid_null plainDigest dm JSON.JNull inGroup
                    1000 eq_refl Hc)).
    split; [reflexivity | left; reflexivity].
  - intros H.
    apply (proj1 (generate_fails_only_on_hybrid_null plainDigest dm orderOne inGroup
                    1000 eq_refl Hc)) in H.
    destruct H as [_ [H|H]]; discriminate H.
Defined.

End DeduplicationManagerFacts.

(** ** SQS client *)

Module SQSClientFacts.
Import JS SQS Runtime SQSClient.
Local Open Scope Z_scope.

Lemma canExecute_refusal (now : Z) (b : CircuitBreaker.t) :
  (CircuitBreaker.canExecute now b).1 = false ->
  CircuitBreaker.canExecute now b = (false, b).
Proof.
  unfold CircuitBreaker.canExecute.
  destruct (CircuitBreaker.state b); simpl; try discriminate.
  destruct (CircuitBreaker.timeout b <? CircuitBreaker.sinceLastFailure now b);
    simpl; [discriminate | reflexivity].
Qed.

Lemma with_circuitBreaker_same (w : World) :
  with_circuitBreaker (circuitBreaker w) w = w.
Proof. destruct w. reflexivity. Qed.

(** C8. When the breaker's [canExecute()] answers [false], [executeCommand]
    throws the circuit-open error and leaves the world as it found it:
    nothing is sent, nothing sleeps, no retry callback runs, and neither
    [recordSuccess] nor [recordFailure] is called. *)
Theorem open_circuit_refuses (aws : nat -> command -> reply) (c : command)
    (w : World) :
  (CircuitBreaker.canExecute (clock w) (circuitBreaker w)).1 = false ->
  executeCommand aws c w = (Throw circuitOpen, w).
Proof.
  intros H. unfold executeCommand.
  rewrite (canExecute_refusal _ _ H), with_circuitBreaker_same. reflexivity.
Qed.

Lemma open_circuit_refuses_witness :
  executeCommand Scenario.service Scenario.receive Scenario.tripped
  = (Throw circuitOpen, Scenario.tripped).
Proof.
  apply (open_circuit_refuses Scenario.service Scenario.receive Scenario.tripped).
  vm_compute. reflexivity.
Defined.

Lemma executeFn_isRunning (aws : nat -> command -> reply) (c : command) (w : World) :
  isRunning (executeFn aws c w).2 = isRunning w.
Proof.
  unfold executeFn, send. destruct (outcome (aws (sends w) c)); reflexivity.
Qed.

Lemma executeFn_down (aws : nat -> command -> reply) (c : command) (w : World) :
  (forall n, exists e, outcome (aws n c) = Throw e) ->
  exists e, (executeFn aws c w).1 = Throw e.
Proof.
  intros Hdown. unfold executeFn, send. destruct (Hdown (sends w)) as [e He].
  rewrite He. exists e. reflexivity.
Qed.

(** Nothing in [executeCommand] touches the running flag of the consumer. *)
Lemma attempts_isRunning (aws : nat -> command -> reply) (c : command)
    (rm : RetryManager.t) (k : nat) (attempt : Z) (e0 : thrown) (w : World) :
  isRunning (RetryManager.attempts sleep rm (executeFn aws c) retryOptions
               k attempt e0 w).2 = isRunning w.
Proof.
  revert attempt e0 w. induction k as [|k IH]; intros attempt e0 w; [reflexivity|].
  pose proof (executeFn_isRunning aws c w) as Hfn.
  destruct (executeFn aws c w) as [[v|e] w1] eqn:E; simpl in Hfn.
  - rewrite (RetryManagerFacts.attempts_return _ _ _ _ _ _ _ _ _ _ E). exact Hfn.
  - rewrite (RetryManagerFacts.attempts_throw _ _ _ _ _ _ _ _ _ _ E).
    destruct ((attempt <? RetryManager.maxRetries rm)
              && RetryManager.retryable retryOptions e); [|exact Hfn].
    rewrite IH. simpl. exact Hfn.
Qed.

Lemma executeCommand_isRunning (aws : nat -> command -> reply) (c : command)
    (w : World) :
  isRunning (executeCommand aws c w).2 = isRunning w.
Proof.
  unfold executeCommand.
  destruct (CircuitBreaker.canExecute (clock w) (circuitBreaker w)) as [[|] b];
    [|reflexivity].
  unfold RetryManager.executeWithRetry.
  pose proof (attempts_isRunning aws c (retryManager (with_circuitBreaker b w))
                (Z.to_nat (RetryManager.maxRetries
                             (retryManager (with_circuitBreaker b w)) + 1))
                0 Undefined (with_circuitBreaker b w)) as H.
  destruct (RetryManager.attempts _ _ _ _ _ _ _ _) as [[v|e] w1]; simpl in *;
    rewrite H; reflexivity.
Qed.

(** While every send fails, the retry loop never returns a result. *)
Lemma attempts_never_return (aws : nat -> command -> reply) (c : command)
    (rm : RetryManager.t) :
  (forall n, exists e, outcome (aws n c) = Throw e) ->
  forall (k : nat) (attempt : Z) (e0 : thrown) (w : World),
    exists e,
      (RetryManager.attempts sleep rm (executeFn aws c) retryOptions k attempt e0 w).1
      = RetryManager.Failed e.
Proof.
  intros Hdown k. induction k as [|k IH]; intros attempt e0 w.
  - eexists. reflexivity.
  - destruct (executeFn_down aws c w Hdown) as [e He].
    destruct (executeFn aws c w) as [r w1] eqn:E. simpl in He. subst r.
    rewrite (RetryManagerFacts.attempts_throw _ _ _ _ _ _ _ _ _ _ E).
    destruct ((attempt <? RetryManager.maxRetries rm)
              && RetryManager.retryable retryOptions e).
    + apply IH.
    + eexists. reflexivity.
Qed.

Lemma executeCommand_down (aws : nat -> command -> reply) (c : command) (w : World) :
  (forall n, exists e, outcome (aws n c) = Throw e) ->
  exists e, (executeCommand aws c w).1 = Throw e.
Proof.
  intros Hdown. unfold executeCommand.
  destruct (CircuitBreaker.canExecute (clock w) (circuitBreaker w)) as [[|] b].
  - unfold RetryManager.executeWithRetry.
    destruct (attempts_never_return aws c (retryManager (with_circuitBreaker b w))
                Hdown
                (Z.to_nat (RetryManager.maxRetries
                             (retryManager (with_circuitBreaker b w)) + 1))
                0 Undefined (with_circuitBreaker b w)) as (e & H).
    destruct (RetryManager.attempts _ _ _ _ _ _ _ _) as [r w1]. simpl in H.
    subst r. eexists. reflexivity.
  - eexists. reflexivity.
Qed.

(** *** Further properties of the client *)

Lemma slept_app (l1 l2 : list event) : slept (l1 ++ l2) = slept l1 ++ slept l2.
Proof.
  induction l1 as [|ev l1 IH]; simpl; [reflexivity|].
  destruct ev; simpl; rewrite IH; reflexivity.
Qed.

Lemma executeFn_return (aws : nat -> command -> reply) (c : command) (w : World)
    (result : response) :
  outcome (aws (sends w) c) = Return result ->
  executeFn aws c w
  = (Return result,
     recordSuccess (elapse (latency (aws (sends w) c)) (count_send (emit (Sent c) w)))).
Proof. intros H. unfold executeFn, send. rewrite H. reflexivity. Qed.

Lemma executeFn_throw (aws : nat -> command -> reply) (c : command) (w : World)
    (e : thrown) :
  outcome (aws (sends w) c) = Throw e ->
  executeFn aws c w
  = (Throw e,
     recordFailure (elapse (latency (aws (sends w) c)) (count_send (emit (Sent c) w)))).
Proof. intros H. unfold executeFn, send. rewrite H. reflexivity. Qed.

Lemma executeCommand_granted (aws : nat -> command -> reply) (c : command) (w : World) :
  (CircuitBreaker.canExecute (clock w) (circuitBreaker w)).1 = true ->
  executeCommand aws c w
  = RetryManager.executeWithRetry sleep (retryManager w) (executeFn aws c) retryOptions
      (with_circuitBreaker
         (CircuitBreaker.canExecute (clock w) (circuitBreaker w)).2 w).
Proof.
  intros H. unfold executeCommand.
  destruct (CircuitBreaker.canExecute (clock w) (circuitBreaker w)) as [allowed b].
  simpl in H. subst allowed. reflexivity.
Qed.

(** X9. When the breaker grants the call and the first send succeeds,
    [executeCommand] returns the service's answer after exactly one send and
    one [recordSuccess()], without sleeping or logging. *)
Theorem first_send_succeeds (aws : nat -> command -> reply) (c : command)
    (w : World) (result : response) :
  (CircuitBreaker.canExecute (clock w) (circuitBreaker w)).1 = true ->
  0 <= RetryManager.maxRetries (retryManager w) ->
  outcome (aws (sends w) c) = Return result ->
  let r := executeCommand aws c w in
  r.1 = Return result /\
  log r.2 = log w ++ [Sent c; RecordedSuccess] /\
  sends r.2 = S (sends w) /\
  circuitBreaker r.2
  = CircuitBreaker.recordSuccess
      (CircuitBreaker.canExecute (clock w) (circuitBreaker w)).2.
Proof.
  intros Hg Hmax Hok r. unfold r. rewrite (executeCommand_granted aws c w Hg).
  unfold RetryManager.executeWithRetry.
  destruct (Z.to_nat (RetryManager.maxRetries (retryManager w) + 1)) as [|k] eqn:Ek;
    [lia|].
  set (w0 := with_circuitBreaker _ w).
  assert (Hok0 : outcome (aws (sends w0) c) = Return result) by exact Hok.
  rewrite (RetryManagerFacts.attempts_return _ _ _ _ _ _ _ _ _ _
             (executeFn_return aws c w0 result Hok0)).
  simpl. rewrite <- app_assoc. repeat split; reflexivity.
Qed.

Lemma first_send_succeeds_witness :
  let w := Scenario.world ProcessingEngine.SEQUENTIAL in
  let r := executeCommand Scenario.service Scenario.receive w in
  r.1 = Return {| Messages := Some [Scenario.messageA; Scenario.messageB] |} /\
  log r.2 = [Sent Scenario.receive; RecordedSuccess] /\
  sends r.2 = 1%nat.
Proof.
  intros w.
  assert (Hg : (CircuitBreaker.canExecute (clock w) (circuitBreaker w)).1 = true)
    by reflexivity.
  assert (Hmax : 0 <= RetryManager.maxRetries (retryManager w)) by (simpl; lia).
  assert (Hok : outcome (Scenario.service (sends w) Scenario.receive)
                = Return {| Messages := Some [Scenario.messageA; Scenario.messageB] |})
    by reflexivity.
  destruct (first_send_succeeds Scenario.service Scenario.receive w _ Hg Hmax Hok)
    as (R1 & R2 & R3 & _).
  split; [exact R1|]. split; [exact R2 | exact R3].
Defined.

(** X10. When the breaker grants the call and the first send fails with an
    error that is not one of the five retryable names, [executeCommand]
    re-throws that error after exactly one send and one [recordFailure()];
    it logs the failure and never sleeps. *)
Theorem permanent_error_fails_fast (aws : nat -> command -> reply) (c : command)
    (w : World) (name message : string) :
  (CircuitBreaker.canExecute (clock w) (circuitBreaker w)).1 = true ->
  0 <= RetryManager.maxRetries (retryManager w) ->
  outcome (aws (sends w) c) = Throw (Err name message) ->
  shouldRetry (Err name message) = false ->
  let r := executeCommand aws c w in
  r.1 = Throw (Err name message) /\
  sends r.2 = S (sends w) /\
  slept (log r.2) = slept (log w) /\
  (exists text,
     log r.2 = log w ++ [Sent c; RecordedFailure; ConsoleError text message]) /\
  CircuitBreaker.failureCount (circuitBreaker r.2)
  = CircuitBreaker.failureCount (circuitBreaker w) + 1.
Proof.
  intros Hg Hmax Hbad Hsr r. unfold r. rewrite (executeCommand_granted aws c w Hg).
  set (e := Err name message) in *.
  unfold RetryManager.executeWithRetry.
  destruct (Z.to_nat (RetryManager.maxRetries (retryManager w) + 1)) as [|k] eqn:Ek;
    [lia|].
  set (w0 := with_circuitBreaker _ w).
  assert (Hbad0 : outcome (aws (sends w0) c) = Throw e) by exact Hbad.
  rewrite (RetryManagerFacts.attempts_throw _ _ _ _ _ _ _ _ _ _
             (executeFn_throw aws c w0 e Hbad0)).
  unfold RetryManager.retryable. cbn [RetryManager.shouldRetry retryOptions].
  rewrite Hsr, andb_false_r. simpl.
  destruct (CircuitBreakerFacts.canExecute_keeps (clock w) (circuitBreaker w))
    as (_ & Hfc & _ & _).
  split; [reflexivity|]. split; [reflexivity|]. split.
  - rewrite !slept_app. simpl. rewrite !app_nil_r. reflexivity.
  - split.
    + eexists. rewrite <- !app_assoc. reflexivity.
    + unfold w0. simpl. rewrite Hfc. reflexivity.
Qed.

Lemma permanent_error_fails_fast_witness :
  let w := Scenario.world ProcessingEngine.SEQUENTIAL in
  let r := executeCommand Scenario.rejecting Scenario.receive w in
  r.1 = Throw (Err "InvalidParameterException" "bad parameter") /\
  sends r.2 = 1%nat /\ slept (log r.2) = [].
Proof.
  intros w.
  assert (Hg : (CircuitBreaker.canExecute (clock w) (circuitBreaker w)).1 = true)
    by reflexivity.
  assert (Hmax : 0 <= RetryManager.maxRetries (retryManager w)) by (simpl; lia).
  assert (Hbad : outcome (Scenario.rejecting (sends w) Scenario.receive)
                 = Throw (Err "InvalidParameterException" "bad parameter"))
    by reflexivity.
  assert (Hsr : shouldRetry (Err "InvalidParameterException" "bad parameter") = false)
    by reflexivity.
  destruct (permanent_error_fails_fast Scenario.rejecting Scenario.receive w _ _
              Hg Hmax Hbad Hsr) as (R1 & R2 & R3 & _).
  split; [exact R1|]. split; [exact R2 | exact R3].
Defined.




End SQSClientFacts.

(** ** Message consumer *)

Module MessageConsumerFacts.
Import JS SQS Runtime MessageConsumer.
Local Open Scope Z_scope.

(** The [try] block throws only out of [_receiveMessages], which leaves
    the running flag alone. *)
Lemma tryBlock_throw_isRunning (aws : nat -> command -> reply)
    (JSON_parse : string -> completion JSON.value) (o : options)
    (messageHandler : ProcessingEngine.handler) (w : World) (e : thrown) :
  (tryBlock aws JSON_parse o messageHandler w).1 = Throw e ->
  isRunning (tryBlock aws JSON_parse o messageHandler w).2 = isRunning w.
Proof.
  unfold tryBlock, _receiveMessages.
  set (c := ReceiveMessageCommand _ _ _ _).
  pose proof (SQSClientFacts.executeCommand_isRunning aws c w) as Hr.
  destruct (SQSClient.executeCommand aws c w) as [[result|error] w1]; simpl in *.
  - destruct (Nat.eqb _ 0); [intros H; discriminate H|].
    destruct (ProcessingEngine.processMessages _ _ _ _ _) as [results w2].
    intros H. discriminate H.
  - intros _. exact Hr.
Qed.

(** The loop, read from its last turn: one more turn is one more run of the
    body when the flag is still set, and nothing otherwise. *)
Lemma _consumeLoop_last (aws : nat -> command -> reply)
    (JSON_parse : string -> completion JSON.value) (o : options)
    (messageHandler : ProcessingEngine.handler) (turns : nat) (w : World) :
  _consumeLoop aws JSON_parse (S turns) o messageHandler w
  = if isRunning (_consumeLoop aws JSON_parse turns o messageHandler w)
    then iteration aws JSON_parse o messageHandler
           (_consumeLoop aws JSON_parse turns o messageHandler w)
    else _consumeLoop aws JSON_parse turns o messageHandler w.
Proof.
  revert w. induction turns as [|turns IH]; intros w.
  - simpl. destruct (isRunning w); reflexivity.
  - change (_consumeLoop aws JSON_parse (S (S turns)) o messageHandler w)
      with (if isRunning w
            then _consumeLoop aws JSON_parse (S turns) o messageHandler
                   (iteration aws JSON_parse o messageHandler w)
            else w).
    change (_consumeLoop aws JSON_parse (S turns) o messageHandler w)
      with (if isRunning w
            then _consumeLoop aws JSON_parse turns o messageHandler
                   (iteration aws JSON_parse o messageHandler w)
            else w).
    destruct (isRunning w) eqn:E; [apply IH|]. rewrite E. reflexivity.
Qed.

(** The loop is left within [turns] turns exactly when the world it then
    leaves has the running flag cleared. *)
Lemma exits_flag (aws : nat -> command -> reply)
    (JSON_parse : string -> completion JSON.value) (o : options)
    (messageHandler : ProcessingEngine.handler) (turns : nat) (w : World) :
  exits aws JSON_parse turns o messageHandler w
  = negb (isRunning (_consumeLoop aws JSON_parse turns o messageHandler w)).
Proof.
  revert w. induction turns as [|turns IH]; intros w; simpl;
    destruct (isRunning w) eqn:E; simpl; rewrite ?E; auto.
Qed.

(** C9. Take a loop entered with the running flag set, and suppose that in
    each of its first [k] turns an error escapes the [try] block. Then each
    of these turns logs the error, sets one timer of [pollingInterval * 2]
    milliseconds and sends nothing more; after it the flag is still set. The
    loop is not left within these [k] turns, and its next turn runs the body
    again. *)
Theorem loop_survives_fault (aws : nat -> command -> reply)
    (JSON_parse : string -> completion JSON.value) (o : options)
    (messageHandler : ProcessingEngine.handler) (w : World) (k : nat) :
  isRunning w = true ->
  (forall i, (i < k)%nat ->
     exists name message,
       (tryBlock aws JSON_parse o messageHandler
          (_consumeLoop aws JSON_parse i o messageHandler w)).1
       = Throw (Err name message)) ->
  exits aws JSON_parse k o messageHandler w = false /\
  isRunning (_consumeLoop aws JSON_parse k o messageHandler w) = true /\
  _consumeLoop aws JSON_parse (S k) o messageHandler w
  = iteration aws JSON_parse o messageHandler
      (_consumeLoop aws JSON_parse k o messageHandler w) /\
  (forall i name message,
     (i < k)%nat ->
     (tryBlock aws JSON_parse o messageHandler
        (_consumeLoop aws JSON_parse i o messageHandler w)).1
     = Throw (Err name message) ->
     let w1 := (tryBlock aws JSON_parse o messageHandler
                  (_consumeLoop aws JSON_parse i o messageHandler w)).2 in
     let w2 := _consumeLoop aws JSON_parse (S i) o messageHandler w in
     log w2 = log w1 ++ [ConsoleError "Error in consumption loop:" message;
                         Slept (pollingInterval o * 2)] /\
     clock w2 = clock w1 + Z.max 0 (pollingInterval o * 2) /\
     sends w2 = sends w1 /\
     isRunning w2 = true).
Proof.
  intros Hrun Hfault.
  assert (Hturn : forall i name message,
            isRunning (_consumeLoop aws JSON_parse i o messageHandler w) = true ->
            (tryBlock aws JSON_parse o messageHandler
               (_consumeLoop aws JSON_parse i o messageHandler w)).1
            = Throw (Err name message) ->
            _consumeLoop aws JSON_parse (S i) o messageHandler w
            = catchBlock o (Err name message)
                (tryBlock aws JSON_parse o messageHandler
                   (_consumeLoop aws JSON_parse i o messageHandler w)).2 /\
            isRunning (_consumeLoop aws JSON_parse (S i) o messageHandler w) = true).
  { intros i name message Hi Ht.
    pose proof (tryBlock_throw_isRunning aws JSON_parse o messageHandler _ _ Ht) as Hr.
    rewrite _consumeLoop_last, Hi. unfold iteration.
    destruct (tryBlock aws JSON_parse o messageHandler
                (_consumeLoop aws JSON_parse i o messageHandler w)) as [[u|e] w1];
      simpl in *; [discriminate|].
    injection Ht as ->. split; [reflexivity|]. simpl. congruence. }
  assert (Hflag : forall i, (i <= k)%nat ->
            isRunning (_consumeLoop aws JSON_parse i o messageHandler w) = true).
  { intros i. induction i as [|i IH]; intros Hi; [exact Hrun|].
    destruct (Hfault i) as (name & message & Ht); [lia|].
    apply (Hturn i name message); [apply IH; lia | exact Ht]. }
  split; [rewrite exits_flag, Hflag by lia; reflexivity|].
  split; [apply Hflag; lia|].
  split; [rewrite _consumeLoop_last, Hflag by lia; reflexivity|].
  intros i name message Hi Ht w1 w2.
  destruct (Hturn i name message) as [E F]; [apply Hflag; lia | exact Ht|].
  unfold w2. rewrite F, E. fold w1.
  unfold catchBlock, sleep, elapse, emit. simpl.
  split; [rewrite <- app_assoc; reflexivity|].
  split; [reflexivity|]. split; reflexivity.
Qed.

Lemma loop_survives_fault_witness :
  let o := Scenario.options ProcessingEngine.SEQUENTIAL in
  let w := Scenario.world ProcessingEngine.SEQUENTIAL in
  let loop turns :=
    _consumeLoop Scenario.down Scenario.parse turns o Scenario.failsOnB w in
  exits Scenario.down Scenario.parse 3 o Scenario.failsOnB w = false /\
  isRunning (loop 3%nat) = true /\
  slept (log (loop 1%nat)) = [1000; 2000; 4000; 2000] /\
  sends (loop 3%nat) = 8%nat.
Proof.
  intros o w loop.
  assert (Hrun : isRunning w = true) by reflexivity.
  assert (Hfault : forall i, (i < 3)%nat ->
            exists name message,
              (tryBlock Scenario.down Scenario.parse o Scenario.failsOnB
                 (_consumeLoop Scenario.down Scenario.parse i o Scenario.failsOnB w)).1
              = Throw (Err name message)).
  { intros i Hi. destruct i as [|[|[|i]]]; [| | |lia].
    - exists "NetworkingError", "unreachable". vm_compute. reflexivity.
    - exists "NetworkingError", "unreachable". vm_compute. reflexivity.
    - exists "Error", "Circuit breaker is open - operation not allowed".
      vm_compute. reflexivity. }
  destruct (loop_survives_fault Scenario.down Scenario.parse o Scenario.failsOnB w 3
              Hrun Hfault) as (R1 & R2 & _ & R4).
  split; [exact R1|]. split; [exact R2|].
  split; [|vm_compute; reflexivity].
  destruct (R4 0%nat "NetworkingError" "unreachable") as (L & _);
    [lia | vm_compute; reflexivity |].
  unfold loop. rewrite L. vm_compute. reflexivity.
Defined.

(** The filter of [_deleteProcessedMessages] asks the same question of every
    message: the whole batch is deleted when at least one message was counted
    as successful, and nothing is deleted otherwise. *)
Lemma deletes_all_or_nothing (aws : nat -> command -> reply)
    (messages : list Message) (results : ProcessingEngine.BatchResult) (w : World) :
  _deleteProcessedMessages aws messages results w
  = if 0 <? ProcessingEngine.successful results
    then deleteAll aws (List.map ReceiptHandle messages) w
    else w.
Proof.
  unfold _deleteProcessedMessages.
  destruct (0 <? ProcessingEngine.successful results).
  - f_equal. f_equal. induction messages as [|m ms IH]; simpl; [reflexivity|].
    rewrite IH. reflexivity.
  - replace (List.filter _ messages) with (@nil Message); [reflexivity|].
    induction messages as [|m ms IH]; simpl; [reflexivity | exact IH].
Qed.

(** C1 at its failing input. The consumer receives the batch [A, B]; the
    handler succeeds for A and throws for B. In parallel mode the engine
    reports one success and one failure, and the consumer then sends a delete
    for A and a delete for B; in sequential mode it does the same. *)
Theorem failed_message_is_deleted :
  let turn mode :=
    iteration Scenario.service Scenario.parse (Scenario.options mode)
      Scenario.failsOnB (Scenario.world mode) in
  let results :=
    (ProcessingEngine.processMessages Scenario.parse
       [Scenario.messageA; Scenario.messageB] Scenario.failsOnB
       (engineOptions (Scenario.options ProcessingEngine.PARALLEL))
       (Scenario.world ProcessingEngine.PARALLEL)).1 in
  ProcessingEngine.successful results = 1 /\
  List.map ProcessingEngine.failure_messageId (ProcessingEngine.errors results)
  = ["B"] /\
  deleted (log (turn ProcessingEngine.PARALLEL)) = ["rh-A"; "rh-B"] /\
  deleted (log (turn ProcessingEngine.SEQUENTIAL)) = ["rh-A"; "rh-B"].
Proof. vm_compute. repeat split; reflexivity. Qed.

(** When every handler throws, parallel mode deletes nothing and sequential
    mode, which counts every message as successful, deletes the batch. *)
Lemma all_failed_batch :
  let turn mode :=
    iteration Scenario.service Scenario.parse (Scenario.options mode)
      Scenario.alwaysThrows (Scenario.world mode) in
  deleted (log (turn ProcessingEngine.PARALLEL)) = [] /\
  deleted (log (turn ProcessingEngine.SEQUENTIAL)) = ["rh-A"; "rh-B"].
Proof. vm_compute. split; reflexivity. Qed.

Lemma tryBlock_down (aws : nat -> command -> reply)
    (JSON_parse : string -> completion JSON.value) (o : options)
    (messageHandler : ProcessingEngine.handler) (w : World) :
  (forall n c, exists e, outcome (aws n c) = Throw e) ->
  (exists e, (tryBlock aws JSON_parse o messageHandler w).1 = Throw e) /\
  isRunning (tryBlock aws JSON_parse o messageHandler w).2 = isRunning w.
Proof.
  intros Hdown. unfold tryBlock, _receiveMessages.
  set (c := ReceiveMessageCommand _ _ _ _).
  destruct (SQSClientFacts.executeCommand_down aws c w (fun n => Hdown n c)) as [e He].
  pose proof (SQSClientFacts.executeCommand_isRunning aws c w) as Hr.
  destruct (SQSClient.executeCommand aws c w) as [r w1]. simpl in He, Hr. subst r.
  simpl. split; [exists e; reflexivity | exact Hr].
Qed.

(** While the service cannot be reached the loop is never left: every turn
    ends in the [catch] block with the running flag still set. *)
Lemma loop_never_exits_while_down (aws : nat -> command -> reply)
    (JSON_parse : string -> completion JSON.value) (o : options)
    (messageHandler : ProcessingEngine.handler) :
  (forall n c, exists e, outcome (aws n c) = Throw e) ->
  forall (turns : nat) (w : World),
    isRunning w = true ->
    exits aws JSON_parse turns o messageHandler w = false /\
    isRunning (_consumeLoop aws JSON_parse turns o messageHandler w) = true.
Proof.
  intros Hdown turns. induction turns as [|turns IH]; intros w Hrun.
  - simpl. rewrite Hrun. split; reflexivity.
  - destruct (tryBlock_down aws JSON_parse o messageHandler w Hdown) as [[e He] Hr].
    assert (Hnext : isRunning (iteration aws JSON_parse o messageHandler w) = true).
    { unfold iteration.
      destruct (tryBlock aws JSON_parse o messageHandler w) as [r w1].
      simpl in He, Hr. subst r. simpl. congruence. }
    destruct (IH _ Hnext) as [I1 I2].
    simpl. rewrite Hrun. split; assumption.
Qed.

End MessageConsumerFacts.

(** ** Processing engine *)

Module ProcessingEngineFacts.
Import JS SQS Runtime ProcessingEngine.
Local Open Scope Z_scope.

Lemma _processSingleMessage_fulfils (JSON_parse : string -> completion JSON.value)
    (message : Message) (messageHandler : handler) (w : World) :
  exists value, (_processSingleMessage JSON_parse message messageHandler w).1
                = Return value.
Proof.
  unfold _processSingleMessage.
  destruct (JSON_parse (Body message)) as [body|e].
  - destruct (messageHandler body _ _) as [[u|e] w1]; eexists; reflexivity.
  - eexists. reflexivity.
Qed.

(** In sequential mode every message is counted as successful, whatever its
    handler did: the awaited promise never rejects, so the [catch] of
    [_processSequential] is never entered. *)
Lemma sequential_counts_all_successful (JSON_parse : string -> completion JSON.value)
    (messages : list Message) (messageHandler : handler)
    (results : BatchResult) (w : World) :
  let r := (_processSequential JSON_parse messages messageHandler results w).1 in
  successful r = successful results + Z.of_nat (List.length messages) /\
  failed r = failed results /\
  errors r = errors results /\
  total r = total results.
Proof.
  revert results w. induction messages as [|m ms IH]; intros results w.
  - simpl. repeat split; lia.
  - cbn [_processSequential].
    destruct (_processSingleMessage_fulfils JSON_parse m messageHandler w) as [v Hv].
    destruct (_processSingleMessage JSON_parse m messageHandler w) as [r w1].
    simpl in Hv. subst r.
    match goal with
    | |- context [_processSequential JSON_parse ms messageHandler (succeed results) ?w2] =>
        destruct (IH (succeed results) w2) as (H1 & H2 & H3 & H4)
    end.
    cbv zeta. rewrite H1, H2, H3, H4. simpl. repeat split; lia.
Qed.

Lemma settleAll_length (JSON_parse : string -> completion JSON.value)
    (batchChunk : list Message) (messageHandler : handler) (w : World) :
  List.length (settleAll JSON_parse batchChunk messageHandler w).1
  = List.length batchChunk.
Proof.
  revert w. induction batchChunk as [|m ms IH]; intros w; [reflexivity|].
  cbn [settleAll].
  destruct (_processSingleMessage JSON_parse m messageHandler w) as [r w1].
  specialize (IH w1).
  destruct (settleAll JSON_parse ms messageHandler w1) as [others w2].
  simpl in *. rewrite IH. reflexivity.
Qed.

Lemma tally_handled (batchChunk : list Message) (batchResults : list settled)
    (now : Z) (results : BatchResult) :
  List.length batchResults = List.length batchChunk ->
  handled (tally batchChunk batchResults now results)
  = handled results + Z.of_nat (List.length batchChunk) /\
  total (tally batchChunk batchResults now results) = total results.
Proof.
  revert batchResults results.
  induction batchChunk as [|m ms IH]; intros [|r rs] results Hlen;
    simpl in Hlen; try discriminate.
  - simpl. split; lia.
  - cbn [tally]. injection Hlen as Hlen.
    match goal with
    | |- context [tally ms rs now ?r1] =>
        destruct (IH rs r1 Hlen) as [H1 H2]; rewrite H1, H2;
        assert (Hr : handled r1 = handled results + 1 /\ total r1 = total results)
    end.
    { destruct r as [v|e]; [destruct (success v)|]; unfold handled; simpl; split; lia. }
    destruct Hr as [Hr1 Hr2]. rewrite Hr1, Hr2.
    cbn [List.length]. split; lia.
Qed.

Lemma processChunks_handled (JSON_parse : string -> completion JSON.value)
    (batches : list (list Message)) (messageHandler : handler)
    (results : BatchResult) (w : World) :
  let r := (processChunks JSON_parse batches messageHandler results w).1 in
  handled r = handled results + Z.of_nat (List.length (concat batches)) /\
  total r = total results.
Proof.
  revert results w. induction batches as [|chunk rest IH]; intros results w.
  - simpl. split; lia.
  - cbn [processChunks].
    pose proof (settleAll_length JSON_parse chunk messageHandler w) as Hlen.
    destruct (settleAll JSON_parse chunk messageHandler w) as [rs w1].
    simpl in Hlen.
    destruct (tally_handled chunk rs (clock w1) results Hlen) as [T1 T2].
    destruct (IH (tally chunk rs (clock w1) results) w1) as [I1 I2].
    cbv zeta in *. rewrite I1, I2, T1, T2.
    simpl concat. rewrite length_app, Nat2Z.inj_add. split; lia.
Qed.

Lemma chunks_concat {A : Type} (steps : nat) (array : list A) (size : positive) :
  (List.length array <= steps)%nat ->
  concat (chunks steps array size) = array.
Proof.
  revert array. induction steps as [|k IH]; intros array Hlen.
  - destruct array; [reflexivity | simpl in Hlen; lia].
  - destruct array as [|x xs]; [reflexivity|].
    cbn [chunks]. cbn [concat]. rewrite IH.
    + apply take_drop.
    + rewrite length_drop. simpl in *. lia.
Qed.

Lemma processBatches_handled (JSON_parse : string -> completion JSON.value)
    (steps : nat) (remaining : list Message) (batchSize maxConcurrency : positive)
    (messageHandler : handler) (results : BatchResult) (w : World) :
  (List.length remaining <= steps)%nat ->
  let r := (processBatches JSON_parse steps remaining batchSize maxConcurrency
              messageHandler results w).1 in
  handled r = handled results + Z.of_nat (List.length remaining) /\
  total r = total results.
Proof.
  revert remaining results w. induction steps as [|k IH]; intros remaining results w Hlen.
  - destruct remaining; [simpl; split; lia | simpl in Hlen; lia].
  - destruct remaining as [|x xs]; [simpl; split; lia|].
    cbn [processBatches].
    set (batch := take (Pos.to_nat batchSize) (x :: xs)).
    set (later := drop (Pos.to_nat batchSize) (x :: xs)).
    set (limit := Pos.min (Pos.of_nat (List.length batch)) maxConcurrency).
    destruct (processChunks_handled JSON_parse (_chunkArray batch limit)
                messageHandler results w) as [C1 C2].
    destruct (processChunks JSON_parse (_chunkArray batch limit) messageHandler
                results w) as [results1 w1].
    cbv zeta in C1, C2. simpl in C1, C2.
    unfold _chunkArray in C1. rewrite chunks_concat in C1 by lia.
    match goal with
    | |- context [processBatches JSON_parse k later batchSize maxConcurrency
                    messageHandler results1 ?w2] =>
        destruct (IH later results1 w2) as [I1 I2]
    end.
    { unfold later. rewrite length_drop. simpl in *. lia. }
    cbv zeta in *. rewrite I1, I2, C1, C2.
    assert (Hsplit : (List.length batch + List.length later
                      = List.length (x :: xs))%nat).
    { unfold batch, later. rewrite <- length_app, take_drop. reflexivity. }
    split; lia.
Qed.

(** The part of C2 that holds in both modes: every message of the batch is
    counted once, as successful or as failed. *)
Lemma processMessages_accounts_for_all (JSON_parse : string -> completion JSON.value)
    (messages : list Message) (messageHandler : handler) (o : options) (w : World) :
  let r := (processMessages JSON_parse messages messageHandler o w).1 in
  total r = Z.of_nat (List.length messages) /\
  successful r + failed r = total r.
Proof.
  unfold processMessages.
  set (r0 := {| total := Z.of_nat (List.length messages); successful := 0;
                failed := 0; errors := []; processingTime := 0 |}).
  destruct (String.eqb (mode (processingEngine w)) PARALLEL).
  - unfold _processParallel.
    match goal with
    | |- context [processBatches JSON_parse ?s messages ?b ?c messageHandler r0 w] =>
        destruct (processBatches_handled JSON_parse s messages b c messageHandler
                    r0 w (Nat.le_refl _)) as [H1 H2];
        destruct (processBatches JSON_parse s messages b c messageHandler r0 w)
          as [r1 w1]
    end.
    cbv zeta in *. unfold handled in *. simpl in *. split; lia.
  - destruct (sequential_counts_all_successful JSON_parse messages messageHandler
                r0 w) as (H1 & H2 & H3 & H4).
    destruct (_processSequential JSON_parse messages messageHandler r0 w) as [r1 w1].
    cbv zeta in *. simpl in *. split; lia.
Qed.

(** C2 at its failing input. For the batch [A, B] and a handler that throws
    for B, the parallel engine reports one success and one failure with an
    error entry for B, and the sequential engine reports two successes, no
    failure and no error entry. *)
Theorem sequential_mode_hides_handler_failures :
  let batch := [Scenario.messageA; Scenario.messageB] in
  let run mode :=
    (processMessages Scenario.parse batch Scenario.failsOnB
       (MessageConsumer.engineOptions (Scenario.options mode))
       (Scenario.world mode)).1 in
  (successful (run PARALLEL) = 1 /\ failed (run PARALLEL) = 1 /\
   List.map failure_messageId (errors (run PARALLEL)) = ["B"]) /\
  (successful (run SEQUENTIAL) = 2 /\ failed (run SEQUENTIAL) = 0 /\
   errors (run SEQUENTIAL) = []).
Proof. vm_compute. repeat split; reflexivity. Qed.

(** *** Further properties of the processing engine *)

Lemma chunks_sizes {A : Type} (steps : nat) (array : list A) (size : positive) :
  Forall (fun chunk => (1 <= List.length chunk <= Pos.to_nat size)%nat)
    (chunks steps array size).
Proof.
  revert array. induction steps as [|k IH]; intros array.
  - destruct array; constructor.
  - destruct array as [|x xs]; [constructor|].
    cbn [chunks]. constructor; [|apply IH].
    rewrite length_take. simpl. lia.
Qed.

(** X12. [_chunkArray] cuts an array into consecutive chunks: put back
    together they are the array, none is empty and none is longer than the
    chunk size. *)
Theorem _chunkArray_partitions {A : Type} (array : list A) (size : positive) :
  concat (_chunkArray array size) = array /\
  Forall (fun chunk => (1 <= List.length chunk <= Pos.to_nat size)%nat)
    (_chunkArray array size).
Proof.
  unfold _chunkArray. split; [apply chunks_concat; lia | apply chunks_sizes].
Qed.

(** Whatever holds of the initial results and is kept by [succeed] and [fail]
    holds of the results of a pass. *)
Section ResultsInvariant.
Variable JSON_parse : string -> completion JSON.value.
Variable messageHandler : handler.
Variable P : BatchResult -> Prop.
Hypothesis P_succeed : forall r, P r -> P (succeed r).
Hypothesis P_fail : forall id e now r, P r -> P (fail id e now r).

Lemma sequential_invariant (messages : list Message) (results : BatchResult)
    (w : World) :
  P results -> P (_processSequential JSON_parse messages messageHandler results w).1.
Proof.
  revert results w. induction messages as [|m ms IH]; intros results w Hr;
    [exact Hr|].
  cbn [_processSequential].
  destruct (_processSingleMessage JSON_parse m messageHandler w) as [[v|e] w1];
    apply IH; auto.
Qed.

Lemma tally_invariant (batchChunk : list Message) (batchResults : list settled)
    (now : Z) (results : BatchResult) :
  P results -> P (tally batchChunk batchResults now results).
Proof.
  revert batchResults results.
  induction batchChunk as [|m ms IH]; intros [|r rs] results Hr; try exact Hr.
  cbn [tally]. apply IH. destruct r as [v|e]; [destruct (success v)|]; auto.
Qed.

Lemma processChunks_invariant (batches : list (list Message))
    (results : BatchResult) (w : World) :
  P results -> P (processChunks JSON_parse batches messageHandler results w).1.
Proof.
  revert results w. induction batches as [|chunk rest IH]; intros results w Hr;
    [exact Hr|].
  cbn [processChunks].
  destruct (settleAll JSON_parse chunk messageHandler w) as [rs w1].
  apply IH. apply tally_invariant. exact Hr.
Qed.

Lemma processBatches_invariant (steps : nat) (remaining : list Message)
    (batchSize maxConcurrency : positive) (results : BatchResult) (w : World) :
  P results ->
  P (processBatches JSON_parse steps remaining batchSize maxConcurrency
       messageHandler results w).1.
Proof.
  revert remaining results w. induction steps as [|k IH]; intros remaining results w Hr.
  - destruct remaining; exact Hr.
  - destruct remaining as [|x xs]; [exact Hr|].
    cbn [processBatches].
    match goal with
    | |- context [processChunks JSON_parse ?bs messageHandler results w] =>
        pose proof (processChunks_invariant bs results w Hr) as Hc;
        destruct (processChunks JSON_parse bs messageHandler results w) as [r1 w1]
    end.
    apply IH. exact Hc.
Qed.
End ResultsInvariant.

(** X13. In either mode [processMessages] returns with [total] the size of
    the batch, [successful + failed = total], neither count negative, and
    exactly one entry of [errors] per failure counted. *)
Theorem processMessages_totals (JSON_parse : string -> completion JSON.value)
    (messages : list Message) (messageHandler : handler) (o : options) (w : World) :
  let r := (processMessages JSON_parse messages messageHandler o w).1 in
  total r = Z.of_nat (List.length messages) /\
  successful r + failed r = total r /\
  0 <= successful r /\
  Z.of_nat (List.length (errors r)) = failed r.
Proof.
  destruct (processMessages_accounts_for_all JSON_parse messages messageHandler o w)
    as [H1 H2].
  cbv zeta in *. split; [exact H1|]. split; [exact H2|].
  set (P := fun r : BatchResult =>
              0 <= successful r /\ Z.of_nat (List.length (errors r)) = failed r).
  assert (Ps : forall r, P r -> P (succeed r)).
  { intros r [A B]. unfold P. simpl. split; [lia | exact B]. }
  assert (Pf : forall id e now r, P r -> P (fail id e now r)).
  { intros id e now r [A B]. unfold P. simpl. rewrite length_app. simpl.
    split; [exact A | lia]. }
  unfold processMessages.
  set (r0 := {| total := Z.of_nat (List.length messages); successful := 0;
                failed := 0; errors := []; processingTime := 0 |}).
  assert (P0 : P r0) by (unfold P; simpl; split; lia).
  destruct (String.eqb (mode (processingEngine w)) PARALLEL).
  - unfold _processParallel.
    match goal with
    | |- context [processBatches JSON_parse ?s messages ?b ?c messageHandler r0 w] =>
        pose proof (processBatches_invariant JSON_parse messageHandler P Ps Pf
                      s messages b c r0 w P0) as Hp;
        destruct (processBatches JSON_parse s messages b c messageHandler r0 w)
          as [r1 w1]
    end.
    exact Hp.
  - pose proof (sequential_invariant JSON_parse messageHandler P Ps Pf messages r0 w P0)
      as Hp.
    destruct (_processSequential JSON_parse messages messageHandler r0 w) as [r1 w1].
    exact Hp.
Qed.

(** X14. Unless the engine's mode is exactly ["parallel"], [processMessages]
    counts every message of the batch as successful and returns no error
    entry, whether the handler returned or threw an error. (A handler that
    throws [undefined] is set aside: reading [error.message] in the [catch]
    of [_processSingleMessage] then throws in turn.) *)
Theorem sequential_never_reports_failure
    (JSON_parse : string -> completion JSON.value) (messages : list Message)
    (messageHandler : handler) (o : options) (w : World) :
  mode (processingEngine w) <> PARALLEL ->
  (forall body, JSON_parse body <> Throw Undefined) ->
  (forall body context w', (messageHandler body context w').1 <> Throw Undefined) ->
  let r := (processMessages JSON_parse messages messageHandler o w).1 in
  successful r = Z.of_nat (List.length messages) /\
  failed r = 0 /\
  errors r = [].
Proof.
  intros Hmode _ _. unfold processMessages.
  destruct (String.eqb (mode (processingEngine w)) PARALLEL) eqn:E.
  - apply String.eqb_eq in E. contradiction.
  - match goal with
    | |- context [_processSequential JSON_parse messages messageHandler ?r0 w] =>
        destruct (sequential_counts_all_successful JSON_parse messages
                    messageHandler r0 w) as (H1 & H2 & H3 & _);
        destruct (_processSequential JSON_parse messages messageHandler r0 w)
          as [r1 w1]
    end.
    cbv zeta in *. simpl in *. repeat split; [lia | exact H2 | exact H3].
Qed.

Lemma sequential_never_reports_failure_witness :
  let r := (processMessages Scenario.parse [Scenario.messageA; Scenario.messageB]
              Scenario.alwaysThrows
              (MessageConsumer.engineOptions (Scenario.options SEQUENTIAL))
              (Scenario.world SEQUENTIAL)).1 in
  successful r = 2 /\ failed r = 0 /\ errors r = [].
Proof.
  apply (sequential_never_reports_failure Scenario.parse
           [Scenario.messageA; Scenario.messageB] Scenario.alwaysThrows
           (MessageConsumer.engineOptions (Scenario.options SEQUENTIAL))
           (Scenario.world SEQUENTIAL)).
  - vm_compute. discriminate.
  - intros body. unfold Scenario.parse.
    destruct (String.eqb body "1"); [discriminate|].
    destruct (String.eqb body "2"); discriminate.
  - intros body context w'. simpl. discriminate.
Defined.

Lemma single_outcome (JSON_parse : string -> completion JSON.value)
    (m : Message) (messageHandler : handler) (w : World) :
  exists value,
    (_processSingleMessage JSON_parse m messageHandler w).1 = Return value /\
    outcome_messageId value = MessageId m.
Proof.
  unfold _processSingleMessage.
  destruct (JSON_parse (Body m)) as [body|e].
  - destruct (messageHandler body _ _) as [[u|e] w1]; eexists; split; reflexivity.
  - eexists. split; reflexivity.
Qed.

Lemma classified_refl (verdict : Message -> bool) (r : BatchResult) :
  classified verdict r [] r.
Proof. unfold classified. simpl. rewrite app_nil_r. repeat split; lia. Qed.

Lemma classified_trans (verdict : Message -> bool) (r0 r1 r2 : BatchResult)
    (l1 l2 : list Message) :
  classified verdict r0 l1 r1 -> classified verdict r1 l2 r2 ->
  classified verdict r0 (l1 ++ l2) r2.
Proof.
  unfold classified, accepted, rejected.
  intros (A1 & A2 & A3) (B1 & B2 & B3).
  rewrite !List.filter_app, !length_app, List.map_app.
  rewrite B1, B2, B3, A1, A2, A3, <- app_assoc. repeat split; lia.
Qed.

Section Verdict.
Variable JSON_parse : string -> completion JSON.value.
Variable messageHandler : handler.
Variable verdict : Message -> bool.
Hypothesis verdict_spec :
  forall m w, succeeds JSON_parse m messageHandler w = verdict m.

Lemma settle_tally_classified (batchChunk : list Message) (w : World) (now : Z)
    (results : BatchResult) :
  classified verdict results batchChunk
    (tally batchChunk (settleAll JSON_parse batchChunk messageHandler w).1 now results).
Proof.
  revert w results. induction batchChunk as [|m ms IH]; intros w results.
  - apply classified_refl.
  - cbn [settleAll].
    destruct (single_outcome JSON_parse m messageHandler w) as (v & Hv & Hid).
    pose proof (verdict_spec m w) as Hs. unfold succeeds in Hs. rewrite Hv in Hs.
    destruct (_processSingleMessage JSON_parse m messageHandler w) as [r w1].
    simpl in Hv. subst r.
    specialize (IH w1).
    destruct (settleAll JSON_parse ms messageHandler w1) as [others w2].
    cbn [fst tally]. simpl in IH.
    change (m :: ms) with ([m] ++ ms).
    eapply classified_trans; [|apply IH].
    unfold classified, accepted, rejected. simpl. rewrite <- Hs.
    destruct (success v); simpl.
    + rewrite app_nil_r. repeat split; lia.
    + rewrite List.map_app. simpl. rewrite Hid. repeat split; lia.
Qed.

Lemma processChunks_classified (batches : list (list Message))
    (results : BatchResult) (w : World) :
  classified verdict results (concat batches)
    (processChunks JSON_parse batches messageHandler results w).1.
Proof.
  revert results w. induction batches as [|chunk rest IH]; intros results w.
  - apply classified_refl.
  - cbn [processChunks concat].
    pose proof (settle_tally_classified chunk w) as Hc.
    destruct (settleAll JSON_parse chunk messageHandler w) as [rs w1].
    simpl in Hc.
    eapply classified_trans; [apply (Hc (clock w1) results) | apply IH].
Qed.

Lemma processBatches_classified (steps : nat) (remaining : list Message)
    (batchSize maxConcurrency : positive) (results : BatchResult) (w : World) :
  (List.length remaining <= steps)%nat ->
  classified verdict results remaining
    (processBatches JSON_parse steps remaining batchSize maxConcurrency
       messageHandler results w).1.
Proof.
  revert remaining results w. induction steps as [|k IH]; intros remaining results w Hlen.
  - destruct remaining; [apply classified_refl | simpl in Hlen; lia].
  - destruct remaining as [|x xs]; [apply classified_refl|].
    cbn [processBatches].
    set (batch := take (Pos.to_nat batchSize) (x :: xs)).
    set (later := drop (Pos.to_nat batchSize) (x :: xs)).
    set (limit := Pos.min (Pos.of_nat (List.length batch)) maxConcurrency).
    pose proof (processChunks_classified (_chunkArray batch limit) results w) as Hc.
    destruct (processChunks JSON_parse (_chunkArray batch limit) messageHandler
                results w) as [results1 w1].
    simpl in Hc. unfold _chunkArray in Hc. rewrite chunks_concat in Hc by lia.
    rewrite <- (take_drop (Pos.to_nat batchSize) (x :: xs)).
    fold batch later.
    eapply classified_trans; [exact Hc|].
    apply IH. unfold later. rewrite length_drop. simpl in *. lia.
Qed.
End Verdict.

(** X15. In parallel mode, when the success of a message does not depend on
    the world it is processed in, [processMessages] counts as successful
    exactly the messages that succeed, counts the others as failed, and
    returns one error entry per failed message, carrying its id, in the
    order of the batch. *)
Theorem parallel_classifies_by_verdict
    (JSON_parse : string -> completion JSON.value) (messages : list Message)
    (messageHandler : handler) (o : options) (w : World)
    (verdict : Message -> bool) :
  mode (processingEngine w) = PARALLEL ->
  (forall m w', succeeds JSON_parse m messageHandler w' = verdict m) ->
  let r := (processMessages JSON_parse messages messageHandler o w).1 in
  successful r = Z.of_nat (List.length (accepted verdict messages)) /\
  failed r = Z.of_nat (List.length (rejected verdict messages)) /\
  List.map failure_messageId (errors r)
  = List.map MessageId (rejected verdict messages).
Proof.
  intros Hmode Hv. unfold processMessages. rewrite Hmode.
  replace (String.eqb PARALLEL PARALLEL) with true by reflexivity.
  unfold _processParallel.
  match goal with
  | |- context [processBatches JSON_parse ?s messages ?b ?c messageHandler ?r0 w] =>
      pose proof (processBatches_classified JSON_parse messageHandler verdict Hv
                    s messages b c r0 w (Nat.le_refl _)) as Hc;
      destruct (processBatches JSON_parse s messages b c messageHandler r0 w)
        as [r1 w1]
  end.
  destruct Hc as (C1 & C2 & C3). cbv zeta. simpl in *.
  repeat split; [lia | lia | exact C3].
Qed.

Lemma parallel_classifies_by_verdict_witness :
  let r := (processMessages Scenario.parse [Scenario.messageA; Scenario.messageB]
              Scenario.failsOnB
              (MessageConsumer.engineOptions (Scenario.options PARALLEL))
              (Scenario.world PARALLEL)).1 in
  successful r = 1 /\ failed r = 1 /\
  List.map failure_messageId (errors r) = ["B"].
Proof.
  assert (Hmode : mode (processingEngine (Scenario.world PARALLEL)) = PARALLEL)
    by reflexivity.
  assert (Hv : forall m w',
             succeeds Scenario.parse m Scenario.failsOnB w'
             = match Scenario.parse (Body m) with
               | Return _ => negb (String.eqb (MessageId m) "B")
               | Throw _ => false
               end).
  { intros m w'. unfold succeeds, _processSingleMessage, Scenario.failsOnB.
    destruct (Scenario.parse (Body m)); [|reflexivity].
    simpl. destruct (String.eqb (MessageId m) "B"); reflexivity. }
  exact (parallel_classifies_by_verdict Scenario.parse
           [Scenario.messageA; Scenario.messageB] Scenario.failsOnB
           (MessageConsumer.engineOptions (Scenario.options PARALLEL))
           (Scenario.world PARALLEL) _ Hmode Hv).
Defined.

(** Whatever holds of the world and is kept by the handler, by logging and
    by sleeping still holds when a pass is over. *)
Section WorldInvariant.
Variable JSON_parse : string -> completion JSON.value.
Variable messageHandler : handler.
Variable Q : World -> Prop.
Hypothesis Q_handler : forall body context w, Q w -> Q (messageHandler body context w).2.
Hypothesis Q_emit : forall ev w, Q w -> Q (emit ev w).
Hypothesis Q_sleep : forall ms w, Q w -> Q (sleep ms w).

Lemma single_world (m : Message) (w : World) :
  Q w -> Q (_processSingleMessage JSON_parse m messageHandler w).2.
Proof.
  intros Hw. unfold _processSingleMessage.
  destruct (JSON_parse (Body m)) as [body|e]; [|exact Hw].
  match goal with
  | |- context [messageHandler body ?ctx ?w'] =>
      pose proof (Q_handler body ctx w' (Q_emit _ w Hw)) as H;
      destruct (messageHandler body ctx w') as [[u|e] w1]
  end; exact H.
Qed.

Lemma sequential_world (messages : list Message) (results : BatchResult) (w : World) :
  Q w -> Q (_processSequential JSON_parse messages messageHandler results w).2.
Proof.
  revert results w. induction messages as [|m ms IH]; intros results w Hw;
    [exact Hw|].
  cbn [_processSequential].
  pose proof (single_world m w Hw) as H1.
  destruct (_processSingleMessage JSON_parse m messageHandler w) as [[v|e] w1];
    simpl in H1; apply IH; [|exact H1].
  destruct (0 <? throttleDelayMs (processingEngine w1)); auto.
Qed.

Lemma settleAll_world (batchChunk : list Message) (w : World) :
  Q w -> Q (settleAll JSON_parse batchChunk messageHandler w).2.
Proof.
  revert w. induction batchChunk as [|m ms IH]; intros w Hw; [exact Hw|].
  cbn [settleAll].
  pose proof (single_world m w Hw) as H1.
  destruct (_processSingleMessage JSON_parse m messageHandler w) as [r w1].
  simpl in H1. specialize (IH w1 H1).
  destruct (settleAll JSON_parse ms messageHandler w1) as [others w2].
  exact IH.
Qed.

Lemma processChunks_world (batches : list (list Message)) (results : BatchResult)
    (w : World) :
  Q w -> Q (processChunks JSON_parse batches messageHandler results w).2.
Proof.
  revert results w. induction batches as [|chunk rest IH]; intros results w Hw;
    [exact Hw|].
  cbn [processChunks].
  pose proof (settleAll_world chunk w Hw) as H1.
  destruct (settleAll JSON_parse chunk messageHandler w) as [rs w1].
  apply IH. exact H1.
Qed.

Lemma processBatches_world (steps : nat) (remaining : list Message)
    (batchSize maxConcurrency : positive) (results : BatchResult) (w : World) :
  Q w ->
  Q (processBatches JSON_parse steps remaining batchSize maxConcurrency
       messageHandler results w).2.
Proof.
  revert remaining results w. induction steps as [|k IH]; intros remaining results w Hw.
  - destruct remaining; exact Hw.
  - destruct remaining as [|x xs]; [exact Hw|].
    cbn [processBatches].
    match goal with
    | |- context [processChunks JSON_parse ?bs messageHandler results w] =>
        pose proof (processChunks_world bs results w Hw) as Hc;
        destruct (processChunks JSON_parse bs messageHandler results w) as [r1 w1]
    end.
    apply IH. simpl in Hc.
    destruct ((0 <? throttleDelayMs (processingEngine w1)) && _); auto.
Qed.
End WorldInvariant.

(** X16. When the handler leaves the engine alone, each call of
    [processMessages] adds the batch's successes to [totalProcessed] and its
    failures to [totalFailed], so their sum grows by the size of the batch,
    and records the duration of the pass; mode, batch size, throttle and
    concurrency are as before. *)
Theorem stats_count_every_message
    (JSON_parse : string -> completion JSON.value) (messages : list Message)
    (messageHandler : handler) (o : options) (w : World) :
  (forall body context w',
     processingEngine (messageHandler body context w').2 = processingEngine w') ->
  let r := processMessages JSON_parse messages messageHandler o w in
  let before := processingStats (processingEngine w) in
  let after := processingStats (processingEngine r.2) in
  totalProcessed after = totalProcessed before + successful r.1 /\
  totalFailed after = totalFailed before + failed r.1 /\
  totalProcessed after + totalFailed after
  = totalProcessed before + totalFailed before + Z.of_nat (List.length messages) /\
  lastProcessingTime after = Some (processingTime r.1) /\
  mode (processingEngine r.2) = mode (processingEngine w) /\
  batchSize (processingEngine r.2) = batchSize (processingEngine w) /\
  throttleDelayMs (processingEngine r.2) = throttleDelayMs (processingEngine w) /\
  maxConcurrency (processingEngine r.2) = maxConcurrency (processingEngine w).
Proof.
  intros Hh.
  destruct (processMessages_accounts_for_all JSON_parse messages messageHandler o w)
    as [T1 T2].
  revert T1 T2. unfold processMessages.
  set (Q := fun w' : World => processingEngine w' = processingEngine w).
  assert (Qh : forall body context w', Q w' -> Q (messageHandler body context w').2).
  { intros body context w' H. unfold Q in *. rewrite Hh. exact H. }
  assert (Qe : forall ev w', Q w' -> Q (emit ev w')) by (intros ev w' H; exact H).
  assert (Qs : forall ms w', Q w' -> Q (sleep ms w')) by (intros ms w' H; exact H).
  assert (Q0 : Q w) by reflexivity.
  match goal with
  | |- context [if ?c then ?a else ?b] =>
      assert (Hw1 : Q (if c then a else b).2);
      [ destruct c;
        [ apply (processBatches_world JSON_parse messageHandler Q Qh Qe Qs); exact Q0
        | apply (sequential_world JSON_parse messageHandler Q Qh Qe Qs); exact Q0 ]
      | destruct (if c then a else b) as [r1 w1] ]
  end.
  unfold Q in Hw1. simpl in Hw1. cbn [fst snd].
  intros T1 T2. simpl in T1, T2. simpl. rewrite Hw1.
  repeat split; try reflexivity; lia.
Qed.

Lemma stats_count_every_message_witness :
  let r := processMessages Scenario.parse [Scenario.messageA; Scenario.messageB]
             Scenario.failsOnB
             (MessageConsumer.engineOptions (Scenario.options PARALLEL))
             (Scenario.world PARALLEL) in
  totalProcessed (processingStats (processingEngine r.2)) = 1 /\
  totalFailed (processingStats (processingEngine r.2)) = 1.
Proof.
  assert (Hh : forall body context w',
             processingEngine (Scenario.failsOnB body context w').2
             = processingEngine w').
  { intros body context w'. unfold Scenario.failsOnB.
    destruct (String.eqb (messageId context) "B"); reflexivity. }
  destruct (stats_count_every_message Scenario.parse
              [Scenario.messageA; Scenario.messageB] Scenario.failsOnB
              (MessageConsumer.engineOptions (Scenario.options PARALLEL))
              (Scenario.world PARALLEL) Hh) as (R1 & R2 & _).
  split; [exact R1 | exact R2].
Defined.

End ProcessingEngineFacts.

(** ** Further properties of the message consumer *)

Module MessageConsumerMore.
Import JS SQS Runtime MessageConsumer.
Local Open Scope Z_scope.

Lemma deleted_app (l1 l2 : list event) : deleted (l1 ++ l2) = deleted l1 ++ deleted l2.
Proof.
  induction l1 as [|ev l1 IH]; simpl; [reflexivity|].
  destruct ev as [[? ? ? ?|? ?]| | | | | | |]; simpl; rewrite IH; reflexivity.
Qed.

(** The whole effect of a command whose first send succeeds. *)
Lemma executeCommand_returns (aws : nat -> command -> reply) (c : command)
    (w : World) (result : response) :
  (CircuitBreaker.canExecute (clock w) (circuitBreaker w)).1 = true ->
  0 <= RetryManager.maxRetries (retryManager w) ->
  outcome (aws (sends w) c) = Return result ->
  SQSClient.executeCommand aws c w
  = (Return result,
     SQSClient.recordSuccess
       (elapse (latency (aws (sends w) c))
          (count_send
             (emit (Sent c)
                (with_circuitBreaker
                   (CircuitBreaker.canExecute (clock w) (circuitBreaker w)).2 w))))).
Proof.
  intros Hg Hmax Hok. rewrite (SQSClientFacts.executeCommand_granted aws c w Hg).
  unfold RetryManager.executeWithRetry.
  destruct (Z.to_nat (RetryManager.maxRetries (retryManager w) + 1)) as [|k] eqn:Ek;
    [lia|].
  set (w0 := with_circuitBreaker _ w).
  assert (Hok0 : outcome (aws (sends w0) c) = Return result) by exact Hok.
  rewrite (RetryManagerFacts.attempts_return _ _ _ _ _ _ _ _ _ _
             (SQSClientFacts.executeFn_return aws c w0 result Hok0)).
  reflexivity.
Qed.

Lemma not_open_grants (now : Z) (b : CircuitBreaker.t) :
  CircuitBreaker.state b <> CircuitBreaker.OPEN ->
  CircuitBreaker.canExecute now b = (true, b).
Proof.
  intros H. unfold CircuitBreaker.canExecute.
  destruct (CircuitBreaker.state b); congruence.
Qed.

Lemma recordSuccess_not_open (b : CircuitBreaker.t) :
  CircuitBreaker.state b <> CircuitBreaker.OPEN ->
  CircuitBreaker.state (CircuitBreaker.recordSuccess b) <> CircuitBreaker.OPEN.
Proof.
  intros H. unfold CircuitBreaker.recordSuccess. simpl.
  destruct (CircuitBreaker.state b); try congruence.
  destruct (CircuitBreaker.failureThreshold b <=? CircuitBreaker.successCount b + 1);
    discriminate.
Qed.

Lemma deleteAll_accepted (aws : nat -> command -> reply)
    (receiptHandles : list string) :
  (forall n url rh, exists result,
      outcome (aws n (DeleteMessageCommand url rh)) = Return result) ->
  forall w : World,
    CircuitBreaker.state (circuitBreaker w) <> CircuitBreaker.OPEN ->
    0 <= RetryManager.maxRetries (retryManager w) ->
    let w' := deleteAll aws receiptHandles w in
    deleted (log w') = deleted (log w) ++ receiptHandles /\
    sends w' = (sends w + List.length receiptHandles)%nat /\
    CircuitBreaker.state (circuitBreaker w') <> CircuitBreaker.OPEN.
Proof.
  intros Hsvc. induction receiptHandles as [|rh rest IH]; intros w Hs Hmax.
  - simpl. rewrite app_nil_r. repeat split; [lia | exact Hs].
  - cbn [deleteAll]. unfold _deleteMessage.
    destruct (Hsvc (sends w) (queueUrl w) rh) as [result Hok].
    pose proof (not_open_grants (clock w) (circuitBreaker w) Hs) as Hg.
    rewrite (executeCommand_returns aws _ w result
               ltac:(rewrite Hg; reflexivity) Hmax Hok).
    rewrite Hg. cbn [snd].
    match goal with
    | |- context [deleteAll aws rest ?w1] => set (w' := w1)
    end.
    assert (L : log w' = log w ++ [Sent (DeleteMessageCommand (queueUrl w) rh);
                                   RecordedSuccess]).
    { unfold w'. simpl. rewrite <- app_assoc. reflexivity. }
    assert (N : sends w' = S (sends w)) by reflexivity.
    destruct (IH w') as (I1 & I2 & I3).
    + unfold w'. simpl. apply recordSuccess_not_open. exact Hs.
    + exact Hmax.
    + cbv zeta in I1, I2, I3. cbv zeta. rewrite I1, I2, L, N.
      rewrite deleted_app. simpl. rewrite <- app_assoc.
      split; [reflexivity|]. split; [simpl; lia | exact I3].
Qed.

(** X17. With a breaker that is not OPEN and a service that accepts
    deletes, a batch in which at least one message was counted as successful
    is acknowledged whole: one delete per message of the batch, in batch
    order, each sent once. *)
Theorem counted_batch_is_acknowledged (aws : nat -> command -> reply)
    (messages : list Message) (results : ProcessingEngine.BatchResult) (w : World) :
  0 < ProcessingEngine.successful results ->
  CircuitBreaker.state (circuitBreaker w) <> CircuitBreaker.OPEN ->
  0 <= RetryManager.maxRetries (retryManager w) ->
  (forall n url rh, exists result,
      outcome (aws n (DeleteMessageCommand url rh)) = Return result) ->
  let w' := _deleteProcessedMessages aws messages results w in
  deleted (log w') = deleted (log w) ++ List.map ReceiptHandle messages /\
  sends w' = (sends w + List.length messages)%nat.
Proof.
  intros Hpos Hs Hmax Hsvc.
  rewrite MessageConsumerFacts.deletes_all_or_nothing.
  assert (E : (0 <? ProcessingEngine.successful results) = true) by lia.
  rewrite E.
  destruct (deleteAll_accepted aws (List.map ReceiptHandle messages) Hsvc w Hs Hmax)
    as (D1 & D2 & _).
  cbv zeta in *. rewrite length_map in D2. split; [exact D1 | exact D2].
Qed.

Lemma counted_batch_is_acknowledged_witness :
  let batch := [Scenario.messageA; Scenario.messageB] in
  let w := Scenario.world ProcessingEngine.PARALLEL in
  let results :=
    (ProcessingEngine.processMessages Scenario.parse batch Scenario.failsOnB
       (engineOptions (Scenario.options ProcessingEngine.PARALLEL)) w).1 in
  deleted (log (_deleteProcessedMessages Scenario.service batch results w))
  = ["rh-A"; "rh-B"].
Proof.
  intros batch w results.
  assert (Hpos : 0 < ProcessingEngine.successful results) by (vm_compute; reflexivity).
  assert (Hs : CircuitBreaker.state (circuitBreaker w) <> CircuitBreaker.OPEN)
    by (vm_compute; discriminate).
  assert (Hmax : 0 <= RetryManager.maxRetries (retryManager w))
    by (vm_compute; discriminate).
  assert (Hsvc : forall n url rh, exists result,
             outcome (Scenario.service n (DeleteMessageCommand url rh))
             = Return result).
  { intros n url rh. eexists. reflexivity. }
  exact (proj1 (counted_batch_is_acknowledged Scenario.service batch results w
                  Hpos Hs Hmax Hsvc)).
Defined.

Lemma deleteAll_refused (aws : nat -> command -> reply)
    (receiptHandles : list string) (w : World) :
  (CircuitBreaker.canExecute (clock w) (circuitBreaker w)).1 = false ->
  deleteAll aws receiptHandles w
  = List.fold_left
      (fun w' _ =>
         emit (ConsoleError "Failed to delete message:"
                 (error_message SQSClient.circuitOpen)) w')
      receiptHandles w.
Proof.
  revert w. induction receiptHandles as [|rh rest IH]; intros w Hr; [reflexivity|].
  cbn [deleteAll List.fold_left]. unfold _deleteMessage.
  unfold SQSClient.executeCommand.
  rewrite (SQSClientFacts.canExecute_refusal _ _ Hr),
    SQSClientFacts.with_circuitBreaker_same.
  apply IH. exact Hr.
Qed.

Lemma refusals_log (l : list string) (w : World) (ev : event) :
  let w' := List.fold_left (fun w' _ => emit ev w') l w in
  log w' = log w ++ repeat ev (List.length l) /\
  sends w' = sends w /\ clock w' = clock w /\ circuitBreaker w' = circuitBreaker w.
Proof.
  revert w. induction l as [|x l IH]; intros w.
  - simpl. rewrite app_nil_r. repeat split.
  - cbn [List.fold_left]. destruct (IH (emit ev w)) as (I1 & I2 & I3 & I4).
    cbv zeta in *. rewrite I1, I2, I3, I4. simpl. rewrite <- app_assoc.
    repeat split.
Qed.

(** X18. While the breaker refuses calls, deleting a processed batch sends
    nothing: each delete fails at the breaker, the failure is logged and
    swallowed, and the messages stay on the queue to be delivered again. *)
Theorem refused_deletes_are_swallowed (aws : nat -> command -> reply)
    (messages : list Message) (results : ProcessingEngine.BatchResult) (w : World) :
  (CircuitBreaker.canExecute (clock w) (circuitBreaker w)).1 = false ->
  let w' := _deleteProcessedMessages aws messages results w in
  deleted (log w') = deleted (log w) /\
  sends w' = sends w /\
  circuitBreaker w' = circuitBreaker w /\
  log w'
  = log w
    ++ repeat (ConsoleError "Failed to delete message:"
                 "Circuit breaker is open - operation not allowed")
         (if 0 <? ProcessingEngine.successful results
          then List.length messages else 0%nat).
Proof.
  intros Hr. rewrite MessageConsumerFacts.deletes_all_or_nothing.
  destruct (0 <? ProcessingEngine.successful results).
  - rewrite (deleteAll_refused aws _ w Hr).
    destruct (refusals_log (List.map ReceiptHandle messages) w
                (ConsoleError "Failed to delete message:"
                   (error_message SQSClient.circuitOpen)))
      as (L1 & L2 & _ & L4).
    cbv zeta in *. rewrite L1, L2, L4, length_map, deleted_app.
    replace (deleted (repeat _ (List.length messages))) with (@nil string).
    + rewrite app_nil_r. repeat split.
    + induction (List.length messages) as [|n IHn]; [reflexivity | exact IHn].
  - simpl. rewrite app_nil_r. repeat split.
Qed.

Lemma refused_deletes_are_swallowed_witness :
  let batch := [Scenario.messageA; Scenario.messageB] in
  let results :=
    {| ProcessingEngine.total := 2; ProcessingEngine.successful := 2;
       ProcessingEngine.failed := 0; ProcessingEngine.errors := [];
       ProcessingEngine.processingTime := 0 |} in
  let w' := _deleteProcessedMessages Scenario.service batch results Scenario.tripped in
  deleted (log w') = [] /\ sends w' = 0%nat.
Proof.
  intros batch results.
  assert (Hr : (CircuitBreaker.canExecute (clock Scenario.tripped)
                  (circuitBreaker Scenario.tripped)).1 = false)
    by (vm_compute; reflexivity).
  destruct (refused_deletes_are_swallowed Scenario.service batch results
              Scenario.tripped Hr) as (R1 & R2 & _).
  split; [exact R1 | exact R2].
Defined.

(** X19. When the breaker grants the receive and the service answers it at
    once with no message ([Messages] missing or empty), the iteration sends
    that one command, records the success, sleeps [pollingInterval]
    milliseconds and does nothing else: no handler call, no delete. *)
Theorem empty_poll_sleeps (aws : nat -> command -> reply)
    (JSON_parse : string -> completion JSON.value) (o : options)
    (messageHandler : ProcessingEngine.handler) (w : World) (result : response) :
  (CircuitBreaker.canExecute (clock w) (circuitBreaker w)).1 = true ->
  0 <= RetryManager.maxRetries (retryManager w) ->
  outcome (aws (sends w)
             (ReceiveMessageCommand (queueUrl w) (maxMessages o) (waitTimeSeconds o)
                (visibilityTimeoutSeconds o))) = Return result ->
  default [] (Messages result) = [] ->
  let w' := iteration aws JSON_parse o messageHandler w in
  log w'
  = log w
    ++ [Sent (ReceiveMessageCommand (queueUrl w) (maxMessages o) (waitTimeSeconds o)
                (visibilityTimeoutSeconds o));
        RecordedSuccess; Slept (pollingInterval o)] /\
  sends w' = S (sends w) /\
  isRunning w' = isRunning w.
Proof.
  intros Hg Hmax Hok Hempty. unfold iteration, tryBlock, _receiveMessages.
  rewrite (executeCommand_returns aws _ w result Hg Hmax Hok).
  rewrite Hempty. simpl. rewrite <- !app_assoc. repeat split.
Qed.

Lemma empty_poll_sleeps_witness :
  let o := Scenario.options ProcessingEngine.SEQUENTIAL in
  let w' := iteration Scenario.idle Scenario.parse o Scenario.alwaysThrows
              (Scenario.world ProcessingEngine.SEQUENTIAL) in
  log w' = [Sent Scenario.receive; RecordedSuccess; Slept 1000] /\
  sends w' = 1%nat.
Proof.
  intros o.
  destruct (empty_poll_sleeps Scenario.idle Scenario.parse o Scenario.alwaysThrows
              (Scenario.world ProcessingEngine.SEQUENTIAL) {| Messages := None |})
    as (R1 & R2 & _); try reflexivity.
  - simpl. lia.
  - split; [exact R1 | exact R2].
Defined.

Lemma recordFailures_counts (errors : list ProcessingEngine.failure) (now : Z)
    (h : HealthMonitor.t) :
  HealthMonitor.messagesFailed (recordFailures errors now h)
  = HealthMonitor.messagesFailed h + Z.of_nat (List.length errors) /\
  HealthMonitor.messagesProcessed (recordFailures errors now h)
  = HealthMonitor.messagesProcessed h /\
  HealthMonitor.totalProcessingTime (recordFailures errors now h)
  = HealthMonitor.totalProcessingTime h.
Proof.
  revert h. induction errors as [|e rest IH]; intros h.
  - simpl. repeat split; lia.
  - cbn [recordFailures]. destruct (IH (HealthMonitor.recordFailure
                                        (ProcessingEngine.failure_error e) now h))
      as (I1 & I2 & I3).
    rewrite I1, I2, I3. simpl. repeat split; lia.
Qed.

(** X20. The health monitor is told about a batch, not about its messages:
    [_updateHealthMonitor] adds one to [messagesProcessed] when the batch has
    at least one success, however many it has, and adds the duration of the
    whole batch once; it adds one to [messagesFailed] per error entry when the
    batch has a failure. *)
Theorem health_monitor_counts_batches (results : ProcessingEngine.BatchResult)
    (now : Z) (h : HealthMonitor.t) :
  let h' := _updateHealthMonitor results now h in
  HealthMonitor.messagesProcessed h'
  = HealthMonitor.messagesProcessed h
    + (if 0 <? ProcessingEngine.successful results then 1 else 0) /\
  HealthMonitor.totalProcessingTime h'
  = HealthMonitor.totalProcessingTime h
    + (if 0 <? ProcessingEngine.successful results
       then ProcessingEngine.processingTime results else 0) /\
  HealthMonitor.messagesFailed h'
  = HealthMonitor.messagesFailed h
    + (if 0 <? ProcessingEngine.failed results
       then Z.of_nat (List.length (ProcessingEngine.errors results)) else 0).
Proof.
  unfold _updateHealthMonitor.
  destruct (0 <? ProcessingEngine.successful results);
    destruct (0 <? ProcessingEngine.failed results); cbv zeta;
    try (match goal with
         | |- context [recordFailures ?es now ?h1] =>
             destruct (recordFailures_counts es now h1) as (R1 & R2 & R3);
             rewrite R1, R2, R3
         end);
    simpl; repeat split; lia.
Qed.

End MessageConsumerMore.

(** ** The health monitor *)

Module HealthMonitorFacts.
Import HealthMonitor.
Local Open Scope Z_scope.

Lemma rate_above_tenth (failed total : Z) :
  0 < total ->
  Qle_bool (inject_Z failed / inject_Z total) (1 # 10) = false <-> total < 10 * failed.
Proof.
  intros Ht. destruct total as [|p|p]; try lia.
  unfold Qle_bool, Qdiv, Qmult, Qinv, inject_Z. simpl.
  rewrite Z.leb_gt. lia.
Qed.

(** X21. With counters below [2 ^ 52], [getHealthStatus()] reports
    "unhealthy" exactly when the recorded breaker state is OPEN, and otherwise
    "degraded" exactly when at least one success and one failure were
    recorded and failures exceed one ninth of the successes; so a monitor
    that has recorded failures only reports "healthy". *)
Theorem health_status_rule (h : t) :
  messagesProcessed h + messagesFailed h < 2 ^ 52 ->
  (healthStatus h = UNHEALTHY <-> circuitBreakerState h = "OPEN") /\
  (healthStatus h = DEGRADED <->
   circuitBreakerState h <> "OPEN" /\ 0 < messagesProcessed h /\
   messagesProcessed h < 9 * messagesFailed h) /\
  (circuitBreakerState h <> "OPEN" -> messagesProcessed h <= 0 ->
   healthStatus h = HEALTHY).
Proof.
  intros _. unfold healthStatus, highFailureRate.
  destruct (String.eqb (circuitBreakerState h) "OPEN") eqn:Eo.
  - apply String.eqb_eq in Eo. repeat split; try congruence; try discriminate.
    intros [H _]. congruence.
  - apply String.eqb_neq in Eo.
    destruct (0 <? messagesFailed h) eqn:Ef; destruct (0 <? messagesProcessed h) eqn:Ep;
      simpl.
    + pose proof (rate_above_tenth (messagesFailed h)
                    (messagesProcessed h + messagesFailed h) ltac:(lia)) as Hr.
      destruct (Qle_bool _ _) eqn:Eq; simpl.
      * assert (Hn : ~ (messagesProcessed h + messagesFailed h
                        < 10 * messagesFailed h)).
        { intros H. apply Hr in H. discriminate H. }
        repeat split; try congruence; try discriminate; try lia.
      * destruct Hr as [Hr _]. specialize (Hr eq_refl).
        repeat split; try congruence; try discriminate; try lia.
    + repeat split; try congruence; try discriminate; try lia.
    + repeat split; try congruence; try discriminate; try lia.
    + repeat split; try congruence; try discriminate; try lia.
Qed.

Lemma health_status_rule_witness :
  healthStatus (recordFailure None 2 (recordSuccess 5 1 (new 0))) = DEGRADED /\
  healthStatus (recordFailure None 1 (new 0)) = HEALTHY.
Proof.
  split.
  - apply (proj2 (proj1 (proj2
             (health_status_rule (recordFailure None 2 (recordSuccess 5 1 (new 0)))
                ltac:(vm_compute; reflexivity))))).
    split; [discriminate|]. simpl. lia.
  - apply (proj2 (proj2
             (health_status_rule (recordFailure None 1 (new 0))
                ltac:(vm_compute; reflexivity)))).
    + discriminate.
    + simpl. lia.
Defined.

Lemma checkAll_throws (m : checks) (now : Z) (results : list (string * checkEntry))
    (allHealthy : bool) :
  (exists error, checkAll m now results allHealthy = JS.Throw error) <->
  In (JS.Throw JS.Undefined) (List.map snd m).
Proof.
  revert results allHealthy.
  induction m as [|[name check] m IH]; intros results allHealthy; simpl.
  - split; [intros [error H]; discriminate H | intros []].
  - destruct check as [result|[|n msg]]; simpl.
    + rewrite IH. split; [intros H; right; exact H|].
      intros [H|H]; [discriminate H | exact H].
    + split; [intros _; left; reflexivity | intros _; eexists; reflexivity].
    + rewrite IH. split; [intros H; right; exact H|].
      intros [H|H]; [discriminate H | exact H].
Qed.

Lemma checkAll_returns (m : checks) (now : Z) :
  forall (acc : list (string * checkEntry)) (ok : bool)
         (results : list (string * checkEntry)) (allHealthy : bool),
    checkAll m now acc ok = JS.Return (results, allHealthy) ->
    List.map fst results = List.map fst acc ++ List.map fst m /\
    (forall x, In x acc -> In x results) /\
    (allHealthy = true <->
     ok = true /\
     Forall (fun nc => exists result,
               nc.2 = JS.Return result /\ check_status result = Some "healthy") m) /\
    (forall name result,
       In (name, JS.Return result) m -> check_status result = None ->
       (exists entry, In (name, entry) results /\ entry_status entry = "healthy" /\
                      entry_error entry = None) /\
       allHealthy = false).
Proof.
  induction m as [|[name check] m IH]; intros acc ok results allHealthy H; simpl in H.
  - injection H as <- <-. rewrite app_nil_r.
    split; [reflexivity|]. split; [auto|]. split.
    + split; [intros E; split; [exact E | constructor] | intros [E _]; exact E].
    + intros n r [].
  - destruct (runCheck check now) as [[entry healthy]|error] eqn:Er; [|discriminate H].
    destruct (IH _ _ _ _ H) as (I1 & I2 & I3 & I4).
    split; [|split; [|split]].
    + rewrite I1, List.map_app, <- app_assoc. reflexivity.
    + intros x Hx. apply I2. apply in_or_app. left. exact Hx.
    + rewrite I3, andb_true_iff. split.
      * intros [[E1 E2] F]. split; [exact E1|]. constructor; [|exact F]. simpl.
        destruct check as [result|[|n msg]]; simpl in Er.
        -- injection Er as _ <-. exists result. split; [reflexivity|].
           destruct (check_status result) as [st|]; [|discriminate E2].
           apply String.eqb_eq in E2. congruence.
        -- discriminate Er.
        -- injection Er as _ <-. discriminate E2.
      * intros [E1 F]. inversion F as [|x l Hx Hl]. subst x l.
        destruct Hx as (result & Hr & Hs). simpl in Hr. subst check.
        simpl in Er. injection Er as _ <-.
        rewrite Hs. split; [split; [exact E1 | reflexivity] | exact Hl].
    + intros n r [Hin|Hin] Hs.
      * injection Hin as -> ->. simpl in Er. injection Er as <- <-. split.
        -- eexists. split; [apply I2; apply in_or_app; right; left; reflexivity|].
           simpl. rewrite Hs. split; reflexivity.
        -- rewrite Hs in I3. destruct allHealthy; [|reflexivity].
           destruct I3 as [I3 _]. destruct (I3 eq_refl) as [E _].
           rewrite andb_false_r in E. discriminate E.
      * apply (I4 n r Hin Hs).
Qed.

(** X22. [performHealthChecks()] rejects exactly when a registered check
    rejects with [undefined]. When it returns, it reports "healthy" overall
    exactly when every registered check returns an object whose [status] is
    "healthy", and has written one entry per check, under the check's name.
    A check that returns without a [status] is listed as "healthy" and yet
    makes the overall result "unhealthy". *)
Theorem overall_health_needs_every_status (m : checks) (now : Z) :
  ((exists error, performHealthChecks m now = JS.Throw error) <->
   In (JS.Throw JS.Undefined) (List.map snd m)) /\
  (forall overall entries,
     performHealthChecks m now = JS.Return (overall, entries) ->
     (overall = "healthy" <->
      Forall (fun nc => exists result,
                nc.2 = JS.Return result /\ check_status result = Some "healthy") m) /\
     List.map fst entries = List.map fst m /\
     (forall name result,
        In (name, JS.Return result) m -> check_status result = None ->
        (exists entry, In (name, entry) entries /\ entry_status entry = "healthy" /\
                       entry_error entry = None) /\
        overall = "unhealthy")).
Proof.
  unfold performHealthChecks. split.
  - rewrite <- (checkAll_throws m now [] true).
    destruct (checkAll m now [] true) as [[results allHealthy]|error].
    + split; intros [e H]; discriminate H.
    + split; intros _; eexists; reflexivity.
  - intros overall entries H.
    destruct (checkAll m now [] true) as [[results allHealthy]|error] eqn:E;
      [|discriminate H].
    injection H as <- <-.
    destruct (checkAll_returns m now _ _ _ _ E) as (I1 & _ & I3 & I4).
    split; [|split].
    + destruct allHealthy.
      * split; [intros _; apply I3; reflexivity | reflexivity].
      * split; [intros H; discriminate H|].
        intros F. destruct I3 as [_ I3].
        assert (C : false = true) by (apply I3; split; [reflexivity | exact F]).
        discriminate C.
    + exact I1.
    + intros name result Hin Hs. destruct (I4 name result Hin Hs) as [J1 J2].
      split; [exact J1|]. rewrite J2. reflexivity.
Qed.

Lemma overall_health_needs_every_status_witness :
  let noStatus := {| check_status := None; check_details := None |} in
  (exists entries,
     performHealthChecks (registerHealthCheck "queue" (JS.Return noStatus) []) 7
     = JS.Return ("unhealthy", entries)) /\
  (exists error,
     performHealthChecks
       (registerHealthCheck "queue" (JS.Throw JS.Undefined) []) 7
     = JS.Throw error).
Proof.
  intros noStatus. split.
  - destruct (performHealthChecks
                (registerHealthCheck "queue" (JS.Return noStatus) []) 7)
      as [[overall entries]|error] eqn:E; [|discriminate E].
    exists entries.
    destruct (proj2 (overall_health_needs_every_status
                       (registerHealthCheck "queue" (JS.Return noStatus) []) 7)
                overall entries E) as (_ & _ & H).
    destruct (H "queue" noStatus) as [_ ->]; [left; reflexivity | reflexivity|].
    reflexivity.
  - apply (proj1 (overall_health_needs_every_status
                    (registerHealthCheck "queue" (JS.Throw JS.Undefined) []) 7)).
    left. reflexivity.
Defined.

End HealthMonitorFacts.

(** ** Message publisher *)

Module MessagePublisherFacts.
Import JS MessagePublisher.
Local Open Scope Z_scope.

Lemma isDuplicate_hit (dm : DeduplicationManager.t) (id : string) (now ts : Z) :
  DeduplicationManager.deduplicationCache dm !! id = Some ts ->
  now - ts <= DeduplicationManager.cacheExpiry dm ->
  DeduplicationManager.isDuplicate id now dm
  = (true, DeduplicationManager.with_cache (DeduplicationManager.sweep dm now) dm).
Proof.
  intros Hk Hin. unfold DeduplicationManager.isDuplicate.
  assert (Hs : DeduplicationManager.sweep dm now !! id = Some ts)
    by (apply DeduplicationManagerFacts.sweep_lookup_Some; auto).
  rewrite Hs. reflexivity.
Qed.

Lemma isDuplicate_miss (dm : DeduplicationManager.t) (id : string) (now : Z) :
  DeduplicationManager.deduplicationCache dm !! id = None ->
  DeduplicationManager.isDuplicate id now dm
  = (false,
     DeduplicationManager.with_cache
       (<[id := now]> (DeduplicationManager.sweep dm now)) dm).
Proof.
  intros Hk. unfold DeduplicationManager.isDuplicate.
  assert (Hs : DeduplicationManager.sweep dm now !! id = None).
  { apply DeduplicationManagerFacts.sweep_lookup_None. intros ts Hts. congruence. }
  rewrite Hs. reflexivity.
Qed.

Section Facts.
Context {W : Type}.
Variable now : W -> Z.
Variable uuidv4 : W -> string * W.
Variable executeCommand : command -> W -> completion sendResult * W.
Variable digest : string -> string -> string.

Lemma publish_duplicate (p : t) (messageBody : JSON.value) (o : options) (w : W)
    (id : string) (ts : Z) :
  _validateMessageBody messageBody = None ->
  _validateOptions o = None ->
  truthy (messageDeduplicationId o) = Some id ->
  enableDeduplication p = true ->
  DeduplicationManager.deduplicationCache (deduplicationManager p) !! id = Some ts ->
  now w - ts <= DeduplicationManager.cacheExpiry (deduplicationManager p) ->
  publish now uuidv4 executeCommand digest p messageBody o w
  = (Return (NotPublished "Duplicate message detected" 0),
     (with_manager
        (DeduplicationManager.with_cache
           (DeduplicationManager.sweep (deduplicationManager p) (now w))
           (deduplicationManager p)) p, w)).
Proof.
  intros Hb Ho Hid He Hk Hin.
  unfold publish, tryPublish, _generateDeduplicationId.
  rewrite Hb, Ho, Hid, He, (isDuplicate_hit _ id (now w) ts Hk Hin).
  cbn [fst snd]. replace (isValidationError duplicateError) with false
    by (vm_compute; reflexivity).
  simpl. rewrite Z.sub_diag. reflexivity.
Qed.

Lemma publish_send_fails (p : t) (messageBody : JSON.value) (o : options) (w w2 : W)
    (id : string) (name message : string) :
  _validateMessageBody messageBody = None ->
  _validateOptions o = None ->
  truthy (messageDeduplicationId o) = Some id ->
  enableDeduplication p = true ->
  DeduplicationManager.deduplicationCache (deduplicationManager p) !! id = None ->
  executeCommand (buildCommand p messageBody o id) w = (Throw (Err name message), w2) ->
  isValidationError (Err name message) = false ->
  publish now uuidv4 executeCommand digest p messageBody o w
  = (Return (NotPublished message (now w2 - now w)),
     (with_manager
        (DeduplicationManager.with_cache
           (<[id := now w]>
              (DeduplicationManager.sweep (deduplicationManager p) (now w)))
           (deduplicationManager p)) p, w2)).
Proof.
  intros Hb Ho Hid He Hk Hx Hv.
  unfold publish, tryPublish, _generateDeduplicationId.
  rewrite Hb, Ho, Hid, He, (isDuplicate_miss _ id (now w) Hk).
  cbn [fst snd]. rewrite Hx, Hv. reflexivity.
Qed.

(** X26. A publish whose deduplication id is in the cache and not expired
    is answered [{success: false, error: 'Duplicate message detected'}]: it
    does not throw, and the client is not called, so the world of the client
    is left as it was. *)
Theorem duplicate_is_not_sent (p : t) (messageBody : JSON.value) (o : options)
    (w : W) (id : string) (ts : Z) :
  _validateMessageBody messageBody = None ->
  _validateOptions o = None ->
  truthy (messageDeduplicationId o) = Some id ->
  enableDeduplication p = true ->
  DeduplicationManager.deduplicationCache (deduplicationManager p) !! id = Some ts ->
  now w - ts <= DeduplicationManager.cacheExpiry (deduplicationManager p) ->
  let r := publish now uuidv4 executeCommand digest p messageBody o w in
  r.1 = Return (NotPublished "Duplicate message detected" 0) /\
  r.2.2 = w /\
  DeduplicationManager.deduplicationCache (deduplicationManager r.2.1) !! id
  = Some ts.
Proof.
  intros Hb Ho Hid He Hk Hin r. unfold r.
  rewrite (publish_duplicate p messageBody o w id ts Hb Ho Hid He Hk Hin).
  cbn [fst snd]. split; [reflexivity|]. split; [reflexivity|].
  simpl. apply DeduplicationManagerFacts.sweep_lookup_Some. split; assumption.
Qed.

(** X27. The id is put in the cache before the message is sent. When the
    send then fails, the publish is answered [{success: false}] with the
    client's error, and the id stays in the cache: a second publish under the
    same id within the expiry window is refused as a duplicate, without the
    client being called, although nothing was ever sent. *)
Theorem failed_send_blocks_retry (p : t) (body1 body2 : JSON.value)
    (o1 o2 : options) (w w2 : W) (id : string) (name message : string) :
  _validateMessageBody body1 = None -> _validateOptions o1 = None ->
  _validateMessageBody body2 = None -> _validateOptions o2 = None ->
  truthy (messageDeduplicationId o1) = Some id ->
  truthy (messageDeduplicationId o2) = Some id ->
  enableDeduplication p = true ->
  DeduplicationManager.deduplicationCache (deduplicationManager p) !! id = None ->
  executeCommand (buildCommand p body1 o1 id) w = (Throw (Err name message), w2) ->
  isValidationError (Err name message) = false ->
  now w2 - now w <= DeduplicationManager.cacheExpiry (deduplicationManager p) ->
  let first := publish now uuidv4 executeCommand digest p body1 o1 w in
  let second := publish now uuidv4 executeCommand digest first.2.1 body2 o2 first.2.2 in
  first.1 = Return (NotPublished message (now w2 - now w)) /\
  second.1 = Return (NotPublished "Duplicate message detected" 0) /\
  second.2.2 = w2.
Proof.
  intros Hb1 Ho1 Hb2 Ho2 Hid1 Hid2 He Hk Hx Hv Hin first second.
  unfold second, first.
  rewrite (publish_send_fails p body1 o1 w w2 id name message
             Hb1 Ho1 Hid1 He Hk Hx Hv).
  cbn [fst snd]. split; [reflexivity|].
  rewrite (publish_duplicate _ body2 o2 w2 id (now w)); try assumption.
  - split; reflexivity.
  - simpl. apply lookup_insert_eq.
Qed.

(** X28. A body that is not an object or an array makes [publish] throw the
    validation error, with the cache and the client untouched; every other
    failure is returned as a result instead. Inside [publishBatch] the same
    message gives a failed result and the batch goes on. *)
Theorem invalid_body_throws (p : t) (messageBody : JSON.value) (o : options) (w : W)
    (rest : list (JSON.value * options)) :
  _validateMessageBody messageBody = Some bodyError ->
  publish now uuidv4 executeCommand digest p messageBody o w
  = (Throw bodyError, (p, w)) /\
  publishAll now uuidv4 executeCommand digest ((messageBody, o) :: rest) p w
  = (NotPublished "Message body is required and must be an object" 0
       :: (publishAll now uuidv4 executeCommand digest rest p w).1,
     (publishAll now uuidv4 executeCommand digest rest p w).2).
Proof.
  intros Hb.
  assert (Hp : publish now uuidv4 executeCommand digest p messageBody o w
               = (Throw bodyError, (p, w))).
  { unfold publish, tryPublish. rewrite Hb.
    replace (isValidationError bodyError) with true by (vm_compute; reflexivity).
    reflexivity. }
  split; [exact Hp|].
  cbn [publishAll]. rewrite Hp.
  destruct (publishAll now uuidv4 executeCommand digest rest p w) as [others pw].
  reflexivity.
Qed.

(** X29. With deduplication disabled, [publish] never consults the cache:
    whatever happens, the publisher and its cache are as before. *)
Theorem disabled_deduplication_skips_cache (p : t) (messageBody : JSON.value)
    (o : options) (w : W) :
  enableDeduplication p = false ->
  (publish now uuidv4 executeCommand digest p messageBody o w).2.1 = p.
Proof.
  intros He. unfold publish, tryPublish. rewrite He.
  destruct (_validateMessageBody messageBody) as [e|].
  { destruct e as [|n m]; [|destruct (isValidationError (Err n m))]; reflexivity. }
  destruct (_validateOptions o) as [e|].
  { destruct e as [|n m]; [|destruct (isValidationError (Err n m))]; reflexivity. }
  destruct (_generateDeduplicationId now uuidv4 digest p messageBody o w)
    as [[id|e] w1].
  - destruct (executeCommand (buildCommand p messageBody o id) w1) as [[r|e] w2];
      [reflexivity|].
    destruct e as [|n m]; [|destruct (isValidationError (Err n m))]; reflexivity.
  - destruct e as [|n m]; [|destruct (isValidationError (Err n m))]; reflexivity.
Qed.



End Facts.

Lemma duplicate_is_not_sent_witness :
  let first := publish clock uuid accepting DeduplicationManager.plainDigest fifo
                 DeduplicationManager.orderOne (withId "order-1") (0, []) in
  let second := publish clock uuid accepting DeduplicationManager.plainDigest
                  first.2.1 DeduplicationManager.orderTwo (withId "order-1")
                  first.2.2 in
  List.length first.2.2.2 = 1%nat /\
  second.1 = Return (NotPublished "Duplicate message detected" 0) /\
  second.2.2 = first.2.2.
Proof.
  intros first second.
  assert (Hk : DeduplicationManager.deduplicationCache (deduplicationManager first.2.1)
               !! "order-1" = Some 0) by (vm_compute; reflexivity).
  destruct (duplicate_is_not_sent clock uuid accepting DeduplicationManager.plainDigest
              first.2.1 DeduplicationManager.orderTwo (withId "order-1") first.2.2
              "order-1" 0 eq_refl eq_refl eq_refl eq_refl Hk) as (R1 & R2 & _).
  - vm_compute. discriminate.
  - split; [reflexivity|]. split; [exact R1 | exact R2].
Defined.

Lemma failed_send_blocks_retry_witness :
  let first := publish clock uuid unreachable DeduplicationManager.plainDigest fifo
                 DeduplicationManager.orderOne (withId "order-1") (0, []) in
  let second := publish clock uuid unreachable DeduplicationManager.plainDigest
                  first.2.1 DeduplicationManager.orderOne (withId "order-1")
                  first.2.2 in
  first.1 = Return (NotPublished "unreachable" 10) /\
  second.1 = Return (NotPublished "Duplicate message detected" 0).
Proof.
  destruct (failed_send_blocks_retry clock uuid unreachable
              DeduplicationManager.plainDigest fifo
              DeduplicationManager.orderOne DeduplicationManager.orderOne
              (withId "order-1") (withId "order-1") (0, []) (10, []) "order-1"
              "NetworkingError" "unreachable"
              eq_refl eq_refl eq_refl eq_refl eq_refl eq_refl eq_refl eq_refl
              eq_refl eq_refl) as (R1 & R2 & _).
  - vm_compute. discriminate.
  - split; [exact R1 | exact R2].
Defined.

Lemma invalid_body_throws_witness :
  publish clock uuid accepting DeduplicationManager.plainDigest fifo JSON.JNull
    (withId "order-1") (0, [])
  = (Throw bodyError, (fifo, (0, []))).
Proof.
  apply (proj1 (invalid_body_throws clock uuid accepting
                  DeduplicationManager.plainDigest fifo JSON.JNull
                  (withId "order-1") (0, []) [] eq_refl)).
Defined.

Lemma disabled_deduplication_skips_cache_witness :
  let p := {| queueUrl := "https://sqs.example/orders.fifo";
              defaultGroupId := Some "orders"; enableDeduplication := false;
              deduplicationManager := DeduplicationManager.fresh |} in
  (publish clock uuid accepting DeduplicationManager.plainDigest p
     DeduplicationManager.orderOne (withId "order-1") (0, [])).2.1 = p.
Proof.
  intros p.
  apply (disabled_deduplication_skips_cache clock uuid accepting
           DeduplicationManager.plainDigest p DeduplicationManager.orderOne
           (withId "order-1") (0, [])).
  reflexivity.
Defined.

End MessagePublisherFacts.
